(** * PES commentary editor: the binary codec and its mutation API

    A shallow embedding of the sources of the repository:

      - [src/utils.ts]           module [Utils]
      - [src/parser_config.ts]   module [Config]
      - [src/unnamed/part_000]   the TypeScript class [PESCommentaryListParser],
                                 whose mutation API takes strings: module [Parser]
      - [src/unnamed/part_001]   the compiled JavaScript class, whose mutation
                                 API takes numeric ids: module [ParserDist]
      - [dist/types/utils.d.ts]  the declaration of [formatTo6String], whose
                                 body is in none of the sources

    together with the part of the JavaScript platform that these sources call
    (module [JS]): UTF-16 strings, [trim], the one regular expression of
    [cleanString], [TextEncoder] and [TextDecoder] for UTF-8, typed arrays and
    [Array.prototype.sort].

    Conventions.  A byte is a [Z] in [0, 255]; a JavaScript string is the list
    of its UTF-16 code units, each a [Z] in [0, 65535]; sizes and offsets are
    [nat]; a numeric commentary id is a [Z].  The arrays and typed arrays that
    a parser holds are objects in a store ([Heap]), named by their location,
    so that an update in place and a copy are different things.  A method is a
    computation on the store that returns or throws ([M]). *)

From Stdlib Require Import ZArith List Bool Lia String Ascii Permutation Sorted.
From stdpp Require Import base list.
Import ListNotations.

Set Default Proof Using "Type".
Local Open Scope nat_scope.

(* ===================================================================== *)
(** ** The JavaScript platform                                            *)
(* ===================================================================== *)

Module JS.

(** A string value: the sequence of its UTF-16 code units. *)
Definition jsstring := list Z.

(** A string literal of ASCII characters. *)
Definition lit (s : string) : jsstring :=
  map (fun a => Z.of_nat (nat_of_ascii a)) (list_ascii_of_string s).

(** [String.fromCharCode] at one code unit. *)
Definition fromCharCode (c : Z) : jsstring := [c].

(** [s.charAt(0)]: the first code unit as a string, or the empty string. *)
Definition charAt0 (s : jsstring) : jsstring :=
  match s with
  | [] => []
  | c :: _ => [c]
  end.

(** ECMAScript LineTerminator: LF, CR, LS, PS.  The regular-expression atom
    [.] (without the [s] flag) matches every code unit but these. *)
Definition isLineTerminator (c : Z) : bool :=
  ((c =? 0x0A) || (c =? 0x0D) || (c =? 0x2028) || (c =? 0x2029))%Z.

(** The code units removed by [trim]: WhiteSpace and LineTerminator. *)
Definition isWhiteSpace (c : Z) : bool :=
  ((c =? 0x09) || (c =? 0x0B) || (c =? 0x0C) || (c =? 0x20) || (c =? 0xA0)
   || (c =? 0x1680) || ((0x2000 <=? c) && (c <=? 0x200A))
   || (c =? 0x202F) || (c =? 0x205F) || (c =? 0x3000) || (c =? 0xFEFF)
   || isLineTerminator c)%Z.

Fixpoint trimStart (s : jsstring) : jsstring :=
  match s with
  | [] => []
  | c :: r => if isWhiteSpace c then trimStart r else s
  end.

Definition trimEnd (s : jsstring) : jsstring := rev (trimStart (rev s)).

(** [String.prototype.trim]. *)
Definition trim (s : jsstring) : jsstring := trimEnd (trimStart s).

(** [s.replace(/\0.*$/, "")].  The pattern has no flags: the match is tried at
    each position from the left; [\0] must be a NUL there, the greedy [.*]
    then runs up to the next line terminator (or the end), and [$] only holds
    at the very end of the string.  So the leftmost NUL that is followed by no
    line terminator is where the string is cut; without such a NUL the string
    is returned as it is. *)
Fixpoint replaceNulTail (s : jsstring) : jsstring :=
  match s with
  | [] => []
  | c :: r =>
      if (c =? 0)%Z && forallb (fun d => negb (isLineTerminator d)) r
      then []
      else c :: replaceNulTail r
  end.

(** [toUpperCase] on one code unit.  The code units whose upper case is an
    ASCII capital letter are mapped exactly: [a]-[z], U+0131 (dotless i) and
    U+017F (long s).  Every other code unit stands for its own upper case
    here; its real upper case is never a single ASCII capital letter, which
    is all that a look-up among the keys [A]..[Z] can observe. *)
Definition upperUnit (c : Z) : Z :=
  (if (0x61 <=? c) && (c <=? 0x7A) then c - 0x20
   else if c =? 0x131 then 0x49
   else if c =? 0x17F then 0x53
   else c)%Z.

Definition toUpperCase (s : jsstring) : jsstring := map upperUnit s.

(** [Number.prototype.toString] on an integer: decimal digits, least
    significant first. *)
Fixpoint digitsLE (fuel : nat) (n : Z) : list Z :=
  match fuel with
  | O => []
  | S f => (n mod 10)%Z :: (if (n / 10 =? 0)%Z then [] else digitsLE f (n / 10)%Z)
  end.

Definition toStringNonneg (n : Z) : jsstring :=
  map (fun d => (0x30 + d)%Z) (rev (digitsLE (S (Z.to_nat (Z.log2 n))) n)).

Definition Number_toString (n : Z) : jsstring :=
  if (n <? 0)%Z then 0x2D%Z :: toStringNonneg (- n) else toStringNonneg n.

(** [s.padStart(n, "0")]. *)
Definition padStart0 (n : nat) (s : jsstring) : jsstring :=
  repeat 0x30%Z (n - length s) ++ s.

(** [s.slice(-n)]: the last [n] code units. *)
Definition sliceLast (n : nat) (s : jsstring) : jsstring :=
  drop (length s - n) s.

(** *** UTF-8, after the WHATWG Encoding standard *)

Module TextDecoder.

(** The state of the UTF-8 decoder. *)
Record State := mkState {
  codePoint : Z;
  bytesSeen : Z;
  bytesNeeded : Z;
  lowerBoundary : Z;
  upperBoundary : Z
}.

Definition initial : State := mkState 0 0 0 0x80 0xBF.

(** One byte while no sequence is open ([bytesNeeded = 0]): the code points
    emitted and the next state. *)
Definition lead (b : Z) : list Z * State :=
  (if (0x00 <=? b) && (b <=? 0x7F) then ([b], initial)
   else if (0xC2 <=? b) && (b <=? 0xDF) then
     ([], mkState (Z.land b 0x1F) 0 1 0x80 0xBF)
   else if (0xE0 <=? b) && (b <=? 0xEF) then
     ([], mkState (Z.land b 0xF) 0 2
            (if b =? 0xE0 then 0xA0 else 0x80)
            (if b =? 0xED then 0x9F else 0xBF))
   else if (0xF0 <=? b) && (b <=? 0xF4) then
     ([], mkState (Z.land b 0x7) 0 3
            (if b =? 0xF0 then 0x90 else 0x80)
            (if b =? 0xF4 then 0x8F else 0xBF))
   else ([0xFFFD], initial))%Z.

(** One byte in any state.  A byte outside the boundaries closes the open
    sequence with U+FFFD and is then read again from the initial state. *)
Definition step (st : State) (b : Z) : list Z * State :=
  (if bytesNeeded st =? 0 then lead b
   else if negb ((lowerBoundary st <=? b) && (b <=? upperBoundary st)) then
     let '(out, st') := lead b in (0xFFFD :: out, st')
   else
     let cp := Z.lor (Z.shiftl (codePoint st) 6) (Z.land b 0x3F) in
     if bytesSeen st + 1 =? bytesNeeded st then ([cp], initial)
     else ([], mkState cp (bytesSeen st + 1) (bytesNeeded st) 0x80 0xBF))%Z.

(** The scalar values of a byte sequence; an unfinished sequence at the end
    of the input gives U+FFFD. *)
Fixpoint scalarsFrom (st : State) (bs : list Z) : list Z :=
  match bs with
  | [] => if (bytesNeeded st =? 0)%Z then [] else [0xFFFD%Z]
  | b :: r => let '(out, st') := step st b in out ++ scalarsFrom st' r
  end.

(** The decoder is created with the default [ignoreBOM = false]: a leading
    U+FEFF is dropped. *)
Definition stripBOM (cps : list Z) : list Z :=
  match cps with
  | c :: r => if (c =? 0xFEFF)%Z then r else cps
  | [] => []
  end.

(** A scalar value as UTF-16 code units. *)
Definition toUtf16 (cp : Z) : list Z :=
  (if cp <=? 0xFFFF then [cp]
   else [0xD800 + Z.shiftr (cp - 0x10000) 10;
         0xDC00 + Z.land (cp - 0x10000) 0x3FF])%Z.

(** [new TextDecoder("utf-8").decode(buffer)]. *)
Definition decode (bs : list Z) : jsstring :=
  flat_map toUtf16 (stripBOM (scalarsFrom initial bs)).

End TextDecoder.

Module TextEncoder.

Definition isLeadSurrogate (c : Z) : bool := ((0xD800 <=? c) && (c <=? 0xDBFF))%Z.
Definition isTrailSurrogate (c : Z) : bool := ((0xDC00 <=? c) && (c <=? 0xDFFF))%Z.

(** The scalar values of a string: a surrogate pair is one scalar value, a
    lone surrogate becomes U+FFFD. *)
Fixpoint scalars (s : jsstring) : list Z :=
  match s with
  | [] => []
  | c :: r =>
      if isLeadSurrogate c then
        match r with
        | d :: r' =>
            if isTrailSurrogate d
            then (0x10000 + (c - 0xD800) * 0x400 + (d - 0xDC00))%Z :: scalars r'
            else 0xFFFD%Z :: scalars r
        | [] => [0xFFFD%Z]
        end
      else if isTrailSurrogate c then 0xFFFD%Z :: scalars r
      else c :: scalars r
  end.

(** The UTF-8 bytes of one scalar value. *)
Definition encodeScalar (cp : Z) : list Z :=
  (if cp <=? 0x7F then [cp]
   else if cp <=? 0x7FF then
     [Z.lor 0xC0 (Z.shiftr cp 6); Z.lor 0x80 (Z.land cp 0x3F)]
   else if cp <=? 0xFFFF then
     [Z.lor 0xE0 (Z.shiftr cp 12);
      Z.lor 0x80 (Z.land (Z.shiftr cp 6) 0x3F);
      Z.lor 0x80 (Z.land cp 0x3F)]
   else
     [Z.lor 0xF0 (Z.shiftr cp 18);
      Z.lor 0x80 (Z.land (Z.shiftr cp 12) 0x3F);
      Z.lor 0x80 (Z.land (Z.shiftr cp 6) 0x3F);
      Z.lor 0x80 (Z.land cp 0x3F)])%Z.

(** [new TextEncoder().encode(s)]. *)
Definition encode (s : jsstring) : list Z := flat_map encodeScalar (scalars s).

End TextEncoder.

(** *** Typed arrays *)

Module Uint8Array.

(** [new Uint8Array(new ArrayBuffer(n))]: [n] zero bytes. *)
Definition zeros (n : nat) : list Z := replicate n 0%Z.

(** [a.slice(from, to)] with [0 <= from]: indices are clamped to the length. *)
Definition slice (a : list Z) (from to : nat) : list Z :=
  take (to - from) (drop from a).

(** [a.set(src, offset)]: [None] is the [RangeError] thrown when the source
    does not fit. *)
Definition set (a src : list Z) (offset : nat) : option (list Z) :=
  if offset + length src <=? length a
  then Some (take offset a ++ src ++ drop (offset + length src) a)
  else None.

End Uint8Array.

(** *** Arrays *)

(** [a.findIndex(p)]; [None] stands for the result [-1]. *)
Fixpoint findIndex {A} (p : A -> bool) (a : list A) : option nat :=
  match a with
  | [] => None
  | x :: r => if p x then Some 0 else option_map S (findIndex p r)
  end.

(** [a.splice(index, 1)]: the array without the element at [index]. *)
Definition splice1 {A} (index : nat) (a : list A) : list A :=
  take index a ++ drop (S index) a.

(** [Array.prototype.sort] with a comparator.  The language requires a stable
    sort; for a consistent comparator every stable sort returns the list
    computed here (insertion from the right, an element going before the
    first one it does not compare greater than). *)
Fixpoint insertSorted {A} (cmp : A -> A -> Z) (x : A) (l : list A) : list A :=
  match l with
  | [] => [x]
  | y :: r => if (cmp x y <=? 0)%Z then x :: l else y :: insertSorted cmp x r
  end.

Definition sort {A} (cmp : A -> A -> Z) (l : list A) : list A :=
  foldr (insertSorted cmp) [] l.

(** *** Plain objects used as dictionaries *)

(** Own string-keyed properties in insertion order. *)
Definition object (V : Type) := list (jsstring * V).

Definition eqString (a b : jsstring) : bool :=
  bool_decide (a = b).

Fixpoint getProp {V} (o : object V) (k : jsstring) : option V :=
  match o with
  | [] => None
  | (k', v) :: r => if eqString k' k then Some v else getProp r k
  end.

(** [o[k] = v]: an existing property keeps its place, a new one goes last. *)
Fixpoint setProp {V} (o : object V) (k : jsstring) (v : V) : object V :=
  match o with
  | [] => [(k, v)]
  | (k', v') :: r => if eqString k' k then (k', v) :: r else (k', v') :: setProp r k v
  end.

(** [Object.values(o)]. *)
Definition values {V} (o : object V) : list V := map snd o.

End JS.

Import JS.

(* ===================================================================== *)
(** ** Types ([types.ts], [parser_config.ts]) and the object store        *)
(* ===================================================================== *)

(** [CommentaryRecord]: one player record. *)
Module CommentaryRecord.
Record t := mk {
  commentaryName : jsstring;
  playerName : jsstring
}.
End CommentaryRecord.

(** [CommentaryUpsert]: the argument of the numeric-id mutation API.
    [commentaryId] is a number of JavaScript; the model holds the integral
    ones.  [NaN], the infinities and the fractions are not represented, and
    nothing is stated of a call with such an id. *)
Module CommentaryUpsert.
Record t := mk {
  commentaryId : Z;
  playerName : jsstring
}.
End CommentaryUpsert.

(** A location names an object of the store. *)
Definition loc := nat.

(** [CommentaryMetadata]: two typed arrays. *)
Record CommentaryMetadata := mkMetadata {
  first : loc;
  second : loc
}.

Module Config.

(** [PESConfig]. *)
Record PESConfig := mkConfig {
  COMMENTARY_PREFIX : jsstring;
  COMMENTARY_START_OFFSET : nat;
  COMMENTARY_NAME_LENGTH : nat;
  PLAYER_NAME_OFFSET : nat;
  PLAYER_NAME_LENGTH : nat;
  RECORD_SIZE : nat
}.

Definition PES2021Config : PESConfig :=
  {| COMMENTARY_PREFIX := lit "EN_A1_P0_R";
     COMMENTARY_START_OFFSET := 144;
     COMMENTARY_NAME_LENGTH := 16;
     PLAYER_NAME_OFFSET := 16;
     PLAYER_NAME_LENGTH := 64;
     RECORD_SIZE := 96 |}.

Definition PES2017Config : PESConfig :=
  {| COMMENTARY_PREFIX := lit "E_A1_P0_R";
     COMMENTARY_START_OFFSET := 144;
     COMMENTARY_NAME_LENGTH := 16;
     PLAYER_NAME_OFFSET := 0;
     PLAYER_NAME_LENGTH := 64;
     RECORD_SIZE := 80 |}.

End Config.
Import Config.

(** The store: the arrays of records and the typed arrays that exist, each
    at its location.  A new object takes the next free location.  An array
    holds its records by value.  In the sources an array holds references to
    record objects: the copy that [sortAndCountPlayers] makes shares the
    record objects of its argument, and [updatePlayer] assigns to a record
    object, so that a later update shows through such a copy.  This sharing is
    not modelled.  [push], [splice] and [sort] act on an array and on no
    record object, so what is stated of them holds with shared records too;
    of [updatePlayer], the statements below speak of [playerList] and of the
    typed arrays only. *)
Record Heap := mkHeap {
  recordArrays : list (list CommentaryRecord.t);
  byteArrays : list (list Z)
}.

(** What the sources throw.  The constructors are named after the taxonomy
    of the specification; the sources throw plain [Error]s that differ by
    their message. *)
Inductive Error :=
  | TooSmall        (* "File too small: ... bytes" *)
  | InvalidFile     (* "Invalid file. Make sure your file is correct" *)
  | InvalidName     (* "Player name cannot be empty" *)
  | InvalidId       (* "Commentary ID must be between 0 and 999999" *)
  | DuplicateKey    (* "Commentary for id ... already exists" *)
  | NotFound        (* "Player with commentary name ... not found" *)
  | RangeError      (* thrown by the platform: a typed-array write out of bounds *)
  | TypeError.      (* thrown by the platform: use of an object that is not there *)

Inductive Outcome (A : Type) :=
  | Return (a : A)
  | Throw (e : Error).
Arguments Return {A} a.
Arguments Throw {A} e.

(** A computation on the store.  A throw keeps the store as it is at that
    point: nothing is rolled back. *)
Definition M (A : Type) := Heap -> Outcome A * Heap.

Definition ret {A} (a : A) : M A := fun h => (Return a, h).

Definition throw {A} (e : Error) : M A := fun h => (Throw e, h).

Definition bind {A B} (c : M A) (k : A -> M B) : M B :=
  fun h =>
    match c h with
    | (Return a, h') => k a h'
    | (Throw e, h') => (Throw e, h')
    end.

Notation "'let*' x ':=' c 'in' k" := (bind c (fun x => k))
  (at level 10, x name, c at level 100, k at level 200).
Notation "'let*' ' pat ':=' c 'in' k" :=
  (bind c (fun x => match x with pat => k end))
  (at level 10, pat pattern, c at level 100, k at level 200).

(** A typed-array write whose [RangeError] propagates. *)
Definition orRangeError {A} (o : option A) : M A :=
  match o with
  | Some a => ret a
  | None => throw RangeError
  end.

(** The contents of the array of records at [l]. *)
Definition getRecords (l : loc) : M (list CommentaryRecord.t) :=
  fun h =>
    match recordArrays h !! l with
    | Some a => (Return a, h)
    | None => (Throw TypeError, h)
    end.

(** An in-place update of the array of records at [l]. *)
Definition putRecords (l : loc) (a : list CommentaryRecord.t) : M unit :=
  fun h =>
    if l <? length (recordArrays h)
    then (Return tt, mkHeap (<[l := a]> (recordArrays h)) (byteArrays h))
    else (Throw TypeError, h).

(** A new array of records. *)
Definition newRecords (a : list CommentaryRecord.t) : M loc :=
  fun h => (Return (length (recordArrays h)),
            mkHeap (recordArrays h ++ [a]) (byteArrays h)).

(** The contents of the typed array at [l]. *)
Definition getBytes (l : loc) : M (list Z) :=
  fun h =>
    match byteArrays h !! l with
    | Some a => (Return a, h)
    | None => (Throw TypeError, h)
    end.

(** A new typed array. *)
Definition newBytes (a : list Z) : M loc :=
  fun h => (Return (length (byteArrays h)),
            mkHeap (recordArrays h) (byteArrays h ++ [a])).

(* ===================================================================== *)
(** ** [utils.ts]                                                          *)
(* ===================================================================== *)

Module Utils.

(** [textDecoder.decode(buffer).replace(/\0.*$/, "").trim()]. *)
Definition cleanString (buffer : list Z) : jsstring :=
  trim (replaceNulTail (TextDecoder.decode buffer)).

(** [buffer[i] === v]; an index past the end reads [undefined]. *)
Definition elementIs (buffer : list Z) (i : nat) (v : Z) : bool :=
  match buffer !! i with
  | Some b => (b =? v)%Z
  | None => false
  end.

Definition isBinaryValid (buffer : list Z) : bool :=
  elementIs buffer 0 83 &&
  elementIs buffer 1 69 &&
  elementIs buffer 2 80 &&
  elementIs buffer 3 68 &&
  forallb (fun byte => (byte =? 0)%Z) (Uint8Array.slice buffer 24 36).

(** [view.setUint32(0, num, true)]: the number modulo 2^32, least
    significant byte first. *)
Definition decimalToBytes (num : Z) : list Z :=
  let u := (num mod 2 ^ 32)%Z in
  [Z.land u 0xFF;
   Z.land (Z.shiftr u 8) 0xFF;
   Z.land (Z.shiftr u 16) 0xFF;
   Z.land (Z.shiftr u 24) 0xFF].

(** The loop [for (let i = 0; i < 26; i++) counts[fromCharCode(65 + i)] = 0]. *)
Definition initialCounts : object nat :=
  fold_left (fun counts i => setProp counts (fromCharCode (65 + Z.of_nat i)) 0)
            (seq 0 26) [].

(** The body of [sorted.forEach] in [sortAndCountPlayers]. *)
Definition countPlayer (counts : object nat) (player : CommentaryRecord.t) : object nat :=
  let firstChar := toUpperCase (charAt0 (CommentaryRecord.playerName player)) in
  match getProp counts firstChar with
  | Some n => setProp counts firstChar (S n)
  | None => counts
  end.

Section Collation.

(** [a.localeCompare(b, "en", { sensitivity: "base" })]: the collation of
    the platform, of which nothing is assumed. *)
Variable localeCompare : jsstring -> jsstring -> Z.

Definition comparePlayers (a b : CommentaryRecord.t) : Z :=
  localeCompare (CommentaryRecord.playerName a) (CommentaryRecord.playerName b).

(** [sortAndCountPlayers(players)]: [[...players]] is a new array, which
    [sort] then orders in place; the result holds that array and the counts. *)
Definition sortAndCountPlayers (players : loc) : M (loc * object nat) :=
  let* elements := getRecords players in
  let* sorted := newRecords elements in
  let* _ := putRecords sorted (sort comparePlayers elements) in
  let* sortedElements := getRecords sorted in
  let counts := fold_left countPlayer sortedElements initialCounts in
  ret (sorted, counts).

End Collation.

(** [readString(buffer, offset, length)]. *)
Definition readString (buffer : list Z) (offset length : nat) : jsstring :=
  cleanString (Uint8Array.slice buffer offset (offset + length)).

(** Modelled from the spec: the body of [formatTo6String], of which the
    sources hold only the declaration.  The number is written in decimal,
    padded on the left with zeros to 6 characters, and the last 6 characters
    are kept ("6-digit zero-padded representation"; "an id with more than 6
    digits is truncated to its last 6 digits"). *)
Definition formatTo6String (num : Z) : jsstring :=
  sliceLast 6 (padStart0 6 (Number_toString num)).

End Utils.

(* ===================================================================== *)
(** ** The parser class                                                    *)
(* ===================================================================== *)

(** An instance of [PESCommentaryListParser]: three read-only fields, two of
    which refer to mutable objects. *)
Record PESCommentaryListParser := mkParser {
  pesConfig : PESConfig;
  metadata : CommentaryMetadata;
  playerList : loc
}.

(** *** The TypeScript class ([src/unnamed/part_000]) *)

Module Parser.

(** [createPlayer(commentaryId: string, playerName: string)]. *)
Definition createPlayer (this : PESCommentaryListParser)
    (commentaryId playerName : jsstring) : M unit :=
  let commentaryName := COMMENTARY_PREFIX (pesConfig this) ++ commentaryId in
  let* players := getRecords (playerList this) in
  putRecords (playerList this)
             (players ++ [CommentaryRecord.mk commentaryName playerName]).

(** [updatePlayer(commentaryName: string, playerName: string)]. *)
Definition updatePlayer (this : PESCommentaryListParser)
    (commentaryName playerName : jsstring) : M unit :=
  let* players := getRecords (playerList this) in
  match findIndex
          (fun player => eqString (CommentaryRecord.commentaryName player) commentaryName)
          players with
  | None => throw NotFound
  | Some index =>
      match players !! index with
      | Some player =>
          putRecords (playerList this)
            (<[index := CommentaryRecord.mk (CommentaryRecord.commentaryName player)
                                            playerName]> players)
      | None => ret tt
      end
  end.

(** [deletePlayer(commentaryName: string)]. *)
Definition deletePlayer (this : PESCommentaryListParser)
    (commentaryName : jsstring) : M unit :=
  let* players := getRecords (playerList this) in
  match findIndex
          (fun player => eqString (CommentaryRecord.commentaryName player) commentaryName)
          players with
  | None => throw NotFound
  | Some index => putRecords (playerList this) (splice1 index players)
  end.

(** The loop [Object.values(counts).forEach(...)] of [save], with its two
    variables [sum] and [alphabetPointer]. *)
Fixpoint writeAlphabetIndex (counts : list nat) (sum alphabetPointer : nat)
    (intBuffer : list Z) : option (list Z) :=
  match counts with
  | [] => Some intBuffer
  | count :: rest =>
      let sum := sum + count in
      match Uint8Array.set intBuffer (Utils.decimalToBytes (Z.of_nat sum)) alphabetPointer with
      | Some intBuffer => writeAlphabetIndex rest sum (alphabetPointer + 4) intBuffer
      | None => None
      end
  end.

(** The loop [sorted.forEach(...)] of [save], with its variable [pointer]. *)
Fixpoint writeRecords (pesConfig : PESConfig) (sorted : list CommentaryRecord.t)
    (pointer : nat) (intBuffer : list Z) : option (list Z) :=
  match sorted with
  | [] => Some intBuffer
  | value :: rest =>
      let commentaryName := TextEncoder.encode (CommentaryRecord.commentaryName value) in
      match Uint8Array.set intBuffer
              (take (COMMENTARY_NAME_LENGTH pesConfig) commentaryName) pointer with
      | None => None
      | Some intBuffer =>
          let playerName := TextEncoder.encode (CommentaryRecord.playerName value) in
          match Uint8Array.set intBuffer
                  (take (PLAYER_NAME_OFFSET pesConfig + PLAYER_NAME_LENGTH pesConfig)
                        playerName)
                  (pointer + COMMENTARY_NAME_LENGTH pesConfig) with
          | None => None
          | Some intBuffer =>
              writeRecords pesConfig rest (pointer + RECORD_SIZE pesConfig) intBuffer
          end
      end
  end.

Section Collation.

Variable localeCompare : jsstring -> jsstring -> Z.

(** [save()].  [intBuffer] is local to the call: it is threaded as a value,
    each [set] giving the next one. *)
Definition save (this : PESCommentaryListParser) : M (list Z) :=
  let cfg := pesConfig this in
  let* players := getRecords (playerList this) in
  let intBuffer :=
    Uint8Array.zeros (COMMENTARY_START_OFFSET cfg + length players * RECORD_SIZE cfg) in
  (* Write header *)
  let* first := getBytes (first (metadata this)) in
  let* intBuffer := orRangeError (Uint8Array.set intBuffer first 0) in
  let* intBuffer :=
    orRangeError (Uint8Array.set intBuffer
                    (Utils.decimalToBytes (Z.of_nat (length players))) 16) in
  let* second := getBytes (second (metadata this)) in
  let* intBuffer := orRangeError (Uint8Array.set intBuffer second 20) in
  (* Build alphabetical index (A-Z cumulative counts) *)
  let* '(sorted, counts) := Utils.sortAndCountPlayers localeCompare (playerList this) in
  let* intBuffer := orRangeError (writeAlphabetIndex (values counts) 0 36 intBuffer) in
  (* Write total counts *)
  let* players := getRecords (playerList this) in
  let* intBuffer :=
    orRangeError (Uint8Array.set intBuffer
                    (Utils.decimalToBytes (Z.of_nat (length players))) 136) in
  let* intBuffer :=
    orRangeError (Uint8Array.set intBuffer
                    (Utils.decimalToBytes (Z.of_nat (length players))) 140) in
  (* Write player records *)
  let* sortedElements := getRecords sorted in
  let* intBuffer :=
    orRangeError (writeRecords cfg sortedElements (COMMENTARY_START_OFFSET cfg) intBuffer) in
  ret intBuffer.

End Collation.

(** The static [readString(buffer, offset, length)]. *)
Definition readString (buffer : list Z) (offset length : nat) : jsstring :=
  let bytes := Uint8Array.slice buffer offset (offset + length) in
  Utils.cleanString bytes.

(** The [while] loop of [parse], with its variables [pointer] and [players].
    [fuel] bounds the number of tests of the loop condition; [None] is a run
    that has not left the loop within that bound. *)
Fixpoint readRecords (fuel : nat) (fileBuffer : list Z) (pesConfig : PESConfig)
    (pointer : nat) (players : list CommentaryRecord.t) : option (list CommentaryRecord.t) :=
  match fuel with
  | O => None
  | S fuel =>
      if pointer + RECORD_SIZE pesConfig <=? length fileBuffer then
        let commentaryName :=
          readString fileBuffer pointer (COMMENTARY_NAME_LENGTH pesConfig) in
        let playerName :=
          readString fileBuffer
            (pointer + PLAYER_NAME_OFFSET pesConfig + COMMENTARY_NAME_LENGTH pesConfig)
            (PLAYER_NAME_LENGTH pesConfig) in
        readRecords fuel fileBuffer pesConfig (pointer + RECORD_SIZE pesConfig)
                    (players ++ [CommentaryRecord.mk commentaryName playerName])
      else Some players
  end.

(** [parse(file, pesConfig)]; [fileBuffer] holds the bytes that
    [file.arrayBuffer()] resolves to.  The result is [None] when the loop has
    not ended within [fuel]. *)
Definition parse (fuel : nat) (fileBuffer : list Z) (pesConfig : PESConfig)
    : Heap -> option (Outcome PESCommentaryListParser * Heap) :=
  fun h =>
    if length fileBuffer <? COMMENTARY_START_OFFSET pesConfig then
      Some (Throw TooSmall, h)
    else if negb (Utils.isBinaryValid fileBuffer) then
      Some (Throw InvalidFile, h)
    else
      match readRecords fuel fileBuffer pesConfig (COMMENTARY_START_OFFSET pesConfig) [] with
      | None => None
      | Some players =>
          Some ((let* first := newBytes (Uint8Array.slice fileBuffer 0 16) in
                 let* second := newBytes (Uint8Array.slice fileBuffer 20 36) in
                 let* players := newRecords players in
                 ret (mkParser pesConfig (mkMetadata first second) players)) h)
      end.

End Parser.

(** *** The compiled class ([src/unnamed/part_001]) *)

Module ParserDist.

(** [buildCommentaryName(commentaryId)]. *)
Definition buildCommentaryName (this : PESCommentaryListParser) (commentaryId : Z)
    : jsstring :=
  COMMENTARY_PREFIX (pesConfig this) ++ Utils.formatTo6String commentaryId.

(** [createPlayer(data)]. *)
Definition createPlayer (this : PESCommentaryListParser) (data : CommentaryUpsert.t)
    : M unit :=
  match trim (CommentaryUpsert.playerName data) with
  | [] => throw InvalidName
  | _ :: _ =>
      if ((CommentaryUpsert.commentaryId data <? 0)
          || (999999 <? CommentaryUpsert.commentaryId data))%Z
      then throw InvalidId
      else
        let commentaryName := buildCommentaryName this (CommentaryUpsert.commentaryId data) in
        let* players := getRecords (playerList this) in
        match findIndex
                (fun player => eqString (CommentaryRecord.commentaryName player) commentaryName)
                players with
        | Some _ => throw DuplicateKey
        | None =>
            putRecords (playerList this)
              (players ++ [CommentaryRecord.mk commentaryName
                                               (CommentaryUpsert.playerName data)])
        end
  end.

(** [updatePlayer(data)]. *)
Definition updatePlayer (this : PESCommentaryListParser) (data : CommentaryUpsert.t)
    : M unit :=
  let commentaryName := buildCommentaryName this (CommentaryUpsert.commentaryId data) in
  let* players := getRecords (playerList this) in
  match findIndex
          (fun player => eqString (CommentaryRecord.commentaryName player) commentaryName)
          players with
  | None => throw NotFound
  | Some index =>
      match players !! index with
      | Some player =>
          putRecords (playerList this)
            (<[index := CommentaryRecord.mk (CommentaryRecord.commentaryName player)
                                            (CommentaryUpsert.playerName data)]> players)
      | None => ret tt
      end
  end.

(** [deletePlayer(commentaryId)]. *)
Definition deletePlayer (this : PESCommentaryListParser) (commentaryId : Z) : M unit :=
  let commentaryName := buildCommentaryName this commentaryId in
  let* players := getRecords (playerList this) in
  match findIndex
          (fun player => eqString (CommentaryRecord.commentaryName player) commentaryName)
          players with
  | None => throw NotFound
  | Some index => putRecords (playerList this) (splice1 index players)
  end.

(** [save()] and [parse(file, pesConfig)] have, statement for statement, the
    bodies of the TypeScript class; [readString] is the function that
    [utils.d.ts] declares, with the body of the static method. *)
Definition save := Parser.save.
Definition parse := Parser.parse.

End ParserDist.

(* ===================================================================== *)
(** ** Vocabulary of the statements                                        *)
(* ===================================================================== *)

(** [view.getUint32(offset, true)]: four bytes read as a little-endian
    unsigned integer. *)
Definition readUint32LE (buffer : list Z) (offset : nat) : Z :=
  match Uint8Array.slice buffer offset (offset + 4) with
  | [b0; b1; b2; b3] => (b0 + 256 * b1 + 65536 * b2 + 16777216 * b3)%Z
  | _ => 0%Z
  end.

(** The contents of a store after the array of records at [l] has been
    given the contents [a]. *)
Definition withRecords (h : Heap) (l : loc) (a : list CommentaryRecord.t) : Heap :=
  mkHeap (<[l := a]> (recordArrays h)) (byteArrays h).

(** The keys of a collection, in order. *)
Definition keysOf (players : list CommentaryRecord.t) : list jsstring :=
  map CommentaryRecord.commentaryName players.

(** The first character of the display name, upper-cased, is the [i]-th
    capital letter. *)
Definition startsWithLetter (i : nat) (player : CommentaryRecord.t) : bool :=
  eqString (toUpperCase (charAt0 (CommentaryRecord.playerName player)))
           (fromCharCode (65 + Z.of_nat i)).

(** The number of records filed under the [i]-th letter. *)
Definition letterCount (players : list CommentaryRecord.t) (i : nat) : nat :=
  length (List.filter (startsWithLetter i) players).

(** The running sum of the letter counts from [A] up to the [i]-th letter. *)
Definition cumulativeCount (players : list CommentaryRecord.t) (i : nat) : nat :=
  sum_list (map (letterCount players) (seq 0 (S i))).

(** The first character of the display name, upper-cased, is one of the 26
    capital letters. *)
Definition startsWithCapital (player : CommentaryRecord.t) : bool :=
  existsb (fun i => startsWithLetter i player) (seq 0 26).

(** The six decimal digits of a number below one million, most significant
    first. *)
Definition sixDigits (n : Z) : jsstring :=
  map (fun k => (0x30 + (n / 10 ^ k) mod 10)%Z) [5; 4; 3; 2; 1; 0]%Z.

(** A text cut before its first NUL. *)
Fixpoint untilNul (s : jsstring) : jsstring :=
  match s with
  | [] => []
  | c :: r => if (c =? 0)%Z then [] else c :: untilNul r
  end.

(** The decode rule in the words of the specification: decode as UTF-8,
    discard everything from the first NUL on, trim. *)
Definition cleanStringSpec (buffer : list Z) : jsstring :=
  trim (untilNul (TextDecoder.decode buffer)).

(** The header checks in the words of the specification: the magic "SEPD" in
    bytes [0, 4) and only zeros in bytes [24, 36). *)
Definition headerOk (buffer : list Z) : Prop :=
  take 4 buffer = lit "SEPD" /\
  forall i b, 24 <= i < 36 -> buffer !! i = Some b -> b = 0%Z.

(** The record read from the stride of a file that starts at [offset]. *)
Definition recordAtOffset (pesConfig : PESConfig) (fileBuffer : list Z) (offset : nat)
    : CommentaryRecord.t :=
  CommentaryRecord.mk
    (Utils.readString fileBuffer offset (COMMENTARY_NAME_LENGTH pesConfig))
    (Utils.readString fileBuffer
       (offset + PLAYER_NAME_OFFSET pesConfig + COMMENTARY_NAME_LENGTH pesConfig)
       (PLAYER_NAME_LENGTH pesConfig)).

(** The record read from the [i]-th stride of a file. *)
Definition recordAt (pesConfig : PESConfig) (fileBuffer : list Z) (i : nat)
    : CommentaryRecord.t :=
  recordAtOffset pesConfig fileBuffer
    (COMMENTARY_START_OFFSET pesConfig + i * RECORD_SIZE pesConfig).

(** A string without lone surrogates ([String.prototype.isWellFormed]). *)
Fixpoint isWellFormed (s : jsstring) : bool :=
  match s with
  | [] => true
  | c :: r =>
      if TextEncoder.isLeadSurrogate c then
        match r with
        | d :: r' => TextEncoder.isTrailSurrogate d && isWellFormed r'
        | [] => false
        end
      else negb (TextEncoder.isTrailSurrogate c) && isWellFormed r
  end.

(** A Unicode scalar value: a code point that is not a surrogate. *)
Definition isScalar (cp : Z) : bool :=
  ((0 <=? cp) && (cp <=? 0x10FFFF) && negb ((0xD800 <=? cp) && (cp <=? 0xDFFF)))%Z.

(** A string that a field of [width] bytes holds and gives back: UTF-16 code
    units without lone surrogates and without NUL, no white space at either
    end, and at most [width] bytes of UTF-8. *)
Definition fitsField (width : nat) (s : jsstring) : bool :=
  forallb (fun c => (0 <? c) && (c <=? 0xFFFF))%Z s &&
  isWellFormed s &&
  eqString (trim s) s &&
  (length (TextEncoder.encode s) <=? width).

(** A record whose key and display name fit their fields. *)
Definition recordFits (pesConfig : PESConfig) (player : CommentaryRecord.t) : bool :=
  fitsField (COMMENTARY_NAME_LENGTH pesConfig) (CommentaryRecord.commentaryName player) &&
  fitsField (PLAYER_NAME_LENGTH pesConfig) (CommentaryRecord.playerName player).

(** A header that the decoder accepts: 16 bytes that start with "SEPD", and
    16 bytes of which the last 12 are zero. *)
Definition acceptedMetadata (firstBytes secondBytes : list Z) : Prop :=
  length firstBytes = 16 /\ take 4 firstBytes = lit "SEPD" /\
  length secondBytes = 16 /\ drop 4 secondBytes = replicate 12 0%Z.

(** A layout whose records do not overlap the header nor one another. *)
Definition layoutOk (pesConfig : PESConfig) : Prop :=
  144 <= COMMENTARY_START_OFFSET pesConfig /\
  COMMENTARY_NAME_LENGTH pesConfig + PLAYER_NAME_OFFSET pesConfig
    + PLAYER_NAME_LENGTH pesConfig <= RECORD_SIZE pesConfig.

(** [h'] is [h] with new arrays of records and nothing else changed. *)
Definition extends (h h' : Heap) : Prop :=
  byteArrays h' = byteArrays h /\
  exists extra, recordArrays h' = recordArrays h ++ extra.

(** The successive values of [sum] in the index loop of [save]. *)
Fixpoint runningSums (sum : nat) (counts : list nat) : list nat :=
  match counts with
  | [] => []
  | count :: rest => (sum + count) :: runningSums (sum + count) rest
  end.

(** Bytes at the left of a zero-filled field of [width] bytes. *)
Definition padded (width : nat) (bytes : list Z) : list Z :=
  bytes ++ Uint8Array.zeros (width - length bytes).

(** One record of a file: the key field, then the rest of the stride, which
    holds the bytes of the display name from its start. *)
Definition encodedRecord (pesConfig : PESConfig) (player : CommentaryRecord.t) : list Z :=
  padded (COMMENTARY_NAME_LENGTH pesConfig)
         (take (COMMENTARY_NAME_LENGTH pesConfig)
               (TextEncoder.encode (CommentaryRecord.commentaryName player)))
  ++ padded (RECORD_SIZE pesConfig - COMMENTARY_NAME_LENGTH pesConfig)
            (take (PLAYER_NAME_OFFSET pesConfig + PLAYER_NAME_LENGTH pesConfig)
                  (TextEncoder.encode (CommentaryRecord.playerName player))).

(** The whole file: header, record count, second header, the cumulative
    counts of [A]..[Y], the record count twice, zeros up to the start offset,
    and the records in sorted order. *)
Definition encodedFile (localeCompare : jsstring -> jsstring -> Z) (pesConfig : PESConfig)
    (firstBytes secondBytes : list Z) (players : list CommentaryRecord.t) : list Z :=
  let total := Utils.decimalToBytes (Z.of_nat (length players)) in
  firstBytes ++ total ++ secondBytes
  ++ concat (map (fun i => Utils.decimalToBytes (Z.of_nat (cumulativeCount players i)))
                 (seq 0 25))
  ++ total ++ total
  ++ Uint8Array.zeros (COMMENTARY_START_OFFSET pesConfig - 144)
  ++ concat (map (encodedRecord pesConfig)
                 (sort (Utils.comparePlayers localeCompare) players)).

(** A computation that only adds arrays of records to the store. *)
Definition allocatesOnly {A} (c : M A) : Prop := forall h, extends h (snd (c h)).

(** What the counting loop does to one property of the counts, for a player
    whose upper-cased first character is [firstChar]. *)
Definition bump (firstChar : jsstring) (entry : jsstring * nat) : jsstring * nat :=
  (fst entry, if eqString firstChar (fst entry) then S (snd entry) else snd entry).

(** A computation that writes to the array of records at [l] and to no
    other array: the typed arrays and the other arrays of records stay as
    they are, and no array is created. *)
Definition writesOnly {A} (l : loc) (c : M A) : Prop :=
  forall h,
    byteArrays (snd (c h)) = byteArrays h /\
    length (recordArrays (snd (c h))) = length (recordArrays h) /\
    forall l', l' <> l -> recordArrays (snd (c h)) !! l' = recordArrays h !! l'.


(** After the computation [c], the collection of the parser has no two
    records with the same key. *)
Definition keysUniqueAfter (this : PESCommentaryListParser) (c : M unit) (h : Heap) : Prop :=
  exists players',
    recordArrays (snd (c h)) !! playerList this = Some players' /\
    List.NoDup (keysOf players').

(** A text of ASCII characters other than NUL. *)
Definition plainAscii (s : jsstring) : bool :=
  forallb (fun c => (0 <? c) && (c <? 128))%Z s.

(** A record whose key and display name are such texts. *)
Definition recordAscii (player : CommentaryRecord.t) : bool :=
  plainAscii (CommentaryRecord.commentaryName player) &&
  plainAscii (CommentaryRecord.playerName player).

(* ===================================================================== *)
(** ** Values to run the code on                                           *)
(* ===================================================================== *)

(** A collation to run [save] with: upper-cased code units compared from the
    left.  It stands in for the collation of the platform in the examples
    only. *)
Fixpoint unitCompare (a b : jsstring) : Z :=
  match a, b with
  | [], [] => 0%Z
  | [], _ :: _ => (-1)%Z
  | _ :: _, [] => 1%Z
  | x :: a', y :: b' =>
      if (upperUnit x =? upperUnit y)%Z then unitCompare a' b'
      else (upperUnit x - upperUnit y)%Z
  end.

Definition ana : CommentaryRecord.t :=
  CommentaryRecord.mk (lit "EN_A1_P0_R000001") (lit "Ana").

Definition bob : CommentaryRecord.t :=
  CommentaryRecord.mk (lit "EN_A1_P0_R000002") (lit "Bob").

(** A store with one collection, [Bob] before [Ana], and the two typed
    arrays of a header. *)
Definition exampleHeap : Heap :=
  mkHeap [[bob; ana]]
         [lit "SEPD" ++ replicate 12 7%Z; replicate 16 0%Z].

Definition parser2021 : PESCommentaryListParser :=
  mkParser PES2021Config (mkMetadata 0 1) 0.

Definition parser2017 : PESCommentaryListParser :=
  mkParser PES2017Config (mkMetadata 0 1) 0.

(* ===================================================================== *)
(** ** Running computations on the store                                   *)
(* ===================================================================== *)

Lemma getRecords_run (h : Heap) (l : loc) (a : list CommentaryRecord.t) :
  recordArrays h !! l = Some a -> getRecords l h = (Return a, h).
Proof. intros E. unfold getRecords. now rewrite E. Qed.

Lemma putRecords_run (h : Heap) (l : loc) (old a : list CommentaryRecord.t) :
  recordArrays h !! l = Some old -> putRecords l a h = (Return tt, withRecords h l a).
Proof.
  intros E. unfold putRecords.
  apply lookup_lt_Some in E. apply Nat.ltb_lt in E. now rewrite E.
Qed.

Lemma getBytes_run (h : Heap) (l : loc) (a : list Z) :
  byteArrays h !! l = Some a -> getBytes l h = (Return a, h).
Proof. intros E. unfold getBytes. now rewrite E. Qed.

Lemma eqString_true (a b : jsstring) : eqString a b = true <-> a = b.
Proof. unfold eqString. apply bool_decide_eq_true. Qed.

Lemma eqString_false (a b : jsstring) : eqString a b = false <-> a <> b.
Proof. unfold eqString. apply bool_decide_eq_false. Qed.

(** *** [findIndex] *)

Lemma findIndex_None {A} (p : A -> bool) (a : list A) :
  findIndex p a = None <-> (forall x, In x a -> p x = false).
Proof.
  induction a as [|x r IH]; simpl.
  - split; [intros _ x []|reflexivity].
  - destruct (p x) eqn:Px.
    + split; [discriminate|]. intros H. specialize (H x (or_introl eq_refl)). congruence.
    + destruct (findIndex p r) eqn:F; simpl.
      * split; [discriminate|]. intros H.
        assert (Some n = None) by (apply IH; intros y Hy; apply H; now right).
        discriminate.
      * split; [|reflexivity]. intros _ y [<-|Hy]; [assumption|].
        now apply (proj1 IH).
Qed.

Lemma findIndex_Some {A} (p : A -> bool) (a : list A) (i : nat) :
  findIndex p a = Some i ->
  exists x, a !! i = Some x /\ p x = true /\
            forall j y, j < i -> a !! j = Some y -> p y = false.
Proof.
  revert i. induction a as [|x r IH]; simpl; intros i; [discriminate|].
  destruct (p x) eqn:Px.
  - intros [= <-]. exists x. repeat split; [assumption|]. intros j y Hj. lia.
  - destruct (findIndex p r) as [k|] eqn:F; simpl; [|discriminate].
    intros [= <-]. destruct (IH k eq_refl) as (y & Hy & Py & Hlt).
    exists y. repeat split; [assumption..|].
    intros [|j] z Hj; simpl.
    + intros [= <-]. assumption.
    + apply Hlt. lia.
Qed.

Lemma findIndex_key_None (players : list CommentaryRecord.t) (key : jsstring) :
  findIndex (fun player => eqString (CommentaryRecord.commentaryName player) key) players = None
  <-> ~ In key (keysOf players).
Proof.
  rewrite findIndex_None. unfold keysOf. rewrite in_map_iff. split.
  - intros H (x & Ex & Hx). specialize (H x Hx). apply eqString_false in H. congruence.
  - intros H x Hx. apply eqString_false. intros E. apply H. now exists x.
Qed.

Lemma findIndex_key_Some (players : list CommentaryRecord.t) (key : jsstring) :
  In key (keysOf players) ->
  exists i player,
    findIndex (fun player => eqString (CommentaryRecord.commentaryName player) key) players
      = Some i /\
    players !! i = Some player /\ CommentaryRecord.commentaryName player = key /\
    forall j other, j < i -> players !! j = Some other ->
                    CommentaryRecord.commentaryName other <> key.
Proof.
  intros Hin.
  destruct (findIndex (fun player => eqString (CommentaryRecord.commentaryName player) key)
                      players) as [i|] eqn:F.
  - destruct (findIndex_Some _ _ _ F) as (x & Hx & Px & Hlt).
    exists i, x. repeat split; [assumption|now apply eqString_true|].
    intros j other Hj Ho. apply eqString_false. now apply (Hlt j).
  - apply findIndex_key_None in F. contradiction.
Qed.

(* ===================================================================== *)
(** ** The mutation API                                                    *)
(* ===================================================================== *)

(** The string-keyed update on a key that is present. *)
Lemma Parser_updatePlayer_present (this : PESCommentaryListParser) (h : Heap)
    (players : list CommentaryRecord.t) (key name : jsstring) :
  recordArrays h !! playerList this = Some players ->
  In key (keysOf players) ->
  exists i player,
    players !! i = Some player /\
    CommentaryRecord.commentaryName player = key /\
    (forall j other, j < i -> players !! j = Some other ->
                     CommentaryRecord.commentaryName other <> key) /\
    Parser.updatePlayer this key name h =
      (Return tt,
       withRecords h (playerList this) (<[i := CommentaryRecord.mk key name]> players)).
Proof.
  intros Hl Hin.
  destruct (findIndex_key_Some players key Hin) as (i & player & F & Hi & Hk & Hlt).
  exists i, player. repeat split; [assumption..|].
  unfold Parser.updatePlayer, bind. rewrite (getRecords_run _ _ _ Hl), F, Hi, Hk.
  now apply putRecords_run with (old := players).
Qed.

(** The string-keyed update and removal on a key that is absent. *)
Lemma Parser_updatePlayer_absent (this : PESCommentaryListParser) (h : Heap)
    (players : list CommentaryRecord.t) (key name : jsstring) :
  recordArrays h !! playerList this = Some players ->
  ~ In key (keysOf players) ->
  Parser.updatePlayer this key name h = (Throw NotFound, h).
Proof.
  intros Hl Hin. apply findIndex_key_None in Hin.
  unfold Parser.updatePlayer, bind. now rewrite (getRecords_run _ _ _ Hl), Hin.
Qed.

Lemma Parser_deletePlayer_absent (this : PESCommentaryListParser) (h : Heap)
    (players : list CommentaryRecord.t) (key : jsstring) :
  recordArrays h !! playerList this = Some players ->
  ~ In key (keysOf players) ->
  Parser.deletePlayer this key h = (Throw NotFound, h).
Proof.
  intros Hl Hin. apply findIndex_key_None in Hin.
  unfold Parser.deletePlayer, bind. now rewrite (getRecords_run _ _ _ Hl), Hin.
Qed.

(** The numeric-id operations of the compiled class are the string-keyed
    ones of the TypeScript class at the key that [buildCommentaryName]
    builds. *)
Lemma ParserDist_updatePlayer_by_key (this : PESCommentaryListParser)
    (data : CommentaryUpsert.t) :
  ParserDist.updatePlayer this data =
  Parser.updatePlayer this
    (ParserDist.buildCommentaryName this (CommentaryUpsert.commentaryId data))
    (CommentaryUpsert.playerName data).
Proof. reflexivity. Qed.

Lemma ParserDist_deletePlayer_by_key (this : PESCommentaryListParser) (id : Z) :
  ParserDist.deletePlayer this id =
  Parser.deletePlayer this (ParserDist.buildCommentaryName this id).
Proof. reflexivity. Qed.

(** C7. [updatePlayer] and [deletePlayer], in both versions of the parser,
    throw the not-found error when no record has the key, and leave the store
    as it was: the collection holds the same records in the same order. *)
Theorem update_delete_absent_key_not_found
    (this : PESCommentaryListParser) (h : Heap) (players : list CommentaryRecord.t)
    (key name : jsstring) (id : Z)
    (Hplayers : recordArrays h !! playerList this = Some players)
    (Hkey : ~ In key (keysOf players))
    (Hid : ~ In (ParserDist.buildCommentaryName this id) (keysOf players)) :
  Parser.updatePlayer this key name h = (Throw NotFound, h) /\
  Parser.deletePlayer this key h = (Throw NotFound, h) /\
  ParserDist.updatePlayer this (CommentaryUpsert.mk id name) h = (Throw NotFound, h) /\
  ParserDist.deletePlayer this id h = (Throw NotFound, h).
Proof.
  rewrite ParserDist_updatePlayer_by_key, ParserDist_deletePlayer_by_key. simpl.
  repeat split.
  - now apply Parser_updatePlayer_absent with (players := players).
  - now apply Parser_deletePlayer_absent with (players := players).
  - now apply Parser_updatePlayer_absent with (players := players).
  - now apply Parser_deletePlayer_absent with (players := players).
Qed.

(** C10. [updatePlayer] does not look at the new display name.  Whenever a
    record has the key, the update returns, whatever the string, and the first
    such record holds that very string afterwards; an error is thrown exactly
    when no record has the key.  The numeric-id version is the same operation
    at the key built from the id. *)
Theorem updatePlayer_stores_any_name
    (this : PESCommentaryListParser) (h : Heap) (players : list CommentaryRecord.t)
    (key name : jsstring) (id : Z)
    (Hplayers : recordArrays h !! playerList this = Some players) :
  (In key (keysOf players) ->
   exists i player,
     players !! i = Some player /\
     CommentaryRecord.commentaryName player = key /\
     (forall j other, j < i -> players !! j = Some other ->
                      CommentaryRecord.commentaryName other <> key) /\
     Parser.updatePlayer this key name h =
       (Return tt,
        withRecords h (playerList this) (<[i := CommentaryRecord.mk key name]> players))) /\
  ((exists e, fst (Parser.updatePlayer this key name h) = Throw e)
   <-> ~ In key (keysOf players)) /\
  ParserDist.updatePlayer this (CommentaryUpsert.mk id name) =
    Parser.updatePlayer this (ParserDist.buildCommentaryName this id) name.
Proof.
  split; [|split].
  - intros Hin. now apply Parser_updatePlayer_present.
  - split.
    + intros [e He] Hin.
      destruct (Parser_updatePlayer_present this h players key name Hplayers Hin)
        as (i & player & _ & _ & _ & E).
      rewrite E in He. discriminate.
    + intros Hin. exists NotFound.
      now rewrite (Parser_updatePlayer_absent this h players key name Hplayers Hin).
  - apply ParserDist_updatePlayer_by_key.
Qed.

(* ===================================================================== *)
(** ** Decimal digits                                                      *)
(* ===================================================================== *)

Lemma digitsLE_nth (fuel : nat) (n : Z) (k : nat) :
  (0 <= n < 2 ^ Z.of_nat fuel)%Z ->
  nth k (digitsLE fuel n) 0%Z = ((n / 10 ^ Z.of_nat k) mod 10)%Z.
Proof.
  revert n k. induction fuel as [|f IH]; intros n k Hn.
  - assert (n = 0%Z) by (simpl in Hn; lia). subst n.
    rewrite Z.div_0_l by (apply Z.pow_nonzero; lia). now destruct k.
  - simpl digitsLE. destruct k as [|k].
    + simpl. now rewrite Z.div_1_r.
    + replace (10 ^ Z.of_nat (S k))%Z with (10 * 10 ^ Z.of_nat k)%Z
        by (rewrite Nat2Z.inj_succ, Z.pow_succ_r; lia).
      rewrite <- Z.div_div by (try apply Z.pow_pos_nonneg; lia).
      simpl nth. destruct (n / 10 =? 0)%Z eqn:E.
      * apply Z.eqb_eq in E. rewrite E.
        rewrite Z.div_0_l by (apply Z.pow_nonzero; lia). now destruct k.
      * apply IH. rewrite Nat2Z.inj_succ, Z.pow_succ_r in Hn by lia.
        split; [apply Z.div_pos; lia|].
        apply Z.div_lt_upper_bound; lia.
Qed.

Lemma digitsLE_length_pos (fuel : nat) (n : Z) : 0 < length (digitsLE (S fuel) n).
Proof. simpl. lia. Qed.

Lemma toStringNonneg_digits (n : Z) (k : nat) :
  (0 <= n)%Z ->
  nth k (digitsLE (S (Z.to_nat (Z.log2 n))) n) 0%Z = ((n / 10 ^ Z.of_nat k) mod 10)%Z.
Proof.
  intros Hn. apply digitsLE_nth. split; [assumption|].
  rewrite Nat2Z.inj_succ, Z2Nat.id by apply Z.log2_nonneg.
  destruct (Z.eq_dec n 0%Z) as [->|Hz]; [reflexivity|].
  apply Z.log2_spec. lia.
Qed.

Lemma six_of_nth (l : list Z) :
  length l = 6 ->
  l = [nth 0 l 0%Z; nth 1 l 0%Z; nth 2 l 0%Z; nth 3 l 0%Z; nth 4 l 0%Z; nth 5 l 0%Z].
Proof.
  intros H. do 7 (destruct l as [|? l]; try discriminate H). reflexivity.
Qed.

Lemma nth_app_zeros (l : list Z) (m k : nat) :
  nth k (l ++ repeat 0%Z m) 0%Z = nth k l 0%Z.
Proof.
  destruct (Nat.lt_ge_cases k (length l)) as [Hk|Hk].
  - now apply app_nth1.
  - rewrite app_nth2 by assumption. rewrite (nth_overflow l) by assumption.
    apply nth_repeat.
Qed.

Lemma low_digit (n p : Z) :
  In p [1; 10; 100; 1000; 10000; 100000]%Z ->
  (((n mod 1000000) / p) mod 10 = (n / p) mod 10)%Z.
Proof.
  simpl. intros H.
  repeat (destruct H as [<-|H]; [Z.to_euclidean_division_equations; lia|]).
  contradiction.
Qed.

(** The six characters of [formatTo6String] are the six low decimal digits. *)
Lemma formatTo6String_nonneg (n : Z) :
  (0 <= n)%Z -> Utils.formatTo6String n = sixDigits (n mod 1000000).
Proof.
  intros Hn. unfold Utils.formatTo6String, Number_toString.
  assert ((n <? 0)%Z = false) as -> by (apply Z.ltb_ge; assumption).
  unfold toStringNonneg, padStart0, sliceLast.
  set (D := digitsLE (S (Z.to_nat (Z.log2 n))) n).
  set (X := D ++ repeat 0%Z (6 - length D)).
  assert (EX : repeat 48%Z (6 - length (map (fun d => (0x30 + d)%Z) (rev D)))
               ++ map (fun d => (0x30 + d)%Z) (rev D)
               = map (fun d => (0x30 + d)%Z) (rev X)).
  { unfold X. rewrite rev_app_distr, map_app, length_map, length_rev.
    f_equal. rewrite rev_repeat, map_repeat. reflexivity. }
  rewrite EX. rewrite length_map, length_rev.
  assert (LX : 6 <= length X).
  { unfold X. rewrite length_app, repeat_length. lia. }
  rewrite skipn_map.
  replace (drop (length X - 6) (rev X)) with (rev (take 6 X)).
  2:{ rewrite skipn_rev. f_equal. f_equal. lia. }
  assert (L6 : length (take 6 X) = 6) by (rewrite length_take; lia).
  rewrite (six_of_nth _ L6).
  assert (N : forall k, k < 6 -> nth k (take 6 X) 0%Z = ((n / 10 ^ Z.of_nat k) mod 10)%Z).
  { intros k Hk. rewrite nth_firstn. apply Nat.ltb_lt in Hk. rewrite Hk.
    unfold X. rewrite nth_app_zeros. now apply toStringNonneg_digits. }
  rewrite !N by lia. unfold sixDigits. simpl rev. simpl map.
  change (Z.of_nat 0) with 0%Z. change (Z.of_nat 1) with 1%Z.
  change (Z.of_nat 2) with 2%Z. change (Z.of_nat 3) with 3%Z.
  change (Z.of_nat 4) with 4%Z. change (Z.of_nat 5) with 5%Z.
  change (10 ^ 0)%Z with 1%Z. change (10 ^ 1)%Z with 10%Z.
  change (10 ^ 2)%Z with 100%Z. change (10 ^ 3)%Z with 1000%Z.
  change (10 ^ 4)%Z with 10000%Z. change (10 ^ 5)%Z with 100000%Z.
  rewrite !low_digit by (simpl; tauto). reflexivity.
Qed.

(** C8. For a numeric id that is not negative, [formatTo6String] gives the six
    decimal digits of the id modulo one million, so that an id of more than
    six digits keeps its last six; [updatePlayer] and [deletePlayer] of the
    numeric-id parser are the look-up by key at the prefix followed by these
    six digits. *)
Theorem numeric_id_normalized_to_six_digits
    (this : PESCommentaryListParser) (id : Z) (name : jsstring)
    (Hid : (0 <= id)%Z) :
  let key := COMMENTARY_PREFIX (pesConfig this) ++ sixDigits (id mod 1000000) in
  Utils.formatTo6String id = sixDigits (id mod 1000000) /\
  ParserDist.buildCommentaryName this id = key /\
  ParserDist.updatePlayer this (CommentaryUpsert.mk id name) =
    Parser.updatePlayer this key name /\
  ParserDist.deletePlayer this id = Parser.deletePlayer this key.
Proof.
  intros key.
  assert (K : ParserDist.buildCommentaryName this id = key).
  { unfold ParserDist.buildCommentaryName, key. now rewrite formatTo6String_nonneg. }
  repeat split.
  - now apply formatTo6String_nonneg.
  - exact K.
  - rewrite ParserDist_updatePlayer_by_key. simpl. now rewrite K.
  - rewrite ParserDist_deletePlayer_by_key. now rewrite K.
Qed.

(* ===================================================================== *)
(** ** [trim]                                                              *)
(* ===================================================================== *)

Lemma trimStart_nil_iff (s : jsstring) :
  trimStart s = [] <-> forallb isWhiteSpace s = true.
Proof.
  induction s as [|c r IH]; simpl; [tauto|].
  destruct (isWhiteSpace c); simpl; [exact IH|]. split; discriminate.
Qed.

Lemma trimStart_head (s : jsstring) (c : Z) (r : jsstring) :
  trimStart s = c :: r -> isWhiteSpace c = false.
Proof.
  induction s as [|d t IH]; simpl; [discriminate|].
  destruct (isWhiteSpace d) eqn:E; [exact IH|]. now intros [= <- _].
Qed.

Lemma trimStart_idem (s : jsstring) : trimStart (trimStart s) = trimStart s.
Proof.
  destruct (trimStart s) as [|c r] eqn:E; [reflexivity|].
  simpl. now rewrite (trimStart_head _ _ _ E).
Qed.

Lemma forallb_rev {A} (p : A -> bool) (l : list A) : forallb p (rev l) = forallb p l.
Proof.
  induction l as [|x r IH]; [reflexivity|].
  simpl. rewrite forallb_app, IH. simpl. rewrite andb_true_r. apply andb_comm.
Qed.

(** A name is rejected by [trim] exactly when it is empty or made of white
    space only. *)
Lemma trim_nil_iff (s : jsstring) : trim s = [] <-> forallb isWhiteSpace s = true.
Proof.
  unfold trim, trimEnd. rewrite <- trimStart_nil_iff.
  split.
  - intros H. apply (f_equal (@rev Z)) in H. rewrite rev_involutive in H. simpl in H.
    apply trimStart_nil_iff in H. rewrite forallb_rev in H.
    apply trimStart_nil_iff in H. now rewrite trimStart_idem in H.
  - intros ->. reflexivity.
Qed.

(** C3. [createPlayer] of the compiled class, called with an integral id: a
    name that is empty or all white space is refused with the invalid-name
    error; otherwise an id below 0 or above 999999 is refused with the
    invalid-id error; otherwise an id whose key some record already has is
    refused with the duplicate-key error; otherwise one record is appended,
    whose key is the prefix of the layout followed by the six digits of the
    id.  A refused call leaves the store as it was.  [createPlayer] of the
    TypeScript class, which takes the id as a string, refuses nothing: it
    appends one record, whose key is the prefix followed by the string as
    given.  Id 57123 on the 2021 layout gives the key EN_A1_P0_R057123 in the
    compiled class. *)
Theorem createPlayer_validates_then_appends
    (this : PESCommentaryListParser) (h : Heap) (players : list CommentaryRecord.t)
    (data : CommentaryUpsert.t) (commentaryId : jsstring)
    (Hplayers : recordArrays h !! playerList this = Some players) :
  let id := CommentaryUpsert.commentaryId data in
  let name := CommentaryUpsert.playerName data in
  let key := COMMENTARY_PREFIX (pesConfig this) ++ sixDigits id in
  (forallb isWhiteSpace name = true ->
   ParserDist.createPlayer this data h = (Throw InvalidName, h)) /\
  (forallb isWhiteSpace name = false -> (id < 0 \/ 999999 < id)%Z ->
   ParserDist.createPlayer this data h = (Throw InvalidId, h)) /\
  (forallb isWhiteSpace name = false -> (0 <= id <= 999999)%Z ->
   In key (keysOf players) ->
   ParserDist.createPlayer this data h = (Throw DuplicateKey, h)) /\
  (forallb isWhiteSpace name = false -> (0 <= id <= 999999)%Z ->
   ~ In key (keysOf players) ->
   ParserDist.createPlayer this data h =
     (Return tt,
      withRecords h (playerList this) (players ++ [CommentaryRecord.mk key name]))) /\
  Parser.createPlayer this commentaryId name h =
    (Return tt,
     withRecords h (playerList this)
       (players ++ [CommentaryRecord.mk (COMMENTARY_PREFIX (pesConfig this) ++ commentaryId)
                                        name])) /\
  ParserDist.buildCommentaryName
    (mkParser PES2021Config (metadata this) (playerList this)) 57123
    = lit "EN_A1_P0_R057123".
Proof.
  intros id name key.
  assert (Hblank : forallb isWhiteSpace name = false -> exists c r, trim name = c :: r).
  { intros Hw. destruct (trim name) as [|c r] eqn:E; [|now exists c, r].
    apply trim_nil_iff in E. fold name in E. congruence. }
  assert (Hkey : (0 <= id <= 999999)%Z -> ParserDist.buildCommentaryName this id = key).
  { intros Hr. unfold ParserDist.buildCommentaryName, key.
    rewrite formatTo6String_nonneg by lia. now rewrite Z.mod_small by lia. }
  split; [|split; [|split; [|split; [|split; [|reflexivity]]]]].
  - intros Hw. apply trim_nil_iff in Hw. unfold ParserDist.createPlayer.
    fold name. now rewrite Hw.
  - intros Hw Hr. destruct (Hblank Hw) as (c & r & E).
    unfold ParserDist.createPlayer. fold name id. rewrite E.
    assert (((id <? 0) || (999999 <? id))%Z = true) as ->; [|reflexivity].
    apply orb_true_iff. destruct Hr; [left|right]; now apply Z.ltb_lt.
  - intros Hw Hr Hin. destruct (Hblank Hw) as (c & r & E).
    unfold ParserDist.createPlayer. fold name id. rewrite E.
    assert (((id <? 0) || (999999 <? id))%Z = false) as ->.
    { apply orb_false_iff. split; apply Z.ltb_ge; lia. }
    rewrite (Hkey Hr). unfold bind. rewrite (getRecords_run _ _ _ Hplayers).
    destruct (findIndex_key_Some players key Hin) as (i & player & F & _).
    now rewrite F.
  - intros Hw Hr Hin. destruct (Hblank Hw) as (c & r & E).
    unfold ParserDist.createPlayer. fold name id. rewrite E.
    assert (((id <? 0) || (999999 <? id))%Z = false) as ->.
    { apply orb_false_iff. split; apply Z.ltb_ge; lia. }
    rewrite (Hkey Hr). unfold bind. rewrite (getRecords_run _ _ _ Hplayers).
    apply findIndex_key_None in Hin. rewrite Hin.
    now apply putRecords_run with (old := players).
  - unfold Parser.createPlayer, bind. rewrite (getRecords_run _ _ _ Hplayers).
    now apply putRecords_run with (old := players).
Qed.

(** [createPlayer] of the TypeScript class checks nothing: it appends the
    record whose key is the prefix followed by the id string as given. *)
Lemma Parser_createPlayer_appends (this : PESCommentaryListParser) (h : Heap)
    (players : list CommentaryRecord.t) (commentaryId name : jsstring) :
  recordArrays h !! playerList this = Some players ->
  Parser.createPlayer this commentaryId name h =
    (Return tt,
     withRecords h (playerList this)
       (players ++ [CommentaryRecord.mk (COMMENTARY_PREFIX (pesConfig this) ++ commentaryId)
                                        name])).
Proof.
  intros Hl. unfold Parser.createPlayer, bind. rewrite (getRecords_run _ _ _ Hl).
  now apply putRecords_run with (old := players).
Qed.

(* ===================================================================== *)
(** ** The decoder                                                         *)
(* ===================================================================== *)

Lemma elementIs_spec (buffer : list Z) (i : nat) (v : Z) :
  Utils.elementIs buffer i v = true <-> buffer !! i = Some v.
Proof.
  unfold Utils.elementIs. destruct (buffer !! i) as [b|].
  - rewrite Z.eqb_eq. split; congruence.
  - split; discriminate.
Qed.

Lemma take4_magic (buffer : list Z) :
  take 4 buffer = lit "SEPD" <->
  buffer !! 0 = Some 83%Z /\ buffer !! 1 = Some 69%Z /\
  buffer !! 2 = Some 80%Z /\ buffer !! 3 = Some 68%Z.
Proof.
  change (lit "SEPD") with [83; 69; 80; 68]%Z.
  destruct buffer as [|a [|b [|c [|d r]]]]; simpl; rewrite ?take_0;
    (split; [intros [=]; subst; auto | intros (A & B & C & D); congruence]).
Qed.

Lemma slice_lookup (buffer : list Z) (from to j : nat) :
  Uint8Array.slice buffer from to !! j =
  if j <? to - from then buffer !! (from + j) else None.
Proof.
  unfold Uint8Array.slice. destruct (Nat.ltb_spec j (to - from)).
  - rewrite lookup_take_lt by assumption. apply lookup_drop.
  - now apply lookup_take_ge.
Qed.

Lemma slice_length (buffer : list Z) (from to : nat) :
  to <= length buffer ->
  length (Uint8Array.slice buffer from to) = to - from.
Proof. intros H. unfold Uint8Array.slice. rewrite length_take, length_drop. lia. Qed.

(** [isBinaryValid] decides the two header checks. *)
Lemma isBinaryValid_spec (buffer : list Z) :
  Utils.isBinaryValid buffer = true <-> headerOk buffer.
Proof.
  unfold Utils.isBinaryValid, headerOk.
  rewrite !andb_true_iff, !elementIs_spec, take4_magic, forallb_forall.
  split.
  - intros ((((A & B) & C) & D) & Z0). repeat split; try assumption.
    intros i b Hi Hb. apply Z.eqb_eq, Z0.
    apply list_elem_of_In, list_elem_of_lookup. exists (i - 24).
    rewrite slice_lookup. change (36 - 24) with 12.
    assert ((i - 24 <? 12) = true) as -> by (apply Nat.ltb_lt; lia).
    now replace (24 + (i - 24)) with i by lia.
  - intros ((A & B & C & D) & Z0). repeat split; try assumption.
    intros b Hb. apply list_elem_of_In, list_elem_of_lookup in Hb.
    destruct Hb as [j Hj]. rewrite slice_lookup in Hj. change (36 - 24) with 12 in Hj.
    destruct (Nat.ltb_spec j 12); [|discriminate].
    apply Z.eqb_eq, (Z0 (24 + j)); [lia|assumption].
Qed.

Lemma Parser_readString_eq : Parser.readString = Utils.readString.
Proof. reflexivity. Qed.

(** The loop of [parse] reads one record per full stride and stops. *)
Lemma readRecords_spec (fileBuffer : list Z) (pesConfig : PESConfig) (fuel pointer : nat)
    (players : list CommentaryRecord.t) :
  0 < RECORD_SIZE pesConfig ->
  (length fileBuffer - pointer) / RECORD_SIZE pesConfig < fuel ->
  Parser.readRecords fuel fileBuffer pesConfig pointer players =
  Some (players ++
        map (fun i => recordAtOffset pesConfig fileBuffer
                        (pointer + i * RECORD_SIZE pesConfig))
            (seq 0 ((length fileBuffer - pointer) / RECORD_SIZE pesConfig))).
Proof.
  intros Hsize. revert pointer players.
  induction fuel as [|fuel IH]; intros pointer players Hfuel; [lia|].
  simpl Parser.readRecords.
  destruct (Nat.leb_spec (pointer + RECORD_SIZE pesConfig) (length fileBuffer)) as [Hle|Hgt].
  - assert (E : (length fileBuffer - pointer) / RECORD_SIZE pesConfig =
                S ((length fileBuffer - (pointer + RECORD_SIZE pesConfig))
                   / RECORD_SIZE pesConfig)).
    { replace (length fileBuffer - pointer)
        with (1 * RECORD_SIZE pesConfig
              + (length fileBuffer - (pointer + RECORD_SIZE pesConfig))) by lia.
      rewrite Nat.div_add_l by lia. lia. }
    rewrite IH by lia. rewrite E. f_equal.
    rewrite <- app_assoc. f_equal. simpl seq. simpl map.
    rewrite Nat.add_0_r, Parser_readString_eq. f_equal.
    rewrite <- seq_shift, map_map. apply map_ext. intros i. simpl.
    now replace (pointer + RECORD_SIZE pesConfig + i * RECORD_SIZE pesConfig)
      with (pointer + (RECORD_SIZE pesConfig + i * RECORD_SIZE pesConfig)) by lia.
  - rewrite Nat.div_small by lia. simpl. now rewrite app_nil_r.
Qed.

(** [parse] on a file that passes both checks. *)
Lemma parse_accepts (fileBuffer : list Z) (pesConfig : PESConfig) (h : Heap) (fuel : nat) :
  0 < RECORD_SIZE pesConfig ->
  (length fileBuffer - COMMENTARY_START_OFFSET pesConfig) / RECORD_SIZE pesConfig < fuel ->
  COMMENTARY_START_OFFSET pesConfig <= length fileBuffer ->
  Utils.isBinaryValid fileBuffer = true ->
  Parser.parse fuel fileBuffer pesConfig h =
    Some (Return (mkParser pesConfig
                    (mkMetadata (length (byteArrays h)) (S (length (byteArrays h))))
                    (length (recordArrays h))),
          mkHeap (recordArrays h
                  ++ [map (recordAt pesConfig fileBuffer)
                          (seq 0 ((length fileBuffer - COMMENTARY_START_OFFSET pesConfig)
                                    / RECORD_SIZE pesConfig))])
                 (byteArrays h ++ [Uint8Array.slice fileBuffer 0 16;
                                   Uint8Array.slice fileBuffer 20 36])).
Proof.
  intros Hsize Hfuel Hlong V. unfold Parser.parse.
  rewrite (readRecords_spec _ _ _ _ _ Hsize Hfuel).
  assert ((length fileBuffer <? COMMENTARY_START_OFFSET pesConfig) = false) as ->
    by (apply Nat.ltb_ge; assumption).
  rewrite V. simpl negb. cbv iota.
  unfold bind, newBytes, newRecords, ret. simpl.
  rewrite length_app. simpl. rewrite Nat.add_1_r, <- app_assoc. reflexivity.
Qed.

(** C2. [parse] on a file and a layout with a positive record size, given
    enough fuel for the loop.  A file shorter than the start offset is refused
    as too small, and no other file is; a file at least that long is refused
    as invalid exactly when its first four bytes are not "SEPD" or a byte at
    index 24..35 is not zero; every other file is decoded, into one record per
    full stride after the start offset, in file order, a partial stride at the
    end being left out. *)
Theorem parse_outcomes
    (fileBuffer : list Z) (pesConfig : PESConfig) (h : Heap) (fuel : nat)
    (Hsize : 0 < RECORD_SIZE pesConfig)
    (Hfuel : (length fileBuffer - COMMENTARY_START_OFFSET pesConfig)
               / RECORD_SIZE pesConfig < fuel) :
  let count := (length fileBuffer - COMMENTARY_START_OFFSET pesConfig)
                 / RECORD_SIZE pesConfig in
  (length fileBuffer < COMMENTARY_START_OFFSET pesConfig <->
   Parser.parse fuel fileBuffer pesConfig h = Some (Throw TooSmall, h)) /\
  (COMMENTARY_START_OFFSET pesConfig <= length fileBuffer /\ ~ headerOk fileBuffer <->
   Parser.parse fuel fileBuffer pesConfig h = Some (Throw InvalidFile, h)) /\
  (COMMENTARY_START_OFFSET pesConfig <= length fileBuffer -> headerOk fileBuffer ->
   Parser.parse fuel fileBuffer pesConfig h =
     Some (Return (mkParser pesConfig
                     (mkMetadata (length (byteArrays h)) (S (length (byteArrays h))))
                     (length (recordArrays h))),
           mkHeap (recordArrays h ++ [map (recordAt pesConfig fileBuffer) (seq 0 count)])
                  (byteArrays h ++ [Uint8Array.slice fileBuffer 0 16;
                                    Uint8Array.slice fileBuffer 20 36]))).
Proof.
  intros count.
  destruct (Nat.ltb_spec (length fileBuffer) (COMMENTARY_START_OFFSET pesConfig))
    as [Hshort|Hlong].
  - unfold Parser.parse. rewrite (readRecords_spec _ _ _ _ _ Hsize Hfuel).
    assert ((length fileBuffer <? COMMENTARY_START_OFFSET pesConfig) = true) as ->
      by (apply Nat.ltb_lt; assumption).
    split; [tauto|]. split; [|lia].
    split; [lia|intros [=]].
  - destruct (Utils.isBinaryValid fileBuffer) eqn:V.
    + assert (Hok := proj1 (isBinaryValid_spec _) V).
      rewrite (parse_accepts _ _ _ _ Hsize Hfuel Hlong V). fold count.
      split; [split; [lia|intros [=]]|].
      split; [split; [tauto|intros [=]]|].
      reflexivity.
    + assert (Hbad : ~ headerOk fileBuffer).
      { intros Hok. apply isBinaryValid_spec in Hok. congruence. }
      unfold Parser.parse. rewrite (readRecords_spec _ _ _ _ _ Hsize Hfuel).
      assert ((length fileBuffer <? COMMENTARY_START_OFFSET pesConfig) = false) as ->
        by (apply Nat.ltb_ge; assumption).
      rewrite V. simpl negb. cbv iota.
      split; [split; [lia|intros [=]]|].
      split; [tauto|]. intros _ Hok. contradiction.
Qed.

(* ===================================================================== *)
(** ** What [save] does to the store                                       *)
(* ===================================================================== *)

Lemma extends_refl (h : Heap) : extends h h.
Proof. split; [reflexivity|]. exists []. now rewrite app_nil_r. Qed.

Lemma extends_trans (h1 h2 h3 : Heap) : extends h1 h2 -> extends h2 h3 -> extends h1 h3.
Proof.
  intros [B1 [e1 R1]] [B2 [e2 R2]]. split; [congruence|].
  exists (e1 ++ e2). now rewrite R2, R1, app_assoc.
Qed.

Lemma extends_lookup_records (h h' : Heap) (l : loc) (a : list CommentaryRecord.t) :
  extends h h' -> recordArrays h !! l = Some a -> recordArrays h' !! l = Some a.
Proof. intros [_ [e ->]] H. now apply lookup_app_l_Some. Qed.

Lemma allocatesOnly_ret {A} (a : A) : allocatesOnly (ret a).
Proof. intros h. apply extends_refl. Qed.

Lemma allocatesOnly_throw {A} (e : Error) : allocatesOnly (@throw A e).
Proof. intros h. apply extends_refl. Qed.

Lemma allocatesOnly_orRangeError {A} (o : option A) : allocatesOnly (orRangeError o).
Proof. destruct o; [apply allocatesOnly_ret|apply allocatesOnly_throw]. Qed.

Lemma allocatesOnly_getRecords (l : loc) : allocatesOnly (getRecords l).
Proof. intros h. unfold getRecords. destruct (_ !! _); apply extends_refl. Qed.

Lemma allocatesOnly_getBytes (l : loc) : allocatesOnly (getBytes l).
Proof. intros h. unfold getBytes. destruct (_ !! _); apply extends_refl. Qed.

Lemma allocatesOnly_bind {A B} (c : M A) (k : A -> M B) :
  allocatesOnly c -> (forall a, allocatesOnly (k a)) -> allocatesOnly (bind c k).
Proof.
  intros Hc Hk h. unfold bind. specialize (Hc h).
  destruct (c h) as [[a|e] h1]; simpl in *; [|assumption].
  eapply extends_trans; [exact Hc|apply Hk].
Qed.

(** [sortAndCountPlayers] on an array that exists: the sorted copy is a new
    array, the last of the store; the counts are those of the sorted copy. *)
Lemma sortAndCountPlayers_run (localeCompare : jsstring -> jsstring -> Z)
    (h : Heap) (l : loc) (players : list CommentaryRecord.t) :
  recordArrays h !! l = Some players ->
  Utils.sortAndCountPlayers localeCompare l h =
    (Return (length (recordArrays h),
             fold_left Utils.countPlayer
                       (sort (Utils.comparePlayers localeCompare) players)
                       Utils.initialCounts),
     mkHeap (recordArrays h ++ [sort (Utils.comparePlayers localeCompare) players])
            (byteArrays h)).
Proof.
  intros Hl. unfold Utils.sortAndCountPlayers, bind.
  rewrite (getRecords_run _ _ _ Hl). unfold newRecords, putRecords. simpl.
  rewrite length_app. simpl.
  assert ((length (recordArrays h) <? length (recordArrays h) + 1) = true) as ->
    by (apply Nat.ltb_lt; lia).
  unfold getRecords. simpl.
  replace (<[length (recordArrays h) := sort (Utils.comparePlayers localeCompare) players]>
             (recordArrays h ++ [players]))
    with (recordArrays h ++ [sort (Utils.comparePlayers localeCompare) players]).
  2:{ rewrite insert_app_r_alt by lia. now rewrite Nat.sub_diag. }
  rewrite lookup_app_r by lia. rewrite Nat.sub_diag. reflexivity.
Qed.

Lemma allocatesOnly_sortAndCountPlayers (localeCompare : jsstring -> jsstring -> Z)
    (l : loc) : allocatesOnly (Utils.sortAndCountPlayers localeCompare l).
Proof.
  intros h. destruct (recordArrays h !! l) as [players|] eqn:E.
  - rewrite (sortAndCountPlayers_run _ _ _ _ E). simpl.
    split; [reflexivity|]. now eexists.
  - unfold Utils.sortAndCountPlayers, bind, getRecords. rewrite E. apply extends_refl.
Qed.

Lemma allocatesOnly_save (localeCompare : jsstring -> jsstring -> Z)
    (this : PESCommentaryListParser) : allocatesOnly (Parser.save localeCompare this).
Proof.
  unfold Parser.save.
  repeat first
    [ apply allocatesOnly_ret
    | apply allocatesOnly_orRangeError
    | apply allocatesOnly_getRecords
    | apply allocatesOnly_getBytes
    | apply allocatesOnly_sortAndCountPlayers
    | apply allocatesOnly_bind; [|intros ?]
    | match goal with |- allocatesOnly (match ?x with _ => _ end) => destruct x end ].
Qed.

(** C9. [save] leaves the state of the parser as it was: whatever it returns
    or throws, the array [playerList] holds the same records in the same
    order afterwards, and the two typed arrays of the metadata hold the same
    bytes; the only change to the store is the new array that holds the
    sorted copy. *)
Theorem save_leaves_parser_state
    (localeCompare : jsstring -> jsstring -> Z) (this : PESCommentaryListParser)
    (h : Heap) (players : list CommentaryRecord.t) (firstBytes secondBytes : list Z)
    (Hplayers : recordArrays h !! playerList this = Some players)
    (Hfirst : byteArrays h !! first (metadata this) = Some firstBytes)
    (Hsecond : byteArrays h !! second (metadata this) = Some secondBytes) :
  let h' := snd (Parser.save localeCompare this h) in
  recordArrays h' !! playerList this = Some players /\
  byteArrays h' !! first (metadata this) = Some firstBytes /\
  byteArrays h' !! second (metadata this) = Some secondBytes /\
  extends h h'.
Proof.
  intros h'. assert (E : extends h h') by apply allocatesOnly_save.
  repeat split; try apply E.
  - now apply (extends_lookup_records h).
  - destruct E as [-> _]. assumption.
  - destruct E as [-> _]. assumption.
Qed.

(* ===================================================================== *)
(** ** Typed-array writes                                                  *)
(* ===================================================================== *)

(** A write that exactly covers the middle one of three parts. *)
Lemma set_middle (a b c src : list Z) (offset : nat) :
  offset = length a -> length src = length b ->
  Uint8Array.set (a ++ b ++ c) src offset = Some (a ++ src ++ c).
Proof.
  intros -> Hlen. unfold Uint8Array.set. rewrite !length_app.
  assert ((length a + length src <=? length a + (length b + length c)) = true) as ->
    by (apply Nat.leb_le; lia).
  f_equal. rewrite take_app_length. f_equal. f_equal.
  rewrite app_assoc, drop_app_length'; [reflexivity|].
  rewrite length_app. lia.
Qed.

(** A write at the left of a zero-filled part. *)
Lemma set_in_zeros (a c src : list Z) (offset width : nat) :
  offset = length a -> length src <= width ->
  Uint8Array.set (a ++ Uint8Array.zeros width ++ c) src offset =
  Some (a ++ padded width src ++ c).
Proof.
  intros Ha Hlen. unfold padded, Uint8Array.zeros.
  replace width with (length src + (width - length src)) at 1 by lia.
  rewrite replicate_add, <- !app_assoc.
  apply set_middle; [assumption|]. now rewrite length_replicate.
Qed.

Lemma set_length (a src r : list Z) (offset : nat) :
  Uint8Array.set a src offset = Some r -> length r = length a.
Proof.
  unfold Uint8Array.set. destruct (Nat.leb_spec (offset + length src) (length a));
    [|discriminate].
  intros [= <-]. rewrite !length_app, length_take, length_drop. lia.
Qed.

Lemma decimalToBytes_length (n : Z) : length (Utils.decimalToBytes n) = 4.
Proof. reflexivity. Qed.

Lemma padded_length (width : nat) (bytes : list Z) :
  length bytes <= width -> length (padded width bytes) = width.
Proof.
  intros H. unfold padded, Uint8Array.zeros. rewrite length_app, length_replicate. lia.
Qed.

(** The index loop over a part of four bytes per count. *)
Lemma writeAlphabetIndex_run (counts : list nat) (sum pointer : nat) (a b c : list Z) :
  pointer = length a -> length b = 4 * length counts ->
  Parser.writeAlphabetIndex counts sum pointer (a ++ b ++ c) =
  Some (a ++ concat (map (fun s => Utils.decimalToBytes (Z.of_nat s))
                         (runningSums sum counts)) ++ c).
Proof.
  revert sum pointer a b.
  induction counts as [|count rest IH]; intros sum pointer a b Ha Hb.
  - destruct b; [reflexivity|discriminate].
  - change (length (count :: rest)) with (S (length rest)) in Hb.
    simpl Parser.writeAlphabetIndex. simpl runningSums. rewrite map_cons, concat_cons.
    rewrite <- (take_drop 4 b), <- (app_assoc (take 4 b)).
    rewrite (set_middle a (take 4 b) _ _ pointer Ha).
    2:{ rewrite length_take, decimalToBytes_length. lia. }
    rewrite (app_assoc a), (IH _ _ _ (drop 4 b)).
    + now rewrite <- !app_assoc.
    + rewrite length_app, decimalToBytes_length. lia.
    + rewrite length_drop. lia.
Qed.

Lemma runningSums_length (sum : nat) (counts : list nat) :
  length (runningSums sum counts) = length counts.
Proof. revert sum. induction counts; intros; simpl; [reflexivity|]. now rewrite IHcounts. Qed.

(** The running sums of the values of a function over an interval. *)
Lemma runningSums_seq (f : nat -> nat) (sum a k : nat) :
  runningSums sum (map f (seq a k)) =
  map (fun i => sum + sum_list (map f (seq a (S (i - a))))) (seq a k).
Proof.
  revert sum a. induction k as [|k IH]; intros sum a; [reflexivity|].
  simpl seq. simpl map. simpl runningSums. rewrite IH. f_equal.
  - rewrite Nat.sub_diag. simpl. lia.
  - apply map_ext_in. intros i Hi. apply in_seq in Hi.
    replace (i - a) with (S (i - S a)) by lia.
    set (rest := seq (S a) (S (i - S a))). lia.
Qed.

(* ===================================================================== *)
(** ** Sorting and counting                                                *)
(* ===================================================================== *)

Lemma insertSorted_perm {A} (cmp : A -> A -> Z) (x : A) (l : list A) :
  Permutation (insertSorted cmp x l) (x :: l).
Proof.
  induction l as [|y r IH]; simpl; [reflexivity|].
  destruct (cmp x y <=? 0)%Z; [reflexivity|].
  rewrite IH. apply perm_swap.
Qed.

(** [sort] reorders: it neither drops nor adds nor changes an element. *)
Lemma sort_perm {A} (cmp : A -> A -> Z) (l : list A) : Permutation (sort cmp l) l.
Proof.
  induction l as [|x r IH]; simpl; [reflexivity|].
  unfold sort in *. simpl. rewrite insertSorted_perm. now constructor.
Qed.

Lemma filter_length_perm {A} (p : A -> bool) (l l' : list A) :
  Permutation l l' -> length (List.filter p l) = length (List.filter p l').
Proof.
  induction 1; simpl; try congruence.
  - destruct (p x); simpl; congruence.
  - destruct (p x), (p y); reflexivity.
Qed.

Lemma letterCount_perm (l l' : list CommentaryRecord.t) (i : nat) :
  Permutation l l' -> letterCount l i = letterCount l' i.
Proof. apply filter_length_perm. Qed.

Lemma getProp_None_bump (counts : object nat) (k : jsstring) :
  getProp counts k = None -> map (bump k) counts = counts.
Proof.
  induction counts as [|[k' v] r IH]; simpl; [reflexivity|].
  destruct (eqString k' k) eqn:E; [discriminate|].
  intros H. rewrite (IH H). unfold bump. simpl.
  assert (eqString k k' = false) as ->; [|reflexivity].
  apply eqString_false. apply eqString_false in E. congruence.
Qed.

Lemma not_in_keys_bump (counts : object nat) (k : jsstring) :
  ~ In k (map fst counts) -> map (bump k) counts = counts.
Proof.
  induction counts as [|[k' v] r IH]; simpl; [reflexivity|].
  intros H. rewrite IH by tauto. unfold bump. simpl.
  assert (eqString k k' = false) as ->; [|reflexivity].
  apply eqString_false. intros ->. tauto.
Qed.

Lemma getProp_Some_bump (counts : object nat) (k : jsstring) (n : nat) :
  NoDup (map fst counts) -> getProp counts k = Some n ->
  setProp counts k (S n) = map (bump k) counts.
Proof.
  induction counts as [|[k' v] r IH]; simpl; [discriminate|].
  intros Hnd. apply NoDup_cons in Hnd. destruct Hnd as [Hk' Hnd].
  destruct (eqString k' k) eqn:E.
  - apply eqString_true in E. subst k'. intros [= ->].
    rewrite not_in_keys_bump by (now rewrite <- list_elem_of_In).
    unfold bump. simpl.
    now assert (eqString k k = true) as -> by now apply eqString_true.
  - intros H. rewrite (IH Hnd H). unfold bump at 2. simpl.
    assert (eqString k k' = false) as ->; [|reflexivity].
    apply eqString_false. apply eqString_false in E. congruence.
Qed.

Lemma countPlayer_bump (counts : object nat) (player : CommentaryRecord.t) :
  NoDup (map fst counts) ->
  Utils.countPlayer counts player =
  map (bump (toUpperCase (charAt0 (CommentaryRecord.playerName player)))) counts.
Proof.
  intros Hnd. unfold Utils.countPlayer.
  destruct (getProp counts _) as [n|] eqn:G.
  - now apply getProp_Some_bump.
  - symmetry. now apply getProp_None_bump.
Qed.

Lemma bump_keys (k : jsstring) (counts : object nat) :
  map fst (map (bump k) counts) = map fst counts.
Proof. rewrite map_map. now apply map_ext. Qed.

(** After the counting loop, each property has grown by the number of
    players filed under its key. *)
Lemma countPlayers_fold (players : list CommentaryRecord.t) (counts : object nat) :
  NoDup (map fst counts) ->
  fold_left Utils.countPlayer players counts =
  map (fun entry =>
         (fst entry,
          snd entry +
          length (List.filter
                    (fun player =>
                       eqString (toUpperCase (charAt0 (CommentaryRecord.playerName player)))
                                (fst entry))
                    players)))
      counts.
Proof.
  revert counts. induction players as [|p r IH]; intros counts Hnd; simpl.
  - rewrite <- (map_id counts) at 1. apply map_ext. intros [k v]. simpl. f_equal. lia.
  - rewrite countPlayer_bump by assumption.
    rewrite IH by now rewrite bump_keys.
    rewrite map_map. apply map_ext. intros [k v]. unfold bump. simpl.
    destruct (eqString _ k); simpl; f_equal; lia.
Qed.

Lemma initialCounts_eq :
  Utils.initialCounts = map (fun i => (fromCharCode (65 + Z.of_nat i), 0)) (seq 0 26).
Proof. reflexivity. Qed.

Lemma initialCounts_NoDup : NoDup (map fst Utils.initialCounts).
Proof. apply (bool_decide_unpack _). vm_compute. exact I. Qed.

(** The values of the counts that [sortAndCountPlayers] returns, in the order
    of [Object.values]: the letter counts of the collection, [A] to [Z]. *)
Lemma counted_values (localeCompare : jsstring -> jsstring -> Z)
    (players : list CommentaryRecord.t) :
  values (fold_left Utils.countPlayer
                    (sort (Utils.comparePlayers localeCompare) players)
                    Utils.initialCounts)
  = map (letterCount players) (seq 0 26).
Proof.
  rewrite countPlayers_fold by apply initialCounts_NoDup.
  rewrite initialCounts_eq. unfold values. rewrite !map_map.
  apply map_ext. intros i. simpl.
  apply (letterCount_perm _ players i), sort_perm.
Qed.

Lemma index_sums (players : list CommentaryRecord.t) (k : nat) :
  runningSums 0 (map (letterCount players) (seq 0 k)) =
  map (cumulativeCount players) (seq 0 k).
Proof.
  rewrite runningSums_seq. apply map_ext. intros i.
  rewrite Nat.sub_0_r. reflexivity.
Qed.

(* ===================================================================== *)
(** ** Little-endian integers                                              *)
(* ===================================================================== *)

Lemma decimalToBytes_value (v : Z) :
  match Utils.decimalToBytes v with
  | [b0; b1; b2; b3] => (b0 + 256 * b1 + 65536 * b2 + 16777216 * b3)%Z
  | _ => 0%Z
  end = (v mod 2 ^ 32)%Z.
Proof.
  unfold Utils.decimalToBytes.
  assert (Hu : (0 <= v mod 2 ^ 32 < 2 ^ 32)%Z) by (apply Z.mod_pos_bound; lia).
  set (u := (v mod 2 ^ 32)%Z) in *.
  change 255%Z with (Z.ones 8).
  rewrite !Z.land_ones, !Z.shiftr_div_pow2 by lia.
  change (2 ^ 8)%Z with 256%Z. change (2 ^ 16)%Z with 65536%Z.
  change (2 ^ 24)%Z with 16777216%Z. change (2 ^ 32)%Z with 4294967296%Z in Hu.
  Z.to_euclidean_division_equations. lia.
Qed.

Lemma readUint32LE_at (a c : list Z) (v : Z) (offset : nat) :
  offset = length a ->
  readUint32LE (a ++ Utils.decimalToBytes v ++ c) offset = (v mod 2 ^ 32)%Z.
Proof.
  intros ->. unfold readUint32LE, Uint8Array.slice.
  replace (length a + 4 - length a) with 4 by lia.
  rewrite drop_app_length.
  rewrite (take_app_length' (Utils.decimalToBytes v) c 4) by reflexivity.
  apply decimalToBytes_value.
Qed.

(** The [i]-th of a run of little-endian integers. *)
Lemma readUint32LE_nth (l : list nat) (a c : list Z) (i : nat) (offset : nat) :
  offset = length a + 4 * i -> i < length l ->
  readUint32LE
    (a ++ concat (map (fun s => Utils.decimalToBytes (Z.of_nat s)) l) ++ c) offset
  = (Z.of_nat (nth i l 0%nat) mod 2 ^ 32)%Z.
Proof.
  revert a i offset. induction l as [|x r IH]; intros a i offset Ho Hi; [simpl in Hi; lia|].
  rewrite map_cons, concat_cons, <- (app_assoc (Utils.decimalToBytes _)).
  destruct i as [|i].
  - simpl nth. apply readUint32LE_at. lia.
  - rewrite (app_assoc a). simpl nth. apply IH.
    + rewrite length_app, decimalToBytes_length. lia.
    + simpl in Hi. lia.
Qed.

(* ===================================================================== *)
(** ** The alphabetical index                                              *)
(* ===================================================================== *)

Lemma cumulativeCount_mono (players : list CommentaryRecord.t) (i j : nat) :
  i <= j -> cumulativeCount players i <= cumulativeCount players j.
Proof.
  intros Hij. unfold cumulativeCount.
  replace (S j) with (S i + (j - i)) by lia.
  rewrite seq_app, map_app, sum_list_with_app. lia.
Qed.

Lemma sum_list_map_add (f g : nat -> nat) (l : list nat) :
  sum_list (map (fun i => f i + g i) l) = sum_list (map f l) + sum_list (map g l).
Proof. induction l as [|x r IH]; simpl; [reflexivity|]. rewrite IH. lia. Qed.

Lemma sum_list_map_zero (f : nat -> nat) (l : list nat) :
  (forall i, In i l -> f i = 0) -> sum_list (map f l) = 0.
Proof.
  induction l as [|x r IH]; intros H; simpl; [reflexivity|].
  rewrite (H x) by now left. rewrite IH; [reflexivity|]. intros i Hi. apply H. now right.
Qed.

Lemma startsWithLetter_unique (player : CommentaryRecord.t) (i j : nat) :
  startsWithLetter i player = true -> startsWithLetter j player = true -> i = j.
Proof.
  unfold startsWithLetter, fromCharCode. rewrite !eqString_true.
  intros -> [= E]. lia.
Qed.

(** A player is filed under one letter if under any. *)
Lemma letters_of_player (player : CommentaryRecord.t) (a k : nat) :
  sum_list (map (fun i => if startsWithLetter i player then 1 else 0) (seq a k))
  = if existsb (fun i => startsWithLetter i player) (seq a k) then 1 else 0.
Proof.
  revert a. induction k as [|k IH]; intros a; [reflexivity|].
  simpl seq. simpl map. simpl existsb.
  change (sum_list (?x :: ?l)) with (x + sum_list l).
  destruct (startsWithLetter a player) eqn:E; simpl orb; cbv iota.
  - rewrite sum_list_map_zero; [reflexivity|].
    intros i Hi. apply in_seq in Hi.
    destruct (startsWithLetter i player) eqn:F; [|reflexivity].
    pose proof (startsWithLetter_unique _ _ _ E F). lia.
  - now rewrite IH.
Qed.

(** The last cumulative count is the number of players whose name starts,
    up to case, with one of the 26 letters. *)
Lemma cumulativeCount_last (players : list CommentaryRecord.t) :
  cumulativeCount players 25 = length (List.filter startsWithCapital players).
Proof.
  unfold cumulativeCount.
  induction players as [|p r IH]; [reflexivity|].
  assert (E : forall i, letterCount (p :: r) i
                        = (if startsWithLetter i p then 1 else 0) + letterCount r i).
  { intros i. unfold letterCount. simpl. now destruct (startsWithLetter i p). }
  rewrite (map_ext _ _ E), sum_list_map_add, IH, letters_of_player.
  simpl List.filter. unfold startsWithCapital at 2.
  now destruct (existsb _ _).
Qed.

(** C4, as amended.  Whatever the collection, the 26 little-endian integers
    that the index loop of [save] writes at offsets 36, 40, ..., 136 are the
    running cumulative counts, in the order [A] to [Z], of the records whose
    display name starts, once upper-cased, with each letter; the sequence
    never decreases; and the count after [Z] is the number of records whose
    name starts with one of the 26 letters, which is at most the number of
    records. *)
Theorem alphabet_index_is_cumulative
    (localeCompare : jsstring -> jsstring -> Z) (this : PESCommentaryListParser)
    (h : Heap) (players : list CommentaryRecord.t) (intBuffer : list Z)
    (Hplayers : recordArrays h !! playerList this = Some players)
    (Hbuffer : 140 <= length intBuffer)
    (Hcount : (Z.of_nat (length players) < 2 ^ 32)%Z) :
  exists sorted counts h' intBuffer',
    Utils.sortAndCountPlayers localeCompare (playerList this) h
      = (Return (sorted, counts), h') /\
    Parser.writeAlphabetIndex (values counts) 0 36 intBuffer = Some intBuffer' /\
    (forall i, i < 26 ->
       readUint32LE intBuffer' (36 + 4 * i) = Z.of_nat (cumulativeCount players i)) /\
    (forall i j, i <= j -> cumulativeCount players i <= cumulativeCount players j) /\
    cumulativeCount players 25 = length (List.filter startsWithCapital players) /\
    cumulativeCount players 25 <= length players.
Proof.
  assert (Hle : cumulativeCount players 25 <= length players).
  { rewrite cumulativeCount_last. apply filter_length_le. }
  eexists _, _, _, _. split; [exact (sortAndCountPlayers_run _ _ _ _ Hplayers)|].
  rewrite counted_values.
  rewrite <- (take_drop 36 intBuffer) at 1.
  rewrite <- (take_drop 104 (drop 36 intBuffer)) at 1.
  rewrite writeAlphabetIndex_run.
  2:{ rewrite length_take. lia. }
  2:{ rewrite length_take, length_drop, length_map, length_seq. lia. }
  split; [reflexivity|]. rewrite index_sums.
  split; [|split; [apply cumulativeCount_mono|split; [apply cumulativeCount_last|exact Hle]]].
  intros i Hi. rewrite (readUint32LE_nth _ _ _ i).
  - rewrite (nth_indep _ 0 (cumulativeCount players 0)) by (rewrite length_map, length_seq; lia).
    rewrite (map_nth (cumulativeCount players)), seq_nth by lia.
    apply Z.mod_small. split; [lia|].
    pose proof (cumulativeCount_mono players i 25). lia.
  - rewrite length_take. lia.
  - rewrite length_map, length_seq. lia.
Qed.

(* ===================================================================== *)
(** ** The bytes that [save] returns                                       *)
(* ===================================================================== *)

(** A write over a part of a buffer given as three parts. *)
Lemma set_at (buffer src : list Z) (offset : nat) (a b c : list Z) :
  buffer = a ++ b ++ c -> offset = length a -> length src = length b ->
  Uint8Array.set buffer src offset = Some (a ++ src ++ c).
Proof. intros ->. apply set_middle. Qed.

Lemma encodedRecord_length (pesConfig : PESConfig) (player : CommentaryRecord.t) :
  layoutOk pesConfig ->
  length (encodedRecord pesConfig player) = RECORD_SIZE pesConfig.
Proof.
  intros [_ Hfit]. unfold encodedRecord.
  rewrite length_app, !padded_length; rewrite ?length_take; lia.
Qed.

(** The record loop over zero-filled strides. *)
Lemma writeRecords_run (pesConfig : PESConfig) (sorted : list CommentaryRecord.t)
    (pointer : nat) (a : list Z) :
  layoutOk pesConfig -> pointer = length a ->
  Parser.writeRecords pesConfig sorted pointer
    (a ++ Uint8Array.zeros (length sorted * RECORD_SIZE pesConfig))
  = Some (a ++ concat (map (encodedRecord pesConfig) sorted)).
Proof.
  intros Hok. pose proof Hok as [_ Hfit]. revert pointer a.
  induction sorted as [|value rest IH]; intros pointer a Ha.
  - reflexivity.
  - cbn [Parser.writeRecords]. rewrite map_cons, concat_cons.
    set (key := take (COMMENTARY_NAME_LENGTH pesConfig)
                     (TextEncoder.encode (CommentaryRecord.commentaryName value))).
    set (name := take (PLAYER_NAME_OFFSET pesConfig + PLAYER_NAME_LENGTH pesConfig)
                      (TextEncoder.encode (CommentaryRecord.playerName value))).
    assert (Hkey : length key <= COMMENTARY_NAME_LENGTH pesConfig)
      by (unfold key; rewrite length_take; lia).
    assert (Hname : length name
                    <= RECORD_SIZE pesConfig - COMMENTARY_NAME_LENGTH pesConfig)
      by (unfold name; rewrite length_take; lia).
    assert (Z0 : Uint8Array.zeros (length (value :: rest) * RECORD_SIZE pesConfig)
                 = Uint8Array.zeros (COMMENTARY_NAME_LENGTH pesConfig)
                   ++ Uint8Array.zeros (RECORD_SIZE pesConfig
                                        - COMMENTARY_NAME_LENGTH pesConfig)
                   ++ Uint8Array.zeros (length rest * RECORD_SIZE pesConfig)).
    { unfold Uint8Array.zeros. rewrite <- !replicate_add. f_equal. simpl length. lia. }
    rewrite Z0.
    rewrite (set_in_zeros a _ key pointer _ Ha Hkey).
    rewrite (app_assoc a).
    rewrite (set_in_zeros _ _ name).
    2:{ rewrite length_app, padded_length by assumption. lia. }
    2:{ assumption. }
    rewrite (app_assoc (a ++ _)), IH.
    + unfold encodedRecord. fold key name. now rewrite <- !app_assoc.
    + rewrite !length_app, !padded_length by assumption. lia.
Qed.

Lemma bind_getRecords {B} (h : Heap) (l : loc) (a : list CommentaryRecord.t)
    (k : list CommentaryRecord.t -> M B) :
  recordArrays h !! l = Some a -> bind (getRecords l) k h = k a h.
Proof. intros E. unfold bind. now rewrite (getRecords_run _ _ _ E). Qed.

Lemma bind_getBytes {B} (h : Heap) (l : loc) (a : list Z) (k : list Z -> M B) :
  byteArrays h !! l = Some a -> bind (getBytes l) k h = k a h.
Proof. intros E. unfold bind. now rewrite (getBytes_run _ _ _ E). Qed.

Lemma bind_orRangeError {A B} (o : option A) (a : A) (k : A -> M B) (h : Heap) :
  o = Some a -> bind (orRangeError o) k h = k a h.
Proof. intros ->. reflexivity. Qed.

Lemma concat_u32_length {A} (f : A -> Z) (l : list A) :
  length (concat (map (fun i => Utils.decimalToBytes (f i)) l)) = 4 * length l.
Proof.
  induction l as [|x r IH]; [reflexivity|].
  rewrite map_cons, concat_cons, length_app, IH, decimalToBytes_length. simpl length. lia.
Qed.

Lemma concat_records_length (pesConfig : PESConfig) (l : list CommentaryRecord.t) :
  layoutOk pesConfig ->
  length (concat (map (encodedRecord pesConfig) l)) = length l * RECORD_SIZE pesConfig.
Proof.
  intros Hok. induction l as [|x r IH]; [reflexivity|].
  rewrite map_cons, concat_cons, length_app, IH, encodedRecord_length by assumption.
  simpl length. lia.
Qed.

Ltac reassoc := rewrite <- ?app_assoc; reflexivity.

(** [save], on a parser whose objects exist, whose metadata has two spans of
    16 bytes, and whose layout keeps the records apart: it returns the file
    described by [encodedFile], and the store gains the sorted copy. *)
Lemma save_run (localeCompare : jsstring -> jsstring -> Z)
    (this : PESCommentaryListParser) (h : Heap) (players : list CommentaryRecord.t)
    (firstBytes secondBytes : list Z) :
  recordArrays h !! playerList this = Some players ->
  byteArrays h !! first (metadata this) = Some firstBytes ->
  byteArrays h !! second (metadata this) = Some secondBytes ->
  length firstBytes = 16 -> length secondBytes = 16 ->
  layoutOk (pesConfig this) ->
  Parser.save localeCompare this h =
    (Return (encodedFile localeCompare (pesConfig this) firstBytes secondBytes players),
     mkHeap (recordArrays h ++ [sort (Utils.comparePlayers localeCompare) players])
            (byteArrays h)).
Proof.
  intros Hplayers Hfirst Hsecond L1 L2 Hok. pose proof Hok as [Hstart Hfit].
  set (cfg := pesConfig this) in *.
  set (total := Utils.decimalToBytes (Z.of_nat (length players))).
  set (sorted := sort (Utils.comparePlayers localeCompare) players).
  set (tail := Uint8Array.zeros (COMMENTARY_START_OFFSET cfg - 144)
               ++ Uint8Array.zeros (length sorted * RECORD_SIZE cfg)).
  assert (Hsorted : length sorted = length players)
    by (apply Permutation_length, sort_perm).
  assert (Z0 : Uint8Array.zeros (COMMENTARY_START_OFFSET cfg + length players * RECORD_SIZE cfg)
               = Uint8Array.zeros 16 ++ Uint8Array.zeros 4 ++ Uint8Array.zeros 16
                 ++ Uint8Array.zeros 104 ++ Uint8Array.zeros 4 ++ tail).
  { unfold tail, Uint8Array.zeros. rewrite <- !replicate_add. f_equal. lia. }
  unfold Parser.save. cbv zeta. fold cfg.
  rewrite (bind_getRecords _ _ _ _ Hplayers).
  rewrite (bind_getBytes _ _ _ _ Hfirst).
  rewrite Z0.
  erewrite bind_orRangeError.
  2:{ apply (set_at _ _ _ [] (Uint8Array.zeros 16)); [reflexivity|reflexivity|].
      now rewrite L1. }
  erewrite bind_orRangeError.
  2:{ apply (set_at _ _ _ firstBytes (Uint8Array.zeros 4)); [reassoc|now rewrite L1|].
      reflexivity. }
  fold total.
  rewrite (bind_getBytes _ _ _ _ Hsecond).
  erewrite bind_orRangeError.
  2:{ apply (set_at _ _ _ (firstBytes ++ total) (Uint8Array.zeros 16)); [reassoc| |].
      - rewrite length_app, L1. reflexivity.
      - now rewrite L2. }
  unfold bind at 1. rewrite (sortAndCountPlayers_run _ _ _ _ Hplayers).
  cbv beta iota.
  rewrite counted_values. fold sorted.
  erewrite bind_orRangeError.
  2:{ rewrite <- !app_assoc.
      rewrite (app_assoc firstBytes), (app_assoc (firstBytes ++ total)).
      apply writeAlphabetIndex_run.
      - rewrite !length_app, L1, L2. reflexivity.
      - reflexivity. }
  rewrite index_sums.
  change (seq 0 26) with (seq 0 25 ++ [25]).
  rewrite !map_app, concat_app, map_map.
  change (concat (map (fun s => Utils.decimalToBytes (Z.of_nat s))
                      (map (cumulativeCount players) [25])))
    with (Utils.decimalToBytes (Z.of_nat (cumulativeCount players 25)) ++ []).
  rewrite app_nil_r.
  set (index := concat (map (fun i => Utils.decimalToBytes (Z.of_nat (cumulativeCount players i)))
                            (seq 0 25))).
  assert (Hindex : length index = 100) by (unfold index; now rewrite concat_u32_length).
  rewrite (bind_getRecords _ _ players)
    by (cbn [recordArrays]; apply lookup_app_l_Some, Hplayers).
  fold total.
  erewrite bind_orRangeError.
  2:{ apply (set_at _ _ _ (firstBytes ++ total ++ secondBytes ++ index)
                    (Utils.decimalToBytes (Z.of_nat (cumulativeCount players 25))));
        [reassoc| |reflexivity].
      rewrite !length_app, L1, L2, Hindex. reflexivity. }
  erewrite bind_orRangeError.
  2:{ apply (set_at _ _ _ ((firstBytes ++ total ++ secondBytes ++ index) ++ total)
                    (Uint8Array.zeros 4));
        [reassoc| |reflexivity].
      rewrite !length_app, L1, L2, Hindex. reflexivity. }
  rewrite (bind_getRecords _ _ sorted).
  2:{ cbn [recordArrays]. rewrite lookup_app_r by lia. now rewrite Nat.sub_diag. }
  erewrite bind_orRangeError.
  2:{ unfold tail. rewrite !(app_assoc _ _ (Uint8Array.zeros (length sorted * _))).
      apply writeRecords_run; [assumption|].
      rewrite !length_app, L1, L2, Hindex. unfold Uint8Array.zeros.
      rewrite length_replicate. change (length total) with 4. lia. }
  unfold ret, encodedFile. fold cfg total index sorted. f_equal. f_equal. reassoc.
Qed.

Lemma encodedFile_length (localeCompare : jsstring -> jsstring -> Z) (pesConfig : PESConfig)
    (firstBytes secondBytes : list Z) (players : list CommentaryRecord.t) :
  length firstBytes = 16 -> length secondBytes = 16 -> layoutOk pesConfig ->
  length (encodedFile localeCompare pesConfig firstBytes secondBytes players)
  = COMMENTARY_START_OFFSET pesConfig + length players * RECORD_SIZE pesConfig.
Proof.
  intros L1 L2 Hok. pose proof Hok as [Hstart _]. unfold encodedFile.
  rewrite !length_app, L1, L2, concat_u32_length, concat_records_length by assumption.
  rewrite (Permutation_length (sort_perm _ players)).
  rewrite decimalToBytes_length, length_seq. unfold Uint8Array.zeros.
  rewrite length_replicate. lia.
Qed.

Lemma slice_at (buffer a b c : list Z) (from to : nat) :
  buffer = a ++ b ++ c -> from = length a -> to = length a + length b ->
  Uint8Array.slice buffer from to = b.
Proof.
  intros -> -> ->. unfold Uint8Array.slice.
  rewrite drop_app_length. replace (length a + length b - length a) with (length b) by lia.
  apply take_app_length.
Qed.

Lemma readUint32LE_in (buffer a c : list Z) (v : Z) (offset : nat) :
  buffer = a ++ Utils.decimalToBytes v ++ c -> offset = length a ->
  (0 <= v < 2 ^ 32)%Z ->
  readUint32LE buffer offset = v.
Proof.
  intros -> Ho Hv. rewrite readUint32LE_at by assumption. now apply Z.mod_small.
Qed.

(** C6. On a parser whose metadata has its two spans of 16 bytes and whose
    layout keeps header and records apart, [save] returns a buffer of
    [COMMENTARY_START_OFFSET + n * RECORD_SIZE] bytes for [n] records, which
    holds the first span at offset 0, [n] as a little-endian 32-bit integer
    at offset 16, the second span at offset 20, and [n] again at offsets 136
    and 140, the slot at 136 no longer holding the cumulative count written
    there before. *)
Theorem save_buffer_layout
    (localeCompare : jsstring -> jsstring -> Z) (this : PESCommentaryListParser)
    (h : Heap) (players : list CommentaryRecord.t) (firstBytes secondBytes : list Z)
    (Hplayers : recordArrays h !! playerList this = Some players)
    (Hfirst : byteArrays h !! first (metadata this) = Some firstBytes)
    (Hsecond : byteArrays h !! second (metadata this) = Some secondBytes)
    (L1 : length firstBytes = 16) (L2 : length secondBytes = 16)
    (Hok : layoutOk (pesConfig this))
    (Hcount : (Z.of_nat (length players) < 2 ^ 32)%Z) :
  exists buffer h',
    Parser.save localeCompare this h = (Return buffer, h') /\
    length buffer = COMMENTARY_START_OFFSET (pesConfig this)
                    + length players * RECORD_SIZE (pesConfig this) /\
    Uint8Array.slice buffer 0 16 = firstBytes /\
    Uint8Array.slice buffer 16 20 = Utils.decimalToBytes (Z.of_nat (length players)) /\
    readUint32LE buffer 16 = Z.of_nat (length players) /\
    Uint8Array.slice buffer 20 36 = secondBytes /\
    readUint32LE buffer 136 = Z.of_nat (length players) /\
    readUint32LE buffer 140 = Z.of_nat (length players).
Proof.
  eexists _, _.
  split; [exact (save_run localeCompare _ _ _ _ _ Hplayers Hfirst Hsecond L1 L2 Hok)|].
  split; [now apply encodedFile_length|].
  unfold encodedFile.
  set (total := Utils.decimalToBytes (Z.of_nat (length players))).
  set (index := concat (map (fun i => Utils.decimalToBytes (Z.of_nat (cumulativeCount players i)))
                            (seq 0 25))).
  assert (Hindex : length index = 100) by (unfold index; now rewrite concat_u32_length).
  set (rest := Uint8Array.zeros _ ++ _).
  assert (Hn : (0 <= Z.of_nat (length players) < 2 ^ 32)%Z) by lia.
  repeat split.
  - apply (slice_at _ [] firstBytes (total ++ secondBytes ++ index ++ total ++ total ++ rest));
      [reflexivity|reflexivity|now rewrite L1].
  - apply (slice_at _ firstBytes total (secondBytes ++ index ++ total ++ total ++ rest));
      [reflexivity|now rewrite L1|now rewrite L1].
  - apply (readUint32LE_in _ firstBytes (secondBytes ++ index ++ total ++ total ++ rest));
      [reflexivity|now rewrite L1|assumption].
  - apply (slice_at _ (firstBytes ++ total) secondBytes (index ++ total ++ total ++ rest));
      [reassoc| |]; rewrite length_app, L1, ?L2; reflexivity.
  - apply (readUint32LE_in _ (firstBytes ++ total ++ secondBytes ++ index) (total ++ rest));
      [reassoc| |assumption].
    rewrite !length_app, L1, L2, Hindex. reflexivity.
  - apply (readUint32LE_in _ (firstBytes ++ total ++ secondBytes ++ index ++ total) rest);
      [reassoc| |assumption].
    rewrite !length_app, L1, L2, Hindex. reflexivity.
Qed.

(* ===================================================================== *)
(** ** UTF-8 and UTF-16                                                    *)
(* ===================================================================== *)

Lemma lor_high (k n y : Z) :
  (0 <= n -> 0 <= y < 2 ^ n -> Z.lor (k * 2 ^ n) y = k * 2 ^ n + y)%Z.
Proof.
  intros Hn Hy.
  assert (E : Z.land (k * 2 ^ n) y = 0%Z).
  { rewrite <- (Z.mod_small y (2 ^ n)) by lia.
    rewrite <- (Z.land_ones y n) by lia.
    rewrite (Z.land_comm y), Z.land_assoc, Z.land_ones by lia.
    rewrite Z.mod_mul by lia. apply Z.land_0_l. }
  pose proof (Z.add_lor_land (k * 2 ^ n) y). lia.
Qed.

Ltac euclid := Z.to_euclidean_division_equations; lia.

Ltac decide_tests :=
  repeat match goal with
  | |- context [(?a <=? ?b)%Z] =>
      first [ rewrite (proj2 (Z.leb_le a b)) by euclid
            | rewrite (proj2 (Z.leb_gt a b)) by euclid ]
  | |- context [(?a =? ?b)%Z] =>
      first [ rewrite (proj2 (Z.eqb_eq a b)) by euclid
            | rewrite (proj2 (Z.eqb_neq a b)) by euclid ]
  end; cbn [andb orb negb].

(** The test of the decoder on the number of bytes seen, at given numbers. *)
Ltac decide_count :=
  first [ rewrite (proj2 (Z.eqb_eq (_ + 1) _)) by lia
        | rewrite (proj2 (Z.eqb_neq (_ + 1) _)) by lia ];
  cbn [fst snd app].

(** *** The encoder in arithmetic *)

Lemma encodeScalar_1 (cp : Z) :
  (0 <= cp <= 0x7F)%Z -> TextEncoder.encodeScalar cp = [cp].
Proof. intros H. unfold TextEncoder.encodeScalar. now decide_tests. Qed.

Lemma encodeScalar_2 (cp : Z) :
  (0x80 <= cp <= 0x7FF)%Z ->
  TextEncoder.encodeScalar cp = [0xC0 + cp / 64; 0x80 + cp mod 64]%Z.
Proof.
  intros H. unfold TextEncoder.encodeScalar. decide_tests.
  change 0x3F%Z with (Z.ones 6). rewrite Z.land_ones, Z.shiftr_div_pow2 by lia.
  change 0xC0%Z with (6 * 2 ^ 5)%Z. change 0x80%Z with (2 * 2 ^ 6)%Z.
  rewrite !lor_high; try lia; try euclid. reflexivity.
Qed.

Lemma encodeScalar_3 (cp : Z) :
  (0x800 <= cp <= 0xFFFF)%Z ->
  TextEncoder.encodeScalar cp =
    [0xE0 + cp / 4096; 0x80 + (cp / 64) mod 64; 0x80 + cp mod 64]%Z.
Proof.
  intros H. unfold TextEncoder.encodeScalar. decide_tests.
  change 0x3F%Z with (Z.ones 6). rewrite !Z.land_ones, !Z.shiftr_div_pow2 by lia.
  change 0xE0%Z with (14 * 2 ^ 4)%Z. change 0x80%Z with (2 * 2 ^ 6)%Z.
  rewrite !lor_high; try lia; try euclid. reflexivity.
Qed.

Lemma encodeScalar_4 (cp : Z) :
  (0x10000 <= cp <= 0x10FFFF)%Z ->
  TextEncoder.encodeScalar cp =
    [0xF0 + cp / 262144; 0x80 + (cp / 4096) mod 64;
     0x80 + (cp / 64) mod 64; 0x80 + cp mod 64]%Z.
Proof.
  intros H. unfold TextEncoder.encodeScalar. decide_tests.
  change 0x3F%Z with (Z.ones 6). rewrite !Z.land_ones, !Z.shiftr_div_pow2 by lia.
  change 0xF0%Z with (30 * 2 ^ 3)%Z. change 0x80%Z with (2 * 2 ^ 6)%Z.
  rewrite !lor_high; try lia; try euclid. reflexivity.
Qed.

(** *** The decoder in arithmetic *)

Lemma scalarsFrom_cons (st : TextDecoder.State) (b : Z) (r : list Z) :
  TextDecoder.scalarsFrom st (b :: r) =
  fst (TextDecoder.step st b) ++ TextDecoder.scalarsFrom (snd (TextDecoder.step st b)) r.
Proof. simpl. now destruct (TextDecoder.step st b). Qed.

Lemma step_initial (b : Z) :
  TextDecoder.step TextDecoder.initial b = TextDecoder.lead b.
Proof. reflexivity. Qed.

Lemma lead_one (b : Z) :
  (0 <= b <= 0x7F)%Z -> TextDecoder.lead b = ([b], TextDecoder.initial).
Proof. intros H. unfold TextDecoder.lead. now decide_tests. Qed.

Lemma lead_two (b : Z) :
  (0xC2 <= b <= 0xDF)%Z ->
  TextDecoder.lead b = ([], TextDecoder.mkState (b mod 32) 0 1 0x80 0xBF).
Proof.
  intros H. unfold TextDecoder.lead. decide_tests.
  change 0x1F%Z with (Z.ones 5). now rewrite Z.land_ones by lia.
Qed.

Lemma lead_three (b : Z) :
  (0xE0 <= b <= 0xEF)%Z ->
  TextDecoder.lead b =
    ([], TextDecoder.mkState (b mod 16) 0 2
           (if (b =? 0xE0)%Z then 0xA0 else 0x80)%Z
           (if (b =? 0xED)%Z then 0x9F else 0xBF)%Z).
Proof.
  intros H. unfold TextDecoder.lead.
  assert (((0x00 <=? b) && (b <=? 0x7F))%Z = false) as ->
    by (apply andb_false_iff; right; apply Z.leb_gt; lia).
  assert (((0xC2 <=? b) && (b <=? 0xDF))%Z = false) as ->
    by (apply andb_false_iff; right; apply Z.leb_gt; lia).
  assert (((0xE0 <=? b) && (b <=? 0xEF))%Z = true) as ->
    by (apply andb_true_iff; split; apply Z.leb_le; lia).
  change 0xF%Z with (Z.ones 4). now rewrite Z.land_ones by lia.
Qed.

Lemma lead_four (b : Z) :
  (0xF0 <= b <= 0xF4)%Z ->
  TextDecoder.lead b =
    ([], TextDecoder.mkState (b mod 8) 0 3
           (if (b =? 0xF0)%Z then 0x90 else 0x80)%Z
           (if (b =? 0xF4)%Z then 0x8F else 0xBF)%Z).
Proof.
  intros H. unfold TextDecoder.lead.
  assert (((0x00 <=? b) && (b <=? 0x7F))%Z = false) as ->
    by (apply andb_false_iff; right; apply Z.leb_gt; lia).
  assert (((0xC2 <=? b) && (b <=? 0xDF))%Z = false) as ->
    by (apply andb_false_iff; right; apply Z.leb_gt; lia).
  assert (((0xE0 <=? b) && (b <=? 0xEF))%Z = false) as ->
    by (apply andb_false_iff; right; apply Z.leb_gt; lia).
  assert (((0xF0 <=? b) && (b <=? 0xF4))%Z = true) as ->
    by (apply andb_true_iff; split; apply Z.leb_le; lia).
  change 0x7%Z with (Z.ones 3). now rewrite Z.land_ones by lia.
Qed.

(** A continuation byte within the boundaries. *)
Lemma step_continue (acc seen needed lo hi b : Z) :
  needed <> 0%Z -> (lo <= b <= hi)%Z ->
  TextDecoder.step (TextDecoder.mkState acc seen needed lo hi) b =
    if (seen + 1 =? needed)%Z
    then ([acc * 64 + b mod 64]%Z, TextDecoder.initial)
    else ([], TextDecoder.mkState (acc * 64 + b mod 64)%Z (seen + 1)%Z needed 0x80 0xBF).
Proof.
  intros Hn Hb. unfold TextDecoder.step.
  cbn [TextDecoder.bytesNeeded TextDecoder.lowerBoundary TextDecoder.upperBoundary
       TextDecoder.codePoint TextDecoder.bytesSeen].
  assert ((needed =? 0)%Z = false) as -> by (apply Z.eqb_neq; assumption).
  assert (((lo <=? b) && (b <=? hi))%Z = true) as ->
    by (apply andb_true_iff; split; apply Z.leb_le; lia).
  cbn [negb].
  change 0x3F%Z with (Z.ones 6).
  rewrite Z.land_ones, Z.shiftl_mul_pow2 by lia.
  rewrite lor_high by (try lia; apply Z.mod_pos_bound; lia).
  reflexivity.
Qed.

Lemma isScalar_spec (cp : Z) :
  isScalar cp = true <-> (0 <= cp <= 0x10FFFF /\ ~ (0xD800 <= cp <= 0xDFFF))%Z.
Proof.
  unfold isScalar.
  rewrite !andb_true_iff, negb_true_iff, andb_false_iff, !Z.leb_le, !Z.leb_gt. lia.
Qed.

(** The decoder reads the bytes of a scalar value as that scalar value,
    whatever follows. *)
Lemma scalar_roundtrip (cp : Z) (rest : list Z) :
  isScalar cp = true ->
  TextDecoder.scalarsFrom TextDecoder.initial (TextEncoder.encodeScalar cp ++ rest)
  = cp :: TextDecoder.scalarsFrom TextDecoder.initial rest.
Proof.
  intros Hs. apply isScalar_spec in Hs. destruct Hs as [Hr Hsur].
  destruct (Z.le_gt_cases cp 0x7F) as [H1|H1];
    [|destruct (Z.le_gt_cases cp 0x7FF) as [H2|H2];
      [|destruct (Z.le_gt_cases cp 0xFFFF) as [H3|H3]]].
  - rewrite encodeScalar_1 by lia. cbn [app].
    rewrite scalarsFrom_cons, step_initial, lead_one by lia. reflexivity.
  - rewrite encodeScalar_2 by lia. cbn [app].
    rewrite scalarsFrom_cons, step_initial, lead_two by euclid. cbn [fst snd app].
    rewrite scalarsFrom_cons, step_continue by (try discriminate; euclid).
    decide_count. f_equal. euclid.
  - rewrite encodeScalar_3 by lia. cbn [app].
    rewrite scalarsFrom_cons, step_initial, lead_three by euclid. cbn [fst snd app].
    rewrite scalarsFrom_cons, step_continue.
    2:{ discriminate. }
    2:{ destruct (Z.eqb_spec (224 + cp / 4096) 224), (Z.eqb_spec (224 + cp / 4096) 237);
          euclid. }
    decide_count.
    rewrite scalarsFrom_cons, step_continue by (try discriminate; euclid).
    decide_count. f_equal. euclid.
  - rewrite encodeScalar_4 by lia. cbn [app].
    rewrite scalarsFrom_cons, step_initial, lead_four by euclid. cbn [fst snd app].
    rewrite scalarsFrom_cons, step_continue.
    2:{ discriminate. }
    2:{ destruct (Z.eqb_spec (240 + cp / 262144) 240), (Z.eqb_spec (240 + cp / 262144) 244);
          euclid. }
    decide_count.
    rewrite scalarsFrom_cons, step_continue by (try discriminate; euclid).
    decide_count.
    rewrite scalarsFrom_cons, step_continue by (try discriminate; euclid).
    decide_count. f_equal. euclid.
Qed.

Lemma scalars_roundtrip (cps rest : list Z) :
  Forall (fun cp => isScalar cp = true) cps ->
  TextDecoder.scalarsFrom TextDecoder.initial (flat_map TextEncoder.encodeScalar cps ++ rest)
  = cps ++ TextDecoder.scalarsFrom TextDecoder.initial rest.
Proof.
  induction 1 as [|cp cps Hcp _ IH]; [reflexivity|].
  simpl flat_map. rewrite <- app_assoc, scalar_roundtrip by assumption.
  now rewrite IH.
Qed.

Lemma scalarsFrom_zeros (k : nat) :
  TextDecoder.scalarsFrom TextDecoder.initial (replicate k 0%Z) = replicate k 0%Z.
Proof. induction k as [|k IH]; [reflexivity|]. simpl. now rewrite IH. Qed.

Lemma list_ind2 {A} (P : list A -> Prop) :
  P [] -> (forall x, P [x]) ->
  (forall x y l, P l -> P (y :: l) -> P (x :: y :: l)) ->
  forall l, P l.
Proof.
  intros H0 H1 H2 l.
  assert (H : P l /\ forall x, P (x :: l)); [|tauto].
  induction l as [|y l [IHa IHb]]; [auto|].
  split; [apply IHb|]. intros x. apply H2; [assumption|apply IHb].
Qed.

Lemma scalars_unfold (c d : Z) (r : jsstring) :
  TextEncoder.scalars (c :: d :: r) =
  if TextEncoder.isLeadSurrogate c then
    if TextEncoder.isTrailSurrogate d
    then (0x10000 + (c - 0xD800) * 0x400 + (d - 0xDC00))%Z :: TextEncoder.scalars r
    else 0xFFFD%Z :: TextEncoder.scalars (d :: r)
  else if TextEncoder.isTrailSurrogate c then 0xFFFD%Z :: TextEncoder.scalars (d :: r)
  else c :: TextEncoder.scalars (d :: r).
Proof. reflexivity. Qed.

Ltac surrogate_bounds :=
  unfold TextEncoder.isLeadSurrogate, TextEncoder.isTrailSurrogate, isScalar in *;
  repeat match goal with
         | H : _ && _ = true |- _ => apply andb_true_iff in H; destruct H
         | H : _ && _ = false |- _ => apply andb_false_iff in H
         | H : negb _ = true |- _ => apply negb_true_iff in H
         | H : (_ <=? _)%Z = true |- _ => apply Z.leb_le in H
         | H : (_ <=? _)%Z = false |- _ => apply Z.leb_gt in H
         end.

(** Every code point that the encoder takes from a string is a scalar
    value. *)
Lemma scalars_are_scalar (s : jsstring) :
  Forall (fun c => (0 < c <= 0xFFFF)%Z) s ->
  Forall (fun cp => isScalar cp = true) (TextEncoder.scalars s).
Proof.
  induction s as [| c | c d r IHr IHdr] using list_ind2; intros Hs.
  - constructor.
  - apply Forall_cons in Hs. destruct Hs as [Hc _]. simpl.
    destruct (TextEncoder.isLeadSurrogate c) eqn:L; [now repeat constructor|].
    destruct (TextEncoder.isTrailSurrogate c) eqn:T; [now repeat constructor|].
    repeat constructor. surrogate_bounds.
    rewrite !andb_true_iff, negb_true_iff, andb_false_iff, !Z.leb_le, !Z.leb_gt. lia.
  - pose proof Hs as Hs'. apply Forall_cons in Hs'. destruct Hs' as [Hc Hdr].
    pose proof Hdr as Hdr'. apply Forall_cons in Hdr'. destruct Hdr' as [Hd Hr].
    rewrite scalars_unfold.
    destruct (TextEncoder.isLeadSurrogate c) eqn:L.
    + destruct (TextEncoder.isTrailSurrogate d) eqn:T.
      * constructor; [|now apply IHr]. surrogate_bounds.
        rewrite !andb_true_iff, negb_true_iff, andb_false_iff, !Z.leb_le, !Z.leb_gt. lia.
      * constructor; [reflexivity|now apply IHdr].
    + destruct (TextEncoder.isTrailSurrogate c) eqn:T.
      * constructor; [reflexivity|now apply IHdr].
      * constructor; [|now apply IHdr]. surrogate_bounds.
        rewrite !andb_true_iff, negb_true_iff, andb_false_iff, !Z.leb_le, !Z.leb_gt. lia.
Qed.

Lemma toUtf16_pair (c d : Z) :
  TextEncoder.isLeadSurrogate c = true -> TextEncoder.isTrailSurrogate d = true ->
  TextDecoder.toUtf16 (0x10000 + (c - 0xD800) * 0x400 + (d - 0xDC00))%Z = [c; d].
Proof.
  intros L T. surrogate_bounds. unfold TextDecoder.toUtf16.
  assert ((0x10000 + (c - 0xD800) * 0x400 + (d - 0xDC00) <=? 0xFFFF)%Z = false) as ->
    by (apply Z.leb_gt; lia).
  change 0x3FF%Z with (Z.ones 10).
  rewrite Z.land_ones, Z.shiftr_div_pow2 by lia. change (2 ^ 10)%Z with 1024%Z.
  f_equal; [|f_equal]; Z.to_euclidean_division_equations; lia.
Qed.

Lemma toUtf16_unit (c : Z) : (c <= 0xFFFF)%Z -> TextDecoder.toUtf16 c = [c].
Proof.
  intros H. unfold TextDecoder.toUtf16.
  now assert ((c <=? 0xFFFF)%Z = true) as -> by (apply Z.leb_le; lia).
Qed.

(** A well-formed string is the UTF-16 form of its scalar values. *)
Lemma utf16_roundtrip (s : jsstring) :
  Forall (fun c => (0 < c <= 0xFFFF)%Z) s -> isWellFormed s = true ->
  flat_map TextDecoder.toUtf16 (TextEncoder.scalars s) = s.
Proof.
  induction s as [| c | c d r IHr IHdr] using list_ind2; intros Hs Hwf.
  - reflexivity.
  - apply Forall_cons in Hs. destruct Hs as [Hc _]. simpl in *.
    destruct (TextEncoder.isLeadSurrogate c); [discriminate|].
    destruct (TextEncoder.isTrailSurrogate c); [discriminate|].
    simpl. rewrite toUtf16_unit by lia. reflexivity.
  - pose proof Hs as Hs'. apply Forall_cons in Hs'. destruct Hs' as [Hc Hdr].
    pose proof Hdr as Hdr'. apply Forall_cons in Hdr'. destruct Hdr' as [Hd Hr].
    rewrite scalars_unfold.
    change (isWellFormed (c :: d :: r))
      with (if TextEncoder.isLeadSurrogate c
            then TextEncoder.isTrailSurrogate d && isWellFormed r
            else negb (TextEncoder.isTrailSurrogate c) && isWellFormed (d :: r)) in Hwf.
    destruct (TextEncoder.isLeadSurrogate c) eqn:L.
    + apply andb_true_iff in Hwf. destruct Hwf as [T Hwf]. rewrite T.
      cbn [flat_map]. rewrite toUtf16_pair by assumption.
      now rewrite IHr.
    + apply andb_true_iff in Hwf. destruct Hwf as [T Hwf].
      apply negb_true_iff in T. rewrite T.
      cbn [flat_map]. rewrite toUtf16_unit by lia.
      now rewrite IHdr.
Qed.

(** The first scalar value of a well-formed string is its first code unit
    or lies beyond the code units. *)
Lemma scalars_head (c : Z) (r : jsstring) :
  isWellFormed (c :: r) = true ->
  exists cp cps, TextEncoder.scalars (c :: r) = cp :: cps /\ (cp = c \/ (0x10000 <= cp)%Z).
Proof.
  destruct r as [|d r]; simpl.
  - destruct (TextEncoder.isLeadSurrogate c); [discriminate|].
    destruct (TextEncoder.isTrailSurrogate c); [discriminate|]. eauto.
  - destruct (TextEncoder.isLeadSurrogate c) eqn:L.
    + intros H. apply andb_true_iff in H. destruct H as [T _]. rewrite T.
      eexists _, _. split; [reflexivity|]. right. surrogate_bounds. lia.
    + destruct (TextEncoder.isTrailSurrogate c); [discriminate|]. eauto.
Qed.

(** Decoding the bytes of a string followed by zero bytes gives the string
    followed by as many NULs, for a well-formed string that does not start
    with U+FEFF. *)
Lemma decode_encode_padded (s : jsstring) (k : nat) :
  Forall (fun c => (0 < c <= 0xFFFF)%Z) s -> isWellFormed s = true ->
  (forall r, s <> 0xFEFF%Z :: r) ->
  TextDecoder.decode (TextEncoder.encode s ++ replicate k 0%Z) = s ++ replicate k 0%Z.
Proof.
  intros Hs Hwf Hbom. unfold TextDecoder.decode, TextEncoder.encode.
  rewrite scalars_roundtrip by now apply scalars_are_scalar.
  rewrite scalarsFrom_zeros.
  assert (Hstrip : TextDecoder.stripBOM (TextEncoder.scalars s ++ replicate k 0%Z)
                   = TextEncoder.scalars s ++ replicate k 0%Z).
  { destruct s as [|c r].
    - simpl. destruct k; reflexivity.
    - destruct (scalars_head c r Hwf) as (cp & cps & E & Hcp). rewrite E. simpl.
      assert ((cp =? 0xFEFF)%Z = false) as ->; [|reflexivity].
      apply Z.eqb_neq. destruct Hcp as [->|Hcp]; [|lia].
      intros E'. subst c. exact (Hbom r eq_refl). }
  rewrite Hstrip, flat_map_app. rewrite (utf16_roundtrip s Hs Hwf). f_equal.
  clear Hstrip. induction k as [|k IH]; [reflexivity|].
  change (replicate (S k) 0%Z) with (0%Z :: replicate k 0%Z).
  cbn [flat_map]. rewrite IH. reflexivity.
Qed.

(* ===================================================================== *)
(** ** Reading a field back                                                *)
(* ===================================================================== *)

Lemma replaceNulTail_padding (s : jsstring) (k : nat) :
  Forall (fun c => (0 < c <= 0xFFFF)%Z) s ->
  replaceNulTail (s ++ replicate k 0%Z) = s.
Proof.
  induction 1 as [|c r Hc _ IH].
  - destruct k as [|k]; [reflexivity|]. simpl.
    assert (forallb (fun d => negb (isLineTerminator d)) (replicate k 0%Z) = true) as ->;
      [|reflexivity].
    induction k as [|k IHk]; [reflexivity|]. simpl. exact IHk.
  - simpl. assert ((c =? 0)%Z = false) as -> by (apply Z.eqb_neq; lia).
    simpl. now rewrite IH.
Qed.

Lemma trimStart_length (s : jsstring) : length (trimStart s) <= length s.
Proof.
  induction s as [|c r IH]; simpl; [lia|]. destruct (isWhiteSpace c); simpl; lia.
Qed.

Lemma trim_length (s : jsstring) : length (trim s) <= length (trimStart s).
Proof.
  unfold trim, trimEnd. rewrite length_rev.
  etransitivity; [apply trimStart_length|]. now rewrite length_rev.
Qed.

(** A string that [trim] leaves alone does not start with white space; in
    particular not with U+FEFF. *)
Lemma trim_fixed_head (c : Z) (r : jsstring) :
  trim (c :: r) = c :: r -> isWhiteSpace c = false.
Proof.
  intros H. destruct (isWhiteSpace c) eqn:W; [|reflexivity].
  pose proof (trim_length (c :: r)) as L. rewrite H in L.
  simpl trimStart in L. rewrite W in L.
  pose proof (trimStart_length r). simpl in L. lia.
Qed.

(** A field of [width] bytes gives back the string it was filled with. *)
Lemma fitsField_spec (width : nat) (s : jsstring) :
  fitsField width s = true ->
  Forall (fun c => (0 < c <= 0xFFFF)%Z) s /\
  isWellFormed s = true /\
  trim s = s /\
  length (TextEncoder.encode s) <= width.
Proof.
  unfold fitsField. rewrite !andb_true_iff, eqString_true, Nat.leb_le, forallb_forall.
  intros (((Hs & Hwf) & Htrim) & Hlen). repeat split; try assumption.
  apply Forall_forall. intros c Hc. apply list_elem_of_In, Hs in Hc.
  apply andb_true_iff in Hc. destruct Hc as [H0 H1].
  apply Z.ltb_lt in H0. apply Z.leb_le in H1. lia.
Qed.

Lemma cleanString_field (width : nat) (s : jsstring) :
  fitsField width s = true ->
  Utils.cleanString (padded width (TextEncoder.encode s)) = s.
Proof.
  intros Hfits. apply fitsField_spec in Hfits. destruct Hfits as (Hs & Hwf & Htrim & Hlen).
  unfold Utils.cleanString, padded, Uint8Array.zeros.
  rewrite decode_encode_padded; [|assumption..|].
  - now rewrite replaceNulTail_padding.
  - intros r ->. apply trim_fixed_head in Htrim. discriminate.
Qed.

Lemma slice_prefix (a b c : list Z) (from to : nat) :
  from = length a -> to = length a + length b ->
  Uint8Array.slice (a ++ b ++ c) from to = b.
Proof. intros. now apply (slice_at _ a b c). Qed.

(** The record at the start of the records that follow a prefix [a]. *)
Lemma recordAtOffset_head (pesConfig : PESConfig) (player : CommentaryRecord.t)
    (a rest : list Z) :
  layoutOk pesConfig -> PLAYER_NAME_OFFSET pesConfig = 0 ->
  recordFits pesConfig player = true ->
  recordAtOffset pesConfig (a ++ encodedRecord pesConfig player ++ rest) (length a) = player.
Proof.
  intros [_ Hfit] Hpad Hrec. apply andb_true_iff in Hrec. destruct Hrec as [Hkey Hname].
  destruct player as [key name]. simpl in *.
  pose proof (fitsField_spec _ _ Hkey) as (_ & _ & _ & Lk).
  pose proof (fitsField_spec _ _ Hname) as (_ & _ & _ & Ln).
  unfold recordAtOffset, Utils.readString, encodedRecord. simpl.
  rewrite Hpad. simpl. rewrite !take_ge by lia.
  rewrite Nat.add_0_r.
  f_equal.
  - rewrite <- (app_assoc (padded _ _)).
    rewrite slice_prefix; [now apply cleanString_field|reflexivity|].
    now rewrite padded_length.
  - set (K := padded (COMMENTARY_NAME_LENGTH pesConfig) (TextEncoder.encode key)).
    assert (LK : length K = COMMENTARY_NAME_LENGTH pesConfig) by now apply padded_length.
    assert (E : padded (RECORD_SIZE pesConfig - COMMENTARY_NAME_LENGTH pesConfig)
                       (TextEncoder.encode name)
                = padded (PLAYER_NAME_LENGTH pesConfig) (TextEncoder.encode name)
                  ++ Uint8Array.zeros (RECORD_SIZE pesConfig - COMMENTARY_NAME_LENGTH pesConfig
                                       - PLAYER_NAME_LENGTH pesConfig)).
    { unfold padded, Uint8Array.zeros. rewrite <- app_assoc, <- replicate_add.
      f_equal. f_equal. lia. }
    rewrite E, <- !app_assoc, (app_assoc a K).
    rewrite slice_prefix; [now apply cleanString_field| |].
    + rewrite length_app. lia.
    + rewrite length_app, padded_length by assumption. lia.
Qed.

(** Reading the records of a file back, stride by stride. *)
Lemma records_read_back (pesConfig : PESConfig) (l : list CommentaryRecord.t) (a : list Z) :
  layoutOk pesConfig -> PLAYER_NAME_OFFSET pesConfig = 0 ->
  forallb (recordFits pesConfig) l = true ->
  map (fun i => recordAtOffset pesConfig (a ++ concat (map (encodedRecord pesConfig) l))
                               (length a + i * RECORD_SIZE pesConfig))
      (seq 0 (length l)) = l.
Proof.
  intros Hok Hpad. revert a.
  induction l as [|x r IH]; intros a Hall; [reflexivity|].
  simpl in Hall. apply andb_true_iff in Hall. destruct Hall as [Hx Hr].
  rewrite map_cons, concat_cons. simpl length. simpl seq. rewrite map_cons.
  f_equal.
  - rewrite Nat.add_0_r. now apply recordAtOffset_head.
  - rewrite <- seq_shift, map_map.
    rewrite <- (IH (a ++ encodedRecord pesConfig x) Hr) at 2.
    apply map_ext. intros i. rewrite <- app_assoc. f_equal.
    rewrite length_app, encodedRecord_length by assumption. simpl. lia.
Qed.

Lemma encodedFile_valid (localeCompare : jsstring -> jsstring -> Z) (pesConfig : PESConfig)
    (firstBytes secondBytes : list Z) (players : list CommentaryRecord.t) :
  acceptedMetadata firstBytes secondBytes ->
  Utils.isBinaryValid (encodedFile localeCompare pesConfig firstBytes secondBytes players)
  = true.
Proof.
  intros (L1 & Hmagic & L2 & Hzero). apply isBinaryValid_spec. unfold encodedFile. split.
  - rewrite take_app_le by lia. assumption.
  - intros i b Hi. set (rest := concat _ ++ _).
    rewrite lookup_app_r by lia.
    rewrite lookup_app_r by (rewrite decimalToBytes_length; lia).
    rewrite decimalToBytes_length, L1.
    rewrite lookup_app_l by lia.
    replace (i - 16 - 4) with (4 + (i - 24)) by lia.
    rewrite <- lookup_drop, Hzero. intros Hb.
    apply lookup_replicate in Hb. tauto.
Qed.

(** Decoding what [save] returns, on a layout without padding before the
    name: the metadata and the records of the sorted copy come back. *)
Lemma parse_encodedFile (localeCompare : jsstring -> jsstring -> Z) (pesConfig : PESConfig)
    (firstBytes secondBytes : list Z) (players : list CommentaryRecord.t)
    (h : Heap) (fuel : nat) :
  acceptedMetadata firstBytes secondBytes ->
  layoutOk pesConfig -> PLAYER_NAME_OFFSET pesConfig = 0 -> 0 < RECORD_SIZE pesConfig ->
  forallb (recordFits pesConfig) players = true ->
  length players < fuel ->
  Parser.parse fuel (encodedFile localeCompare pesConfig firstBytes secondBytes players)
               pesConfig h =
    Some (Return (mkParser pesConfig
                    (mkMetadata (length (byteArrays h)) (S (length (byteArrays h))))
                    (length (recordArrays h))),
          mkHeap (recordArrays h ++ [sort (Utils.comparePlayers localeCompare) players])
                 (byteArrays h ++ [firstBytes; secondBytes])).
Proof.
  intros Hmeta Hok Hpad Hsize Hall Hfuel.
  pose proof Hmeta as (L1 & _ & L2 & _). pose proof Hok as [Hstart _].
  set (file := encodedFile localeCompare pesConfig firstBytes secondBytes players).
  set (sorted := sort (Utils.comparePlayers localeCompare) players).
  assert (Hperm : Permutation sorted players) by apply sort_perm.
  assert (Hlen : length file
                 = COMMENTARY_START_OFFSET pesConfig + length players * RECORD_SIZE pesConfig)
    by now apply encodedFile_length.
  assert (Hcount : (length file - COMMENTARY_START_OFFSET pesConfig) / RECORD_SIZE pesConfig
                   = length sorted).
  { rewrite Hlen, (Permutation_length Hperm).
    replace (COMMENTARY_START_OFFSET pesConfig + length players * RECORD_SIZE pesConfig
             - COMMENTARY_START_OFFSET pesConfig)
      with (length players * RECORD_SIZE pesConfig) by lia.
    apply Nat.div_mul. lia. }
  rewrite parse_accepts; try assumption.
  2:{ rewrite Hcount, (Permutation_length Hperm). assumption. }
  2:{ lia. }
  2:{ now apply encodedFile_valid. }
  rewrite Hcount. f_equal. f_equal. f_equal.
  - f_equal. f_equal.
    set (total := Utils.decimalToBytes (Z.of_nat (length players))).
    set (index := concat (map (fun i => Utils.decimalToBytes
                                          (Z.of_nat (cumulativeCount players i)))
                              (seq 0 25))).
    assert (Hindex : length index = 100) by (unfold index; now rewrite concat_u32_length).
    set (header := firstBytes ++ total ++ secondBytes ++ index ++ total ++ total
                   ++ Uint8Array.zeros (COMMENTARY_START_OFFSET pesConfig - 144)).
    assert (Hfile : file = header ++ concat (map (encodedRecord pesConfig) sorted))
      by (unfold file, encodedFile, header; fold total index sorted; reassoc).
    assert (Hheader : length header = COMMENTARY_START_OFFSET pesConfig).
    { unfold header, Uint8Array.zeros.
      rewrite !length_app, L1, L2, Hindex, length_replicate.
      change (length total) with 4. lia. }
    unfold recordAt. rewrite Hfile, <- Hheader.
    apply records_read_back; [assumption..|].
    apply forallb_forall. intros x Hx.
    apply (proj1 (forallb_forall _ _) Hall).
    now apply (Permutation_in x Hperm).
  - f_equal. f_equal; [|f_equal].
    + apply (slice_at _ [] firstBytes
               (Utils.decimalToBytes (Z.of_nat (length players)) ++ secondBytes ++
                concat (map (fun i => Utils.decimalToBytes
                                        (Z.of_nat (cumulativeCount players i))) (seq 0 25)) ++
                Utils.decimalToBytes (Z.of_nat (length players)) ++
                Utils.decimalToBytes (Z.of_nat (length players)) ++
                Uint8Array.zeros (COMMENTARY_START_OFFSET pesConfig - 144) ++
                concat (map (encodedRecord pesConfig) sorted)));
        [reflexivity|reflexivity|now rewrite L1].
    + apply (slice_at _ (firstBytes ++ Utils.decimalToBytes (Z.of_nat (length players)))
               secondBytes
               (concat (map (fun i => Utils.decimalToBytes
                                        (Z.of_nat (cumulativeCount players i))) (seq 0 25)) ++
                Utils.decimalToBytes (Z.of_nat (length players)) ++
                Utils.decimalToBytes (Z.of_nat (length players)) ++
                Uint8Array.zeros (COMMENTARY_START_OFFSET pesConfig - 144) ++
                concat (map (encodedRecord pesConfig) sorted)));
        [unfold file, encodedFile; reassoc| |];
        rewrite length_app, L1, ?L2; reflexivity.
Qed.

(* ===================================================================== *)
(** ** Further facts about the encoder and the decoder                     *)
(* ===================================================================== *)

(** In the file that [save] returns, the slots of [A] to [Y] hold the
    cumulative counts; the slot of [Z], at offset 136, holds the number of
    records. *)
Lemma encodedFile_index (localeCompare : jsstring -> jsstring -> Z) (pesConfig : PESConfig)
    (firstBytes secondBytes : list Z) (players : list CommentaryRecord.t) (i : nat) :
  length firstBytes = 16 -> length secondBytes = 16 ->
  (Z.of_nat (length players) < 2 ^ 32)%Z -> i < 25 ->
  readUint32LE (encodedFile localeCompare pesConfig firstBytes secondBytes players)
               (36 + 4 * i)
  = Z.of_nat (cumulativeCount players i).
Proof.
  intros L1 L2 Hn Hi. unfold encodedFile.
  set (total := Utils.decimalToBytes (Z.of_nat (length players))).
  rewrite <- (map_map (cumulativeCount players)
                      (fun s => Utils.decimalToBytes (Z.of_nat s))).
  rewrite (app_assoc firstBytes), (app_assoc (firstBytes ++ total)).
  rewrite (readUint32LE_nth _ _ _ i).
  - rewrite (nth_indep _ 0 (cumulativeCount players 0)) by (rewrite length_map, length_seq; lia).
    rewrite (map_nth (cumulativeCount players)), seq_nth by lia.
    apply Z.mod_small. split; [lia|].
    pose proof (cumulativeCount_mono players i 25).
    pose proof (cumulativeCount_last players).
    pose proof (filter_length_le startsWithCapital players). lia.
  - rewrite !length_app, L1, L2. change (length total) with 4. lia.
  - rewrite length_map, length_seq. lia.
Qed.

(** With a header region shorter than 144 bytes and no record, the buffer of
    [save] is too short for the writes at 136 and 140, and [save] throws. *)
Lemma save_short_layout_throws :
  fst (Parser.save unitCompare
         (mkParser (mkConfig (lit "E_A1_P0_R") 100 16 0 64 80) (mkMetadata 0 1) 0)
         (mkHeap [[]] [lit "SEPD" ++ replicate 12 0%Z; replicate 16 0%Z]))
  = Throw RangeError.
Proof. vm_compute. reflexivity. Qed.

(** With a record size of 0 the loop of [parse] does not end: no amount of
    fuel gives a result. *)
Lemma readRecords_zero_stride (fileBuffer : list Z) (pesConfig : PESConfig)
    (fuel pointer : nat) (players : list CommentaryRecord.t) :
  RECORD_SIZE pesConfig = 0 -> pointer <= length fileBuffer ->
  Parser.readRecords fuel fileBuffer pesConfig pointer players = None.
Proof.
  intros Hz Hp. revert players.
  induction fuel as [|fuel IH]; intros players; [reflexivity|].
  simpl. rewrite Hz, Nat.add_0_r.
  assert ((pointer <=? length fileBuffer) = true) as -> by now apply Nat.leb_le.
  apply IH.
Qed.

(* ===================================================================== *)
(** ** The round trip                                                      *)
(* ===================================================================== *)

(** C1, as amended.  On a layout without padding before the name field, with
    a positive record size that holds both fields after a header of at least
    144 bytes; with metadata of two 16-byte spans, the first starting with
    "SEPD" and the second ending in 12 zero bytes; and with records whose key
    and display name are well-formed strings without NUL, without white space
    at either end, and whose UTF-8 form fits the key field and the name field:
    decoding what [save] returns succeeds, gives back the records in the
    sorted order of the encoder, a permutation of the collection, and gives
    back both metadata spans byte for byte. *)
Theorem roundtrip_without_padding
    (localeCompare : jsstring -> jsstring -> Z) (this : PESCommentaryListParser)
    (h : Heap) (players : list CommentaryRecord.t) (firstBytes secondBytes : list Z)
    (fuel : nat)
    (Hplayers : recordArrays h !! playerList this = Some players)
    (Hfirst : byteArrays h !! first (metadata this) = Some firstBytes)
    (Hsecond : byteArrays h !! second (metadata this) = Some secondBytes)
    (Hmeta : acceptedMetadata firstBytes secondBytes)
    (Hok : layoutOk (pesConfig this))
    (Hpad : PLAYER_NAME_OFFSET (pesConfig this) = 0)
    (Hsize : 0 < RECORD_SIZE (pesConfig this))
    (Hfit : forallb (recordFits (pesConfig this)) players = true)
    (Hfuel : length players < fuel) :
  exists buffer h1 that h2 decoded,
    Parser.save localeCompare this h = (Return buffer, h1) /\
    Parser.parse fuel buffer (pesConfig this) h1 = Some (Return that, h2) /\
    recordArrays h2 !! playerList that = Some decoded /\
    decoded = sort (Utils.comparePlayers localeCompare) players /\
    Permutation decoded players /\
    byteArrays h2 !! first (metadata that) = Some firstBytes /\
    byteArrays h2 !! second (metadata that) = Some secondBytes.
Proof.
  pose proof Hmeta as (L1 & _ & L2 & _).
  eexists _, _, _, _, _.
  split; [exact (save_run localeCompare _ _ _ _ _ Hplayers Hfirst Hsecond L1 L2 Hok)|].
  split; [now apply parse_encodedFile|].
  cbn [playerList metadata first second recordArrays byteArrays].
  split; [|split; [reflexivity|split; [apply sort_perm|split]]].
  - rewrite lookup_app_r by lia. now rewrite Nat.sub_diag.
  - rewrite lookup_app_r by lia. now rewrite Nat.sub_diag.
  - rewrite lookup_app_r by lia. now replace (S _ - _) with 1 by lia.
Qed.

(** On the 2021 layout, which has 16 bytes of padding before the name field,
    [save] writes the name right after the key and [parse] reads it 16 bytes
    further on: the names of the example collection come back empty. *)
Lemma roundtrip_2021_loses_names :
  exists buffer h1 that h2,
    Parser.save unitCompare parser2021 exampleHeap = (Return buffer, h1) /\
    Parser.parse 3 buffer PES2021Config h1 = Some (Return that, h2) /\
    recordArrays h2 !! playerList that =
      Some [CommentaryRecord.mk (lit "EN_A1_P0_R000001") [];
            CommentaryRecord.mk (lit "EN_A1_P0_R000002") []].
Proof.
  eexists _, _, _, _.
  split; [vm_compute; reflexivity|]. split; [vm_compute; reflexivity|].
  vm_compute; reflexivity.
Qed.

(** C1, as stated, fails: a display name with a space in front comes back
    without it, so the decoded records are not the encoded ones; and metadata
    that does not start with "SEPD" is encoded into a file that the decoder
    refuses. *)
Lemma roundtrip_counterexample :
  (let players := [CommentaryRecord.mk (lit "E_A1_P0_R000001") (lit " Ana")] in
   let h := mkHeap [players] [lit "SEPD" ++ replicate 12 7%Z; replicate 16 0%Z] in
   exists buffer h1 that h2 decoded,
     Parser.save unitCompare parser2017 h = (Return buffer, h1) /\
     Parser.parse 2 buffer PES2017Config h1 = Some (Return that, h2) /\
     recordArrays h2 !! playerList that = Some decoded /\
     ~ Permutation decoded players) /\
  (let h := mkHeap [[ana]] [replicate 16 0%Z; replicate 16 0%Z] in
   exists buffer h1,
     Parser.save unitCompare parser2017 h = (Return buffer, h1) /\
     Parser.parse 2 buffer PES2017Config h1 = Some (Throw InvalidFile, h1)).
Proof.
  split.
  - eexists _, _, _, _, _.
    split; [vm_compute; reflexivity|]. split; [vm_compute; reflexivity|].
    split; [vm_compute; reflexivity|].
    intros P. apply Permutation_length_1_inv in P. discriminate P.
  - eexists _, _. split; [vm_compute; reflexivity|]. vm_compute; reflexivity.
Qed.

(* ===================================================================== *)
(** ** The string decode rule                                              *)
(* ===================================================================== *)

(** Where the decoded text has no line terminator, the regular expression
    cuts at the first NUL, as the specification words it. *)
Lemma replaceNulTail_untilNul (s : jsstring) :
  forallb (fun d => negb (isLineTerminator d)) s = true ->
  replaceNulTail s = untilNul s.
Proof.
  induction s as [|c r IH]; [reflexivity|].
  simpl. intros H. apply andb_true_iff in H. destruct H as [_ Hr].
  rewrite Hr, andb_true_r. destruct (c =? 0)%Z; [reflexivity|]. now rewrite IH.
Qed.

Lemma cleanString_without_line_terminator (buffer : list Z) :
  forallb (fun d => negb (isLineTerminator d)) (TextDecoder.decode buffer) = true ->
  Utils.cleanString buffer = cleanStringSpec buffer.
Proof.
  intros H. unfold Utils.cleanString, cleanStringSpec. now rewrite replaceNulTail_untilNul.
Qed.

(** C5.  On the bytes of "A", NUL, "B", line feed, "C" the rule of the
    specification gives "A", everything from the first NUL on being
    discarded; [cleanString] returns the whole text, NUL included, because the
    [.] of its regular expression stops at the line feed and [$] then fails. *)
Theorem cleanString_keeps_nul_before_line_feed :
  cleanStringSpec [65; 0; 66; 10; 67]%Z = [65]%Z /\
  Utils.cleanString [65; 0; 66; 10; 67]%Z = [65; 0; 66; 10; 67]%Z /\
  Parser.readString [65; 0; 66; 10; 67]%Z 0 5 = [65; 0; 66; 10; 67]%Z.
Proof. repeat split. Qed.

(* ===================================================================== *)
(** ** The statements at the example collection                            *)
(* ===================================================================== *)

(** C4, as stated, fails: with one record, whose name starts with a digit,
    the count written after [Z] is 0 and not the number of records. *)
Lemma alphabet_index_total_counterexample :
  let players := [CommentaryRecord.mk (lit "EN_A1_P0_R000001") (lit "1st")] in
  let h := mkHeap [players] [] in
  exists sorted counts h' intBuffer',
    Utils.sortAndCountPlayers unitCompare 0 h = (Return (sorted, counts), h') /\
    Parser.writeAlphabetIndex (values counts) 0 36 (Uint8Array.zeros 240) = Some intBuffer' /\
    readUint32LE intBuffer' (36 + 4 * 25) = 0%Z /\
    readUint32LE intBuffer' (36 + 4 * 25) <> Z.of_nat (length players).
Proof.
  eexists _, _, _, _.
  split; [vm_compute; reflexivity|]. split; [vm_compute; reflexivity|].
  split; [vm_compute; reflexivity|]. vm_compute. discriminate.
Qed.

Lemma roundtrip_without_padding_witness :
  exists buffer h1 that h2 decoded,
    Parser.save unitCompare parser2017 exampleHeap = (Return buffer, h1) /\
    Parser.parse 3 buffer (pesConfig parser2017) h1 = Some (Return that, h2) /\
    recordArrays h2 !! playerList that = Some decoded /\
    decoded = sort (Utils.comparePlayers unitCompare) [bob; ana] /\
    Permutation decoded [bob; ana] /\
    byteArrays h2 !! first (metadata that) = Some (lit "SEPD" ++ replicate 12 7%Z) /\
    byteArrays h2 !! second (metadata that) = Some (replicate 16 0%Z).
Proof.
  apply (roundtrip_without_padding unitCompare parser2017 exampleHeap [bob; ana]
           (lit "SEPD" ++ replicate 12 7%Z) (replicate 16 0%Z) 3).
  - reflexivity.
  - reflexivity.
  - reflexivity.
  - repeat split.
  - split; simpl; lia.
  - reflexivity.
  - simpl; lia.
  - reflexivity.
  - simpl; lia.
Defined.

Lemma parse_outcomes_witness :
  0 < RECORD_SIZE PES2021Config /\
  Parser.parse 1 (replicate 100 0%Z) PES2021Config exampleHeap
    = Some (Throw TooSmall, exampleHeap).
Proof.
  split; [simpl; lia|].
  apply (proj1 (parse_outcomes (replicate 100 0%Z) PES2021Config exampleHeap 1
                  ltac:(simpl; lia) ltac:(vm_compute; lia))).
  vm_compute. lia.
Defined.

(** C3, as stated of both classes, fails on the TypeScript class: a name of
    one space is stored and not refused; the id 57123 gives a key that is not
    padded to six digits; and an id whose key a record already has is stored
    a second time. *)
Lemma createPlayer_unchecked_counterexample :
  (forallb isWhiteSpace (lit " ") = true /\
   Parser.createPlayer parser2021 (lit "57123") (lit " ") exampleHeap
   = (Return tt,
      withRecords exampleHeap 0
        [bob; ana; CommentaryRecord.mk (lit "EN_A1_P0_R57123") (lit " ")]) /\
   lit "EN_A1_P0_R57123" <> lit "EN_A1_P0_R057123") /\
  (In (lit "EN_A1_P0_R000001") (keysOf [bob; ana]) /\
   Parser.createPlayer parser2021 (lit "000001") (lit "Anna") exampleHeap
   = (Return tt,
      withRecords exampleHeap 0
        [bob; ana; CommentaryRecord.mk (lit "EN_A1_P0_R000001") (lit "Anna")])).
Proof.
  split; [split; [reflexivity|split]|split].
  - vm_compute. reflexivity.
  - vm_compute. discriminate.
  - right. left. reflexivity.
  - vm_compute. reflexivity.
Qed.

Lemma createPlayer_validates_then_appends_witness :
  ParserDist.createPlayer parser2021 (CommentaryUpsert.mk 57123 (lit "Mohamed Salah"))
                          exampleHeap
  = (Return tt,
     withRecords exampleHeap 0
       ([bob; ana] ++ [CommentaryRecord.mk (lit "EN_A1_P0_R057123") (lit "Mohamed Salah")])).
Proof.
  pose proof (createPlayer_validates_then_appends parser2021 exampleHeap [bob; ana]
                (CommentaryUpsert.mk 57123 (lit "Mohamed Salah")) (lit "57123") eq_refl) as H.
  cbv zeta in H. destruct H as (_ & _ & _ & H & _).
  apply H.
  - reflexivity.
  - simpl; lia.
  - vm_compute. intros [E|[E|[]]]; discriminate E.
Defined.

Lemma alphabet_index_is_cumulative_witness :
  exists sorted counts h' intBuffer',
    Utils.sortAndCountPlayers unitCompare (playerList parser2021) exampleHeap
      = (Return (sorted, counts), h') /\
    Parser.writeAlphabetIndex (values counts) 0 36 (Uint8Array.zeros 240) = Some intBuffer' /\
    (forall i, i < 26 ->
       readUint32LE intBuffer' (36 + 4 * i) = Z.of_nat (cumulativeCount [bob; ana] i)) /\
    (forall i j, i <= j -> cumulativeCount [bob; ana] i <= cumulativeCount [bob; ana] j) /\
    cumulativeCount [bob; ana] 25 = length (List.filter startsWithCapital [bob; ana]) /\
    cumulativeCount [bob; ana] 25 <= length [bob; ana].
Proof.
  apply (alphabet_index_is_cumulative unitCompare parser2021 exampleHeap [bob; ana]
           (Uint8Array.zeros 240)).
  - reflexivity.
  - vm_compute; lia.
  - reflexivity.
Defined.

Lemma save_buffer_layout_witness :
  exists buffer h',
    Parser.save unitCompare parser2021 exampleHeap = (Return buffer, h') /\
    length buffer = 144 + 2 * 96 /\
    Uint8Array.slice buffer 0 16 = lit "SEPD" ++ replicate 12 7%Z /\
    Uint8Array.slice buffer 16 20 = [2; 0; 0; 0]%Z /\
    readUint32LE buffer 16 = 2%Z /\
    Uint8Array.slice buffer 20 36 = replicate 16 0%Z /\
    readUint32LE buffer 136 = 2%Z /\
    readUint32LE buffer 140 = 2%Z.
Proof.
  apply (save_buffer_layout unitCompare parser2021 exampleHeap [bob; ana]
           (lit "SEPD" ++ replicate 12 7%Z) (replicate 16 0%Z)).
  - reflexivity.
  - reflexivity.
  - reflexivity.
  - reflexivity.
  - reflexivity.
  - split; simpl; lia.
  - reflexivity.
Defined.

Lemma update_delete_absent_key_not_found_witness :
  Parser.updatePlayer parser2021 (lit "EN_A1_P0_R999999") (lit "Cid") exampleHeap
    = (Throw NotFound, exampleHeap) /\
  Parser.deletePlayer parser2021 (lit "EN_A1_P0_R999999") exampleHeap
    = (Throw NotFound, exampleHeap) /\
  ParserDist.updatePlayer parser2021 (CommentaryUpsert.mk 5 (lit "Cid")) exampleHeap
    = (Throw NotFound, exampleHeap) /\
  ParserDist.deletePlayer parser2021 5 exampleHeap = (Throw NotFound, exampleHeap).
Proof.
  apply (update_delete_absent_key_not_found parser2021 exampleHeap [bob; ana]).
  - reflexivity.
  - vm_compute. intros [E|[E|[]]]; discriminate E.
  - vm_compute. intros [E|[E|[]]]; discriminate E.
Defined.

Lemma numeric_id_normalized_to_six_digits_witness :
  Utils.formatTo6String 1234567 = lit "234567" /\
  ParserDist.buildCommentaryName parser2021 1234567 = lit "EN_A1_P0_R234567" /\
  ParserDist.updatePlayer parser2021 (CommentaryUpsert.mk 1234567 (lit "Cid")) =
    Parser.updatePlayer parser2021 (lit "EN_A1_P0_R234567") (lit "Cid") /\
  ParserDist.deletePlayer parser2021 1234567 =
    Parser.deletePlayer parser2021 (lit "EN_A1_P0_R234567").
Proof.
  apply (numeric_id_normalized_to_six_digits parser2021 1234567 (lit "Cid")).
  vm_compute. discriminate.
Defined.

Lemma save_leaves_parser_state_witness :
  let h' := snd (Parser.save unitCompare parser2021 exampleHeap) in
  recordArrays h' !! playerList parser2021 = Some [bob; ana] /\
  byteArrays h' !! first (metadata parser2021) = Some (lit "SEPD" ++ replicate 12 7%Z) /\
  byteArrays h' !! second (metadata parser2021) = Some (replicate 16 0%Z) /\
  extends exampleHeap h'.
Proof.
  apply (save_leaves_parser_state unitCompare parser2021 exampleHeap [bob; ana]
           (lit "SEPD" ++ replicate 12 7%Z) (replicate 16 0%Z));
    reflexivity.
Defined.

Lemma updatePlayer_stores_any_name_witness :
  exists i player,
    [bob; ana] !! i = Some player /\
    CommentaryRecord.commentaryName player = lit "EN_A1_P0_R000001" /\
    (forall j other, j < i -> [bob; ana] !! j = Some other ->
                     CommentaryRecord.commentaryName other <> lit "EN_A1_P0_R000001") /\
    Parser.updatePlayer parser2021 (lit "EN_A1_P0_R000001") [] exampleHeap =
      (Return tt,
       withRecords exampleHeap (playerList parser2021)
         (<[i := CommentaryRecord.mk (lit "EN_A1_P0_R000001") []]> [bob; ana])).
Proof.
  apply (proj1 (updatePlayer_stores_any_name parser2021 exampleHeap [bob; ana]
                  (lit "EN_A1_P0_R000001") [] 1 eq_refl)).
  right. left. reflexivity.
Defined.

(* ===================================================================== *)
(** ** More on the mutation API                                            *)
(* ===================================================================== *)

Lemma withRecords_lookup (h : Heap) (l : loc) (old a : list CommentaryRecord.t) :
  recordArrays h !! l = Some old -> recordArrays (withRecords h l a) !! l = Some a.
Proof. intros E. simpl. apply list_lookup_insert_eq. now apply lookup_lt_Some in E. Qed.

Lemma withRecords_twice (h : Heap) (l : loc) (a b : list CommentaryRecord.t) :
  withRecords (withRecords h l a) l b = withRecords h l b.
Proof. unfold withRecords. simpl. now rewrite list_insert_insert_eq. Qed.

Lemma withRecords_same (h : Heap) (l : loc) (a : list CommentaryRecord.t) :
  recordArrays h !! l = Some a -> withRecords h l a = h.
Proof. intros E. destruct h as [rs bs]. unfold withRecords. simpl in *. now rewrite list_insert_id. Qed.

(** The outcome of the string-keyed update in both cases. *)
Lemma Parser_updatePlayer_run (this : PESCommentaryListParser) (h : Heap)
    (players : list CommentaryRecord.t) (key name : jsstring) :
  recordArrays h !! playerList this = Some players ->
  Parser.updatePlayer this key name h =
    match findIndex (fun player => eqString (CommentaryRecord.commentaryName player) key)
                    players with
    | Some i => (Return tt,
                 withRecords h (playerList this) (<[i := CommentaryRecord.mk key name]> players))
    | None => (Throw NotFound, h)
    end.
Proof.
  intros Hl. unfold Parser.updatePlayer, bind. rewrite (getRecords_run _ _ _ Hl).
  destruct (findIndex _ players) as [i|] eqn:F; [|reflexivity].
  destruct (findIndex_Some _ _ _ F) as (x & Hx & Px & _).
  apply eqString_true in Px. rewrite Hx, Px.
  now apply putRecords_run with (old := players).
Qed.

(** The outcome of the string-keyed removal in both cases. *)
Lemma Parser_deletePlayer_run (this : PESCommentaryListParser) (h : Heap)
    (players : list CommentaryRecord.t) (key : jsstring) :
  recordArrays h !! playerList this = Some players ->
  Parser.deletePlayer this key h =
    match findIndex (fun player => eqString (CommentaryRecord.commentaryName player) key)
                    players with
    | Some i => (Return tt, withRecords h (playerList this) (splice1 i players))
    | None => (Throw NotFound, h)
    end.
Proof.
  intros Hl. unfold Parser.deletePlayer, bind. rewrite (getRecords_run _ _ _ Hl).
  destruct (findIndex _ players) as [i|] eqn:F; [|reflexivity].
  now apply putRecords_run with (old := players).
Qed.

(** The outcome of the checked creation in all cases. *)
Lemma ParserDist_createPlayer_run (this : PESCommentaryListParser) (h : Heap)
    (players : list CommentaryRecord.t) (data : CommentaryUpsert.t) :
  recordArrays h !! playerList this = Some players ->
  ParserDist.createPlayer this data h =
    if forallb isWhiteSpace (CommentaryUpsert.playerName data) then (Throw InvalidName, h)
    else if ((CommentaryUpsert.commentaryId data <? 0)
             || (999999 <? CommentaryUpsert.commentaryId data))%Z
    then (Throw InvalidId, h)
    else
      let key := ParserDist.buildCommentaryName this (CommentaryUpsert.commentaryId data) in
      match findIndex (fun player => eqString (CommentaryRecord.commentaryName player) key)
                      players with
      | Some _ => (Throw DuplicateKey, h)
      | None =>
          (Return tt,
           withRecords h (playerList this)
             (players ++ [CommentaryRecord.mk key (CommentaryUpsert.playerName data)]))
      end.
Proof.
  intros Hl. unfold ParserDist.createPlayer.
  destruct (forallb isWhiteSpace (CommentaryUpsert.playerName data)) eqn:W.
  - apply trim_nil_iff in W. now rewrite W.
  - destruct (trim (CommentaryUpsert.playerName data)) as [|c r] eqn:T.
    { apply trim_nil_iff in T. congruence. }
    destruct ((_ <? 0) || _)%Z; [reflexivity|].
    cbv zeta. unfold bind. rewrite (getRecords_run _ _ _ Hl).
    destruct (findIndex _ players); [reflexivity|].
    now apply putRecords_run with (old := players).
Qed.

Lemma findIndex_app_last {A} (p : A -> bool) (l : list A) (x : A) :
  findIndex p l = None -> p x = true -> findIndex p (l ++ [x]) = Some (length l).
Proof.
  induction l as [|y r IH]; simpl; intros F Px; [now rewrite Px|].
  destruct (p y); [discriminate|].
  destruct (findIndex p r); [discriminate|]. now rewrite IH.
Qed.

Lemma findIndex_app_first {A} (p : A -> bool) (l k : list A) (i : nat) :
  findIndex p l = Some i -> findIndex p (l ++ k) = Some i.
Proof.
  revert i. induction l as [|y r IH]; simpl; intros i; [discriminate|].
  destruct (p y); [trivial|].
  destruct (findIndex p r) as [j|]; [|discriminate].
  intros [= <-]. now rewrite (IH j eq_refl).
Qed.

(** The index found for a key depends on the keys only. *)
Lemma findIndex_keys (l k : list CommentaryRecord.t) (key : jsstring) :
  keysOf l = keysOf k ->
  findIndex (fun player => eqString (CommentaryRecord.commentaryName player) key) l =
  findIndex (fun player => eqString (CommentaryRecord.commentaryName player) key) k.
Proof.
  revert k. induction l as [|x r IH]; intros [|y k]; simpl; try discriminate; [reflexivity|].
  intros [= E1 E2]. rewrite E1, (IH k E2). reflexivity.
Qed.

Lemma keysOf_update (players : list CommentaryRecord.t) (i : nat) (player : CommentaryRecord.t)
    (name : jsstring) :
  players !! i = Some player ->
  keysOf (<[i := CommentaryRecord.mk (CommentaryRecord.commentaryName player) name]> players)
  = keysOf players.
Proof.
  intros Hi. unfold keysOf.
  revert i Hi. induction players as [|x r IH]; intros [|i] Hi; simpl in *; try discriminate.
  - injection Hi as ->. reflexivity.
  - f_equal. now apply IH.
Qed.

Lemma splice1_app_last {A} (l : list A) (x : A) : splice1 (length l) (l ++ [x]) = l.
Proof.
  unfold splice1. rewrite take_app_length, drop_ge; [apply app_nil_r|].
  rewrite length_app. simpl. lia.
Qed.

(** X1. [deletePlayer] on a key that is present removes the first record
    with that key and nothing else: the records before it and after it stay,
    in their order.  The numeric-id version is the same removal at the key
    built from the id. *)
Theorem deletePlayer_removes_first_match
    (this : PESCommentaryListParser) (h : Heap) (players : list CommentaryRecord.t)
    (key : jsstring) (id : Z)
    (Hplayers : recordArrays h !! playerList this = Some players)
    (Hkey : In key (keysOf players)) :
  (exists i player,
     players !! i = Some player /\
     CommentaryRecord.commentaryName player = key /\
     (forall j other, j < i -> players !! j = Some other ->
                      CommentaryRecord.commentaryName other <> key) /\
     Parser.deletePlayer this key h =
       (Return tt, withRecords h (playerList this) (take i players ++ drop (S i) players)) /\
     length (take i players ++ drop (S i) players) + 1 = length players) /\
  ParserDist.deletePlayer this id =
    Parser.deletePlayer this (ParserDist.buildCommentaryName this id).
Proof.
  split; [|apply ParserDist_deletePlayer_by_key].
  destruct (findIndex_key_Some players key Hkey) as (i & player & F & Hi & Hk & Hlt).
  exists i, player. repeat split; try assumption.
  - rewrite (Parser_deletePlayer_run _ _ _ _ Hplayers), F. reflexivity.
  - apply lookup_lt_Some in Hi. rewrite length_app, length_take, length_drop. lia.
Qed.

Lemma writesOnly_unchanged {A} (l : loc) (c : M A) :
  (forall h, snd (c h) = h) -> writesOnly l c.
Proof. intros H h. rewrite H. repeat split. Qed.







Lemma keysOf_splice1 (players : list CommentaryRecord.t) (i : nat) :
  keysOf (splice1 i players) = splice1 i (keysOf players).
Proof. unfold keysOf, splice1. now rewrite map_app, firstn_map, skipn_map. Qed.

Lemma NoDup_splice1 {A} (l : list A) (i : nat) :
  List.NoDup l -> List.NoDup (splice1 i l).
Proof.
  intros H. unfold splice1. destruct (l !! i) as [x|] eqn:E.
  - rewrite <- (take_drop_middle l i x E) in H. now apply List.NoDup_remove_1 in H.
  - apply lookup_ge_None in E. rewrite take_ge, drop_ge by lia. now rewrite app_nil_r.
Qed.

Lemma NoDup_keys_app_fresh (players : list CommentaryRecord.t) (key name : jsstring) :
  List.NoDup (keysOf players) -> ~ In key (keysOf players) ->
  List.NoDup (keysOf (players ++ [CommentaryRecord.mk key name])).
Proof.
  intros Hnd Hfresh. unfold keysOf in *. rewrite map_app. simpl.
  apply NoDup_ListNoDup, NoDup_app. repeat split.
  - now apply NoDup_ListNoDup.
  - intros x Hx Hx'. apply list_elem_of_In in Hx. apply list_elem_of_In in Hx'.
    destruct Hx' as [<-|[]]. contradiction.
  - apply NoDup_ListNoDup. repeat constructor. intros [].
Qed.

Lemma keysUniqueAfter_unchanged (this : PESCommentaryListParser) (c : M unit) (h : Heap)
    (players : list CommentaryRecord.t) :
  recordArrays h !! playerList this = Some players -> List.NoDup (keysOf players) ->
  snd (c h) = h -> keysUniqueAfter this c h.
Proof. intros Hl Hnd E. exists players. now rewrite E. Qed.

Lemma keysUniqueAfter_updatePlayer (this : PESCommentaryListParser) (h : Heap)
    (players : list CommentaryRecord.t) (key name : jsstring) :
  recordArrays h !! playerList this = Some players -> List.NoDup (keysOf players) ->
  keysUniqueAfter this (Parser.updatePlayer this key name) h.
Proof.
  intros Hl Hnd.
  destruct (findIndex (fun player => eqString (CommentaryRecord.commentaryName player) key)
                      players) as [i|] eqn:F.
  - destruct (findIndex_Some _ _ _ F) as (x & Hx & Px & _). apply eqString_true in Px.
    exists (<[i := CommentaryRecord.mk key name]> players).
    rewrite (Parser_updatePlayer_run _ _ _ _ _ Hl), F. split.
    + now apply withRecords_lookup with (old := players).
    + rewrite <- Px, keysOf_update; assumption.
  - apply (keysUniqueAfter_unchanged _ _ _ players); try assumption.
    now rewrite (Parser_updatePlayer_run _ _ _ _ _ Hl), F.
Qed.

Lemma keysUniqueAfter_deletePlayer (this : PESCommentaryListParser) (h : Heap)
    (players : list CommentaryRecord.t) (key : jsstring) :
  recordArrays h !! playerList this = Some players -> List.NoDup (keysOf players) ->
  keysUniqueAfter this (Parser.deletePlayer this key) h.
Proof.
  intros Hl Hnd.
  destruct (findIndex (fun player => eqString (CommentaryRecord.commentaryName player) key)
                      players) as [i|] eqn:F.
  - exists (splice1 i players).
    rewrite (Parser_deletePlayer_run _ _ _ _ Hl), F. split.
    + now apply withRecords_lookup with (old := players).
    + rewrite keysOf_splice1. now apply NoDup_splice1.
  - apply (keysUniqueAfter_unchanged _ _ _ players); try assumption.
    now rewrite (Parser_deletePlayer_run _ _ _ _ Hl), F.
Qed.

(** X3. Uniqueness of keys is an invariant of the numeric-id API and of the
    string-keyed update and removal: on a collection without two records of
    the same key, whatever the arguments and whether the call returns or
    throws, the collection has no two records of the same key afterwards. *)
Theorem mutations_keep_keys_unique
    (this : PESCommentaryListParser) (h : Heap) (players : list CommentaryRecord.t)
    (key name : jsstring) (data : CommentaryUpsert.t) (id : Z)
    (Hplayers : recordArrays h !! playerList this = Some players)
    (Hunique : List.NoDup (keysOf players)) :
  keysUniqueAfter this (ParserDist.createPlayer this data) h /\
  keysUniqueAfter this (ParserDist.updatePlayer this data) h /\
  keysUniqueAfter this (ParserDist.deletePlayer this id) h /\
  keysUniqueAfter this (Parser.updatePlayer this key name) h /\
  keysUniqueAfter this (Parser.deletePlayer this key) h.
Proof.
  split; [|split; [|split; [|split]]].
  - unfold keysUniqueAfter. rewrite (ParserDist_createPlayer_run _ _ _ _ Hplayers).
    destruct (forallb _ _); [now exists players|].
    destruct ((_ <? 0) || _)%Z; [now exists players|]. cbv zeta.
    destruct (findIndex _ players) eqn:F; [now exists players|].
    eexists. split; [now apply withRecords_lookup with (old := players)|].
    apply NoDup_keys_app_fresh; [assumption|]. now apply findIndex_key_None.
  - rewrite ParserDist_updatePlayer_by_key. now apply (keysUniqueAfter_updatePlayer _ _ players).
  - rewrite ParserDist_deletePlayer_by_key. now apply (keysUniqueAfter_deletePlayer _ _ players).
  - now apply (keysUniqueAfter_updatePlayer _ _ players).
  - now apply (keysUniqueAfter_deletePlayer _ _ players).
Qed.

(** X4. Creating a player and then deleting the same id gives back the store
    as it was: the collection holds the records it held, in their order. *)
Theorem create_then_delete_restores
    (this : PESCommentaryListParser) (h : Heap) (players : list CommentaryRecord.t)
    (data : CommentaryUpsert.t)
    (Hplayers : recordArrays h !! playerList this = Some players)
    (Hname : forallb isWhiteSpace (CommentaryUpsert.playerName data) = false)
    (Hid : (0 <= CommentaryUpsert.commentaryId data <= 999999)%Z)
    (Hfresh : ~ In (ParserDist.buildCommentaryName this (CommentaryUpsert.commentaryId data))
                   (keysOf players)) :
  bind (ParserDist.createPlayer this data)
       (fun _ => ParserDist.deletePlayer this (CommentaryUpsert.commentaryId data)) h
  = (Return tt, h).
Proof.
  unfold bind at 1. rewrite (ParserDist_createPlayer_run _ _ _ _ Hplayers), Hname.
  assert (((CommentaryUpsert.commentaryId data <? 0)
           || (999999 <? CommentaryUpsert.commentaryId data))%Z = false) as ->
    by (apply orb_false_iff; split; apply Z.ltb_ge; lia).
  cbv zeta. pose proof (proj2 (findIndex_key_None _ _) Hfresh) as F. rewrite F.
  rewrite ParserDist_deletePlayer_by_key.
  erewrite Parser_deletePlayer_run by (now apply withRecords_lookup with (old := players)).
  rewrite (findIndex_app_last _ _ _ F) by (now apply eqString_true).
  now rewrite splice1_app_last, withRecords_twice, withRecords_same.
Qed.

(** X5. Creating a player twice with the same id: the second call is refused
    with the duplicate-key error, whatever its name, and the collection holds
    the record of the first call once. *)
Theorem create_twice_is_refused
    (this : PESCommentaryListParser) (h : Heap) (players : list CommentaryRecord.t)
    (id : Z) (name name' : jsstring)
    (Hplayers : recordArrays h !! playerList this = Some players)
    (Hname : forallb isWhiteSpace name = false)
    (Hname' : forallb isWhiteSpace name' = false)
    (Hid : (0 <= id <= 999999)%Z)
    (Hfresh : ~ In (ParserDist.buildCommentaryName this id) (keysOf players)) :
  bind (ParserDist.createPlayer this (CommentaryUpsert.mk id name))
       (fun _ => ParserDist.createPlayer this (CommentaryUpsert.mk id name')) h
  = (Throw DuplicateKey,
     withRecords h (playerList this)
       (players ++ [CommentaryRecord.mk (ParserDist.buildCommentaryName this id) name])).
Proof.
  unfold bind at 1. rewrite (ParserDist_createPlayer_run _ _ _ _ Hplayers).
  cbn [CommentaryUpsert.playerName CommentaryUpsert.commentaryId]. rewrite Hname.
  assert (((id <? 0) || (999999 <? id))%Z = false) as E
    by (apply orb_false_iff; split; apply Z.ltb_ge; lia).
  rewrite E. cbv zeta. pose proof (proj2 (findIndex_key_None _ _) Hfresh) as F. rewrite F.
  erewrite ParserDist_createPlayer_run by (now apply withRecords_lookup with (old := players)).
  cbn [CommentaryUpsert.playerName CommentaryUpsert.commentaryId]. rewrite Hname', E.
  cbv zeta. rewrite (findIndex_app_last _ _ _ F) by (now apply eqString_true).
  reflexivity.
Qed.

(** X6. [updatePlayer] changes display names only: after it, the collection
    has the same keys in the same order.  Two updates of the same key in a row
    are the second one alone. *)
Theorem updatePlayer_keeps_keys_last_wins
    (this : PESCommentaryListParser) (h : Heap) (players : list CommentaryRecord.t)
    (key name1 name2 : jsstring)
    (Hplayers : recordArrays h !! playerList this = Some players) :
  (exists players',
     recordArrays (snd (Parser.updatePlayer this key name1 h)) !! playerList this
       = Some players' /\
     keysOf players' = keysOf players) /\
  bind (Parser.updatePlayer this key name1) (fun _ => Parser.updatePlayer this key name2) h
  = Parser.updatePlayer this key name2 h.
Proof.
  unfold bind. rewrite !(Parser_updatePlayer_run _ _ _ _ _ Hplayers).
  destruct (findIndex (fun player => eqString (CommentaryRecord.commentaryName player) key)
                      players) as [i|] eqn:F.
  - destruct (findIndex_Some _ _ _ F) as (x & Hx & Px & _). apply eqString_true in Px.
    assert (K : keysOf (<[i := CommentaryRecord.mk key name1]> players) = keysOf players)
      by (rewrite <- Px; now apply keysOf_update).
    split.
    + eexists. split; [now apply withRecords_lookup with (old := players)|exact K].
    + erewrite Parser_updatePlayer_run by (now apply withRecords_lookup with (old := players)).
      rewrite (findIndex_keys _ players key K), F.
      now rewrite list_insert_insert_eq, withRecords_twice.
  - split; [now exists players|reflexivity].
Qed.

(** X7. On a collection without two records of the same key, deleting a key
    twice in a row never succeeds twice: the second call throws the not-found
    error (as does the first when the key was absent). *)
Theorem delete_twice_not_found
    (this : PESCommentaryListParser) (h : Heap) (players : list CommentaryRecord.t)
    (key : jsstring)
    (Hplayers : recordArrays h !! playerList this = Some players)
    (Hunique : List.NoDup (keysOf players)) :
  fst (bind (Parser.deletePlayer this key) (fun _ => Parser.deletePlayer this key) h)
  = Throw NotFound.
Proof.
  unfold bind. rewrite (Parser_deletePlayer_run _ _ _ _ Hplayers).
  destruct (findIndex (fun player => eqString (CommentaryRecord.commentaryName player) key)
                      players) as [i|] eqn:F; [|reflexivity].
  destruct (findIndex_Some _ _ _ F) as (x & Hx & Px & _). apply eqString_true in Px.
  erewrite Parser_deletePlayer_run by (now apply withRecords_lookup with (old := players)).
  assert (Hgone : ~ In key (keysOf (splice1 i players))).
  { rewrite keysOf_splice1. unfold splice1, keysOf in *.
    rewrite <- (take_drop_middle players i x Hx), map_app in Hunique. simpl in Hunique.
    apply List.NoDup_remove_2 in Hunique. rewrite Px in Hunique.
    rewrite <- firstn_map, <- skipn_map in Hunique. exact Hunique. }
  apply findIndex_key_None in Hgone. now rewrite Hgone.
Qed.

(** X8. [createPlayer] of the TypeScript class does not look for the key:
    called with an id whose key a record already has, it appends a second
    record with that key, and a later [updatePlayer] of the key changes the
    older record and leaves the new one as created. *)
Theorem unchecked_create_is_shadowed
    (this : PESCommentaryListParser) (h : Heap) (players : list CommentaryRecord.t)
    (commentaryId name name' : jsstring)
    (Hplayers : recordArrays h !! playerList this = Some players)
    (Hkey : In (COMMENTARY_PREFIX (pesConfig this) ++ commentaryId) (keysOf players)) :
  let key := COMMENTARY_PREFIX (pesConfig this) ++ commentaryId in
  exists i player,
    players !! i = Some player /\
    CommentaryRecord.commentaryName player = key /\
    bind (Parser.createPlayer this commentaryId name)
         (fun _ => Parser.updatePlayer this key name') h
    = (Return tt,
       withRecords h (playerList this)
         (<[i := CommentaryRecord.mk key name']> players ++ [CommentaryRecord.mk key name])).
Proof.
  intros key.
  destruct (findIndex_key_Some players key Hkey) as (i & player & F & Hi & Hk & _).
  exists i, player. repeat split; try assumption.
  unfold bind. rewrite (Parser_createPlayer_appends _ _ _ _ _ Hplayers). fold key.
  erewrite Parser_updatePlayer_run by (now apply withRecords_lookup with (old := players)).
  rewrite (findIndex_app_first _ _ _ _ F), withRecords_twice.
  rewrite insert_app_l by (now apply lookup_lt_Some in Hi). reflexivity.
Qed.

Lemma example_keys_unique : List.NoDup (keysOf [bob; ana]).
Proof.
  repeat constructor; vm_compute; intros H; decompose [or] H; try discriminate; assumption.
Qed.

Lemma example_key_fresh :
  ~ In (ParserDist.buildCommentaryName parser2021 57123) (keysOf [bob; ana]).
Proof. vm_compute. intros [E|[E|[]]]; discriminate E. Qed.

Lemma deletePlayer_removes_first_match_witness :
  Parser.deletePlayer parser2021 (lit "EN_A1_P0_R000001") exampleHeap
  = (Return tt, withRecords exampleHeap 0 [bob]).
Proof.
  assert (Hkey : In (lit "EN_A1_P0_R000001") (keysOf [bob; ana])) by (right; left; reflexivity).
  destruct (deletePlayer_removes_first_match parser2021 exampleHeap [bob; ana]
              (lit "EN_A1_P0_R000001") 1%Z eq_refl Hkey)
    as ((i & player & Hi & Hk & _ & Hrun & _) & _).
  destruct i as [|[|i]].
  - injection Hi as <-. discriminate Hk.
  - exact Hrun.
  - discriminate Hi.
Defined.

Lemma mutations_keep_keys_unique_witness :
  keysUniqueAfter parser2021
    (ParserDist.createPlayer parser2021 (CommentaryUpsert.mk 57123 (lit "Mohamed Salah")))
    exampleHeap /\
  keysUniqueAfter parser2021 (Parser.deletePlayer parser2021 (lit "EN_A1_P0_R000002"))
    exampleHeap.
Proof.
  destruct (mutations_keep_keys_unique parser2021 exampleHeap [bob; ana]
              (lit "EN_A1_P0_R000002") (lit "Bobby")
              (CommentaryUpsert.mk 57123 (lit "Mohamed Salah")) 2%Z
              eq_refl example_keys_unique) as (Hc & _ & _ & _ & Hd).
  split; assumption.
Defined.

Lemma create_then_delete_restores_witness :
  bind (ParserDist.createPlayer parser2021 (CommentaryUpsert.mk 57123 (lit "Mohamed Salah")))
       (fun _ => ParserDist.deletePlayer parser2021 57123) exampleHeap
  = (Return tt, exampleHeap).
Proof.
  apply (create_then_delete_restores parser2021 exampleHeap [bob; ana]
           (CommentaryUpsert.mk 57123 (lit "Mohamed Salah")) eq_refl).
  - reflexivity.
  - simpl; lia.
  - exact example_key_fresh.
Defined.

Lemma create_twice_is_refused_witness :
  bind (ParserDist.createPlayer parser2021 (CommentaryUpsert.mk 57123 (lit "Mohamed Salah")))
       (fun _ => ParserDist.createPlayer parser2021 (CommentaryUpsert.mk 57123 (lit "Mo")))
       exampleHeap
  = (Throw DuplicateKey,
     withRecords exampleHeap 0
       ([bob; ana] ++ [CommentaryRecord.mk (ParserDist.buildCommentaryName parser2021 57123)
                                           (lit "Mohamed Salah")])).
Proof.
  apply (create_twice_is_refused parser2021 exampleHeap [bob; ana] 57123
           (lit "Mohamed Salah") (lit "Mo") eq_refl).
  - reflexivity.
  - reflexivity.
  - lia.
  - exact example_key_fresh.
Defined.

Lemma updatePlayer_keeps_keys_last_wins_witness :
  bind (Parser.updatePlayer parser2021 (lit "EN_A1_P0_R000001") (lit "Anna"))
       (fun _ => Parser.updatePlayer parser2021 (lit "EN_A1_P0_R000001") (lit "Anne"))
       exampleHeap
  = Parser.updatePlayer parser2021 (lit "EN_A1_P0_R000001") (lit "Anne") exampleHeap.
Proof.
  apply (updatePlayer_keeps_keys_last_wins parser2021 exampleHeap [bob; ana]
           (lit "EN_A1_P0_R000001") (lit "Anna") (lit "Anne") eq_refl).
Defined.

Lemma delete_twice_not_found_witness :
  fst (bind (Parser.deletePlayer parser2021 (lit "EN_A1_P0_R000001"))
            (fun _ => Parser.deletePlayer parser2021 (lit "EN_A1_P0_R000001")) exampleHeap)
  = Throw NotFound.
Proof.
  exact (delete_twice_not_found parser2021 exampleHeap [bob; ana] (lit "EN_A1_P0_R000001")
           eq_refl example_keys_unique).
Defined.

Lemma unchecked_create_is_shadowed_witness :
  bind (Parser.createPlayer parser2021 (lit "000001") (lit "Anna"))
       (fun _ => Parser.updatePlayer parser2021 (lit "EN_A1_P0_R000001") (lit "Anne"))
       exampleHeap
  = (Return tt,
     withRecords exampleHeap 0
       [bob; CommentaryRecord.mk (lit "EN_A1_P0_R000001") (lit "Anne");
        CommentaryRecord.mk (lit "EN_A1_P0_R000001") (lit "Anna")]).
Proof.
  assert (Hkey : In (COMMENTARY_PREFIX (pesConfig parser2021) ++ lit "000001")
                    (keysOf [bob; ana])) by (right; left; reflexivity).
  destruct (unchecked_create_is_shadowed parser2021 exampleHeap [bob; ana]
              (lit "000001") (lit "Anna") (lit "Anne") eq_refl Hkey)
    as (i & player & Hi & Hk & Hrun).
  destruct i as [|[|i]].
  - injection Hi as <-. discriminate Hk.
  - exact Hrun.
  - discriminate Hi.
Defined.

(* ===================================================================== *)
(** ** More on the encoder                                                 *)
(* ===================================================================== *)

(** X9. [decimalToBytes] is the unsigned 32-bit little-endian encoding of
    its argument modulo 2^32, for every integer: four bytes in 0..255 whose
    little-endian value is [num mod 2^32]; adding 2^32 changes nothing, and
    two numbers have the same bytes only if they agree modulo 2^32. *)
Theorem decimalToBytes_little_endian_mod_2_32 (num : Z) :
  Forall (fun b => (0 <= b < 256)%Z) (Utils.decimalToBytes num) /\
  readUint32LE (Utils.decimalToBytes num) 0 = (num mod 2 ^ 32)%Z /\
  Utils.decimalToBytes (num + 2 ^ 32) = Utils.decimalToBytes num /\
  forall other, Utils.decimalToBytes other = Utils.decimalToBytes num ->
                (other mod 2 ^ 32 = num mod 2 ^ 32)%Z.
Proof.
  split; [|split; [|split]].
  - unfold Utils.decimalToBytes. cbv zeta. change 255%Z with (Z.ones 8).
    rewrite !Z.land_ones by lia.
    repeat constructor; apply Z.mod_pos_bound; lia.
  - rewrite <- (app_nil_r (Utils.decimalToBytes num)).
    now apply (readUint32LE_at [] []).
  - unfold Utils.decimalToBytes.
    replace ((num + 2 ^ 32) mod 2 ^ 32)%Z with (num mod 2 ^ 32)%Z; [reflexivity|].
    rewrite <- (Z.mul_1_l (2 ^ 32)) at 2. now rewrite Z.mod_add by lia.
  - intros other E. rewrite <- (decimalToBytes_value other), <- (decimalToBytes_value num).
    now rewrite E.
Qed.

Lemma writeAlphabetIndex_length (counts : list nat) (sum pointer : nat) (a r : list Z) :
  Parser.writeAlphabetIndex counts sum pointer a = Some r -> length r = length a.
Proof.
  revert sum pointer a. induction counts as [|c rest IH]; intros sum pointer a; simpl.
  - now intros [= <-].
  - destruct (Uint8Array.set _ _ _) as [b|] eqn:E; [|discriminate].
    intros H. rewrite (IH _ _ _ H). exact (set_length _ _ _ _ E).
Qed.

Lemma writeRecords_length (pesConfig : PESConfig) (sorted : list CommentaryRecord.t)
    (pointer : nat) (a r : list Z) :
  Parser.writeRecords pesConfig sorted pointer a = Some r -> length r = length a.
Proof.
  revert pointer a. induction sorted as [|x rest IH]; intros pointer a; simpl.
  - now intros [= <-].
  - destruct (Uint8Array.set a _ _) as [b|] eqn:E1; [|discriminate].
    destruct (Uint8Array.set b _ _) as [c|] eqn:E2; [|discriminate].
    intros H. rewrite (IH _ _ H), (set_length _ _ _ _ E2). exact (set_length _ _ _ _ E1).
Qed.

Lemma set_fits (a src r : list Z) (offset : nat) :
  Uint8Array.set a src offset = Some r -> offset + length src <= length a.
Proof.
  unfold Uint8Array.set. destruct (offset + length src <=? length a) eqn:E; [|discriminate].
  intros _. now apply Nat.leb_le.
Qed.

Lemma zeros_length (n : nat) : length (Uint8Array.zeros n) = n.
Proof. apply length_replicate. Qed.

(** X10. Whatever the layout and the sizes of the metadata, [save] on a
    parser whose objects exist either returns a buffer of exactly
    [COMMENTARY_START_OFFSET + players.length * RECORD_SIZE] bytes, or
    throws the [RangeError] of a typed-array write that does not fit: it
    never returns a buffer of another size and never fails otherwise.  It
    returns no buffer of fewer than 144 bytes, the end of the header and the
    index, nor one that is too short for the metadata. *)
Theorem save_exact_size_or_range_error
    (localeCompare : jsstring -> jsstring -> Z) (this : PESCommentaryListParser)
    (h : Heap) (players : list CommentaryRecord.t) (firstBytes secondBytes : list Z)
    (Hplayers : recordArrays h !! playerList this = Some players)
    (Hfirst : byteArrays h !! first (metadata this) = Some firstBytes)
    (Hsecond : byteArrays h !! second (metadata this) = Some secondBytes) :
  (exists buffer,
     fst (Parser.save localeCompare this h) = Return buffer /\
     length buffer = COMMENTARY_START_OFFSET (pesConfig this)
                     + length players * RECORD_SIZE (pesConfig this) /\
     144 <= length buffer /\
     length firstBytes <= length buffer /\
     20 + length secondBytes <= length buffer) \/
  fst (Parser.save localeCompare this h) = Throw RangeError.
Proof.
  remember (Parser.save localeCompare this h) as r eqn:Er.
  unfold Parser.save in Er. cbv zeta in Er.
  rewrite (bind_getRecords _ _ _ _ Hplayers) in Er.
  rewrite (bind_getBytes _ _ _ _ Hfirst) in Er.
  set (n := COMMENTARY_START_OFFSET (pesConfig this)
            + length players * RECORD_SIZE (pesConfig this)) in *.
  destruct (Uint8Array.set (Uint8Array.zeros n) firstBytes 0) as [b1|] eqn:E1;
    [|right; now subst r].
  rewrite (bind_orRangeError _ b1) in Er by reflexivity.
  destruct (Uint8Array.set b1 _ 16) as [b2|] eqn:E2; [|right; now subst r].
  rewrite (bind_orRangeError _ b2) in Er by reflexivity.
  rewrite (bind_getBytes _ _ _ _ Hsecond) in Er.
  destruct (Uint8Array.set b2 secondBytes 20) as [b3|] eqn:E3; [|right; now subst r].
  rewrite (bind_orRangeError _ b3) in Er by reflexivity.
  unfold bind at 1 in Er. rewrite (sortAndCountPlayers_run _ _ _ _ Hplayers) in Er.
  cbv beta iota in Er.
  set (h' := mkHeap _ _) in Er.
  assert (Hplayers' : recordArrays h' !! playerList this = Some players)
    by (now apply lookup_app_l_Some).
  assert (Hsorted : recordArrays h' !! length (recordArrays h)
                    = Some (sort (Utils.comparePlayers localeCompare) players))
    by (apply list_lookup_middle; reflexivity).
  destruct (Parser.writeAlphabetIndex _ 0 36 b3) as [b4|] eqn:E4; [|right; now subst r].
  rewrite (bind_orRangeError _ b4) in Er by reflexivity.
  rewrite (bind_getRecords _ _ _ _ Hplayers') in Er.
  destruct (Uint8Array.set b4 _ 136) as [b5|] eqn:E5; [|right; now subst r].
  rewrite (bind_orRangeError _ b5) in Er by reflexivity.
  destruct (Uint8Array.set b5 _ 140) as [b6|] eqn:E6; [|right; now subst r].
  rewrite (bind_orRangeError _ b6) in Er by reflexivity.
  rewrite (bind_getRecords _ _ _ _ Hsorted) in Er.
  destruct (Parser.writeRecords _ _ _ b6) as [b7|] eqn:E7; [|right; now subst r].
  rewrite (bind_orRangeError _ b7) in Er by reflexivity.
  left. exists b7. split; [now subst r|].
  pose proof (writeRecords_length _ _ _ _ _ E7) as L7.
  pose proof (set_length _ _ _ _ E6) as L6. pose proof (set_length _ _ _ _ E5) as L5.
  pose proof (writeAlphabetIndex_length _ _ _ _ _ E4) as L4.
  pose proof (set_length _ _ _ _ E3) as L3. pose proof (set_length _ _ _ _ E2) as L2.
  pose proof (set_length _ _ _ _ E1) as L1. rewrite zeros_length in L1.
  pose proof (set_fits _ _ _ _ E6) as F6. rewrite decimalToBytes_length in F6.
  pose proof (set_fits _ _ _ _ E3) as F3.
  pose proof (set_fits _ _ _ _ E1) as F1. rewrite zeros_length in F1.
  repeat split; lia.
Qed.

(** X11. The index of a saved file.  On a parser with metadata of 16 + 16
    bytes and a layout that keeps the records apart, the 25 index slots of
    [A]..[Y] of the buffer that [save] returns hold the cumulative counts;
    the slot of [Z], at offset 136, holds the number of records, which [save]
    writes there after the index loop: it is at least the cumulative count of
    [Z], and larger as soon as a display name starts with no capital letter. *)
Theorem save_index_slots
    (localeCompare : jsstring -> jsstring -> Z) (this : PESCommentaryListParser)
    (h : Heap) (players : list CommentaryRecord.t) (firstBytes secondBytes : list Z)
    (Hplayers : recordArrays h !! playerList this = Some players)
    (Hfirst : byteArrays h !! first (metadata this) = Some firstBytes)
    (Hsecond : byteArrays h !! second (metadata this) = Some secondBytes)
    (L1 : length firstBytes = 16) (L2 : length secondBytes = 16)
    (Hok : layoutOk (pesConfig this))
    (Hcount : (Z.of_nat (length players) < 2 ^ 32)%Z) :
  exists buffer,
    fst (Parser.save localeCompare this h) = Return buffer /\
    (forall i, i < 25 ->
       readUint32LE buffer (36 + 4 * i) = Z.of_nat (cumulativeCount players i)) /\
    readUint32LE buffer (36 + 4 * 25) = Z.of_nat (length players) /\
    cumulativeCount players 25 <= length players /\
    (forallb startsWithCapital players = false ->
     cumulativeCount players 25 < length players).
Proof.
  rewrite (save_run localeCompare _ _ _ _ _ Hplayers Hfirst Hsecond L1 L2 Hok).
  eexists. split; [reflexivity|]. split; [|split].
  - intros i Hi. now apply encodedFile_index.
  - unfold encodedFile.
    set (total := Utils.decimalToBytes (Z.of_nat (length players))).
    set (index := concat (map (fun i => Utils.decimalToBytes (Z.of_nat (cumulativeCount players i)))
                              (seq 0 25))).
    assert (Hindex : length index = 100) by (unfold index; now rewrite concat_u32_length).
    set (rest := Uint8Array.zeros _ ++ _).
    apply (readUint32LE_in _ (firstBytes ++ total ++ secondBytes ++ index) (total ++ rest));
      [reassoc| |lia].
    rewrite !length_app, L1, L2, Hindex. reflexivity.
  - rewrite cumulativeCount_last.
    split; [apply List.filter_length_le|].
    intros Hsome.
    assert (Hlt : forall l : list CommentaryRecord.t,
               forallb startsWithCapital l = false ->
               length (List.filter startsWithCapital l) < length l).
    { induction l as [|x r IH]; simpl; [discriminate|].
      destruct (startsWithCapital x); simpl.
      - intros Hr. specialize (IH Hr). lia.
      - intros _. pose proof (List.filter_length_le startsWithCapital r). lia. }
    now apply Hlt.
Qed.

(** X12. [save] can be called again: on a parser with metadata of 16 + 16
    bytes and a layout that keeps the records apart, a second [save] right
    after the first returns the same bytes, and each call leaves one more
    array, the sorted copy, in the store. *)
Theorem save_twice_same_bytes
    (localeCompare : jsstring -> jsstring -> Z) (this : PESCommentaryListParser)
    (h : Heap) (players : list CommentaryRecord.t) (firstBytes secondBytes : list Z)
    (Hplayers : recordArrays h !! playerList this = Some players)
    (Hfirst : byteArrays h !! first (metadata this) = Some firstBytes)
    (Hsecond : byteArrays h !! second (metadata this) = Some secondBytes)
    (L1 : length firstBytes = 16) (L2 : length secondBytes = 16)
    (Hok : layoutOk (pesConfig this)) :
  exists buffer,
    bind (Parser.save localeCompare this)
         (fun b1 => bind (Parser.save localeCompare this) (fun b2 => ret (b1, b2))) h
    = (Return (buffer, buffer),
       mkHeap (recordArrays h ++ [sort (Utils.comparePlayers localeCompare) players;
                                  sort (Utils.comparePlayers localeCompare) players])
              (byteArrays h)).
Proof.
  eexists. unfold bind at 1.
  rewrite (save_run localeCompare _ _ _ _ _ Hplayers Hfirst Hsecond L1 L2 Hok).
  unfold bind. erewrite save_run; try eassumption.
  - cbn [recordArrays byteArrays]. rewrite <- app_assoc. reflexivity.
  - now apply lookup_app_l_Some.
Qed.

(* ===================================================================== *)
(** ** More on the decoder                                                 *)
(* ===================================================================== *)

Lemma slice_ext (a b : list Z) (from to : nat) :
  (forall i, from <= i < to -> a !! i = b !! i) ->
  Uint8Array.slice a from to = Uint8Array.slice b from to.
Proof.
  intros H. apply list_eq. intros j. rewrite !slice_lookup.
  destruct (j <? to - from) eqn:E; [|reflexivity].
  apply Nat.ltb_lt in E. apply H. lia.
Qed.

Lemma readString_ext (a b : list Z) (offset n : nat) :
  (forall i, offset <= i -> a !! i = b !! i) ->
  Parser.readString a offset n = Parser.readString b offset n.
Proof.
  intros H. unfold Parser.readString. f_equal. apply slice_ext. intros i Hi. apply H. lia.
Qed.

Lemma readRecords_ext (fuel : nat) (a b : list Z) (pesConfig : PESConfig) (pointer : nat)
    (players : list CommentaryRecord.t) :
  length a = length b ->
  (forall i, pointer <= i -> a !! i = b !! i) ->
  Parser.readRecords fuel a pesConfig pointer players =
  Parser.readRecords fuel b pesConfig pointer players.
Proof.
  intros Hlen. revert pointer players.
  induction fuel as [|fuel IH]; intros pointer players H; [reflexivity|].
  simpl. rewrite Hlen.
  destruct (pointer + RECORD_SIZE pesConfig <=? length b); [|reflexivity].
  rewrite (readString_ext a b pointer) by assumption.
  rewrite (readString_ext a b (pointer + _ + _)) by (intros i Hi; apply H; lia).
  apply IH. intros i Hi. apply H. lia.
Qed.

Lemma isBinaryValid_ext (a b : list Z) :
  (forall i, i < 4 \/ 24 <= i < 36 -> a !! i = b !! i) ->
  Utils.isBinaryValid a = Utils.isBinaryValid b.
Proof.
  intros H. unfold Utils.isBinaryValid, Utils.elementIs.
  rewrite (H 0), (H 1), (H 2), (H 3) by lia.
  rewrite (slice_ext a b 24 36) by (intros i Hi; apply H; lia). reflexivity.
Qed.

(** X13. [parse] reads the two header spans and the records, and nothing
    else: two files of the same length that agree on bytes [0, 16), on bytes
    [20, 36) and from [COMMENTARY_START_OFFSET] on are decoded alike.  The
    record count at offset 16 and the alphabet index are never read, so a file
    whose count or index is wrong is accepted as it is. *)
Theorem parse_ignores_count_and_index
    (fuel : nat) (fileBuffer other : list Z) (pesConfig : PESConfig) (h : Heap)
    (Hlength : length fileBuffer = length other)
    (Hsame : forall i,
        i < 16 \/ 20 <= i < 36 \/ COMMENTARY_START_OFFSET pesConfig <= i ->
        fileBuffer !! i = other !! i) :
  Parser.parse fuel fileBuffer pesConfig h = Parser.parse fuel other pesConfig h.
Proof.
  unfold Parser.parse. rewrite Hlength.
  rewrite (isBinaryValid_ext fileBuffer other) by (intros i Hi; apply Hsame; lia).
  rewrite (readRecords_ext fuel fileBuffer other) by (try assumption; intros i Hi; apply Hsame; lia).
  rewrite (slice_ext fileBuffer other 0 16) by (intros i Hi; apply Hsame; lia).
  rewrite (slice_ext fileBuffer other 20 36) by (intros i Hi; apply Hsame; lia).
  reflexivity.
Qed.

Lemma trimStart_suffix (s : jsstring) : exists w, s = w ++ trimStart s.
Proof.
  induction s as [|c r [w IH]]; [now exists []|]. simpl.
  destruct (isWhiteSpace c); [|now exists []].
  exists (c :: w). simpl. now f_equal.
Qed.

Lemma trim_edges (s : jsstring) :
  (forall c r, trim s = c :: r -> isWhiteSpace c = false) /\
  (forall r c, trim s = r ++ [c] -> isWhiteSpace c = false).
Proof.
  unfold trim, trimEnd. set (u := trimStart (rev (trimStart s))). split.
  - intros c r E. destruct (trimStart_suffix (rev (trimStart s))) as [w Hw]. fold u in Hw.
    apply (f_equal (@rev Z)) in Hw. rewrite rev_involutive, rev_app_distr, E in Hw.
    simpl in Hw. now apply trimStart_head in Hw.
  - intros r c E. apply (f_equal (@rev Z)) in E. rewrite rev_involutive, rev_app_distr in E.
    simpl in E. now apply trimStart_head in E.
Qed.

Lemma decode_zeros (k : nat) : TextDecoder.decode (replicate k 0%Z) = replicate k 0%Z.
Proof.
  unfold TextDecoder.decode. rewrite scalarsFrom_zeros.
  assert (TextDecoder.stripBOM (replicate k 0%Z) = replicate k 0%Z) as ->
    by (destruct k; reflexivity).
  induction k as [|k IH]; [reflexivity|].
  change (replicate (S k) 0%Z) with (0%Z :: replicate k 0%Z).
  cbn [flat_map]. now rewrite IH.
Qed.

Lemma cleanString_zeros (k : nat) : Utils.cleanString (replicate k 0%Z) = [].
Proof.
  unfold Utils.cleanString. rewrite decode_zeros.
  pose proof (replaceNulTail_padding [] k (List.Forall_nil _)) as E. simpl in E. now rewrite E.
Qed.

Lemma all_zero_replicate (l : list Z) :
  (forall i b, l !! i = Some b -> b = 0%Z) -> l = replicate (length l) 0%Z.
Proof.
  induction l as [|x r IH]; intros H; [reflexivity|]. simpl. f_equal.
  - now apply (H 0).
  - apply IH. intros i b Hi. now apply (H (S i)).
Qed.

(** X14. What [readString] returns never begins nor ends with a white-space
    code unit, and it is the empty string for a field that holds no byte
    other than zero: a field of NUL bytes, a field of length zero, and a field
    that lies past the end of the buffer. *)
Theorem readString_trimmed_and_empty_on_zeros (buffer : list Z) (offset length : nat) :
  (forall c r, Parser.readString buffer offset length = c :: r -> isWhiteSpace c = false) /\
  (forall r c, Parser.readString buffer offset length = r ++ [c] -> isWhiteSpace c = false) /\
  ((forall i b, offset <= i < offset + length -> buffer !! i = Some b -> b = 0%Z) ->
   Parser.readString buffer offset length = []).
Proof.
  unfold Parser.readString, Utils.cleanString.
  split; [apply trim_edges|]. split; [apply trim_edges|].
  intros Hzero. fold (Utils.cleanString (Uint8Array.slice buffer offset (offset + length))).
  rewrite (all_zero_replicate (Uint8Array.slice buffer offset (offset + length))).
  - apply cleanString_zeros.
  - intros j b. rewrite slice_lookup.
    destruct (j <? offset + length - offset) eqn:E; [|discriminate].
    apply Nat.ltb_lt in E. apply Hzero. lia.
Qed.

Lemma cleanString_padded (width : nat) (s : jsstring) :
  Forall (fun c => (0 < c <= 0xFFFF)%Z) s -> isWellFormed s = true ->
  (forall r, s <> 0xFEFF%Z :: r) ->
  Utils.cleanString (padded width (TextEncoder.encode s)) = trim s.
Proof.
  intros Hs Hwf Hbom. unfold Utils.cleanString, padded, Uint8Array.zeros.
  rewrite decode_encode_padded by assumption. now rewrite replaceNulTail_padding.
Qed.

(** X15. A field written the way [save] writes one, the UTF-8 bytes of a
    text at the left of a zero-filled field, is read back by [readString] as
    the text trimmed, whatever surrounds the field in the buffer, for every
    well-formed text without NUL whose bytes fit the field and which does not
    start with U+FEFF.  So the text comes back unchanged exactly when it
    neither begins nor ends with white space. *)
Theorem readString_reads_written_field
    (a rest : list Z) (width : nat) (s : jsstring)
    (Hunits : Forall (fun c => (0 < c <= 0xFFFF)%Z) s)
    (Hwf : isWellFormed s = true)
    (Hbom : forall r, s <> 0xFEFF%Z :: r)
    (Hfits : length (TextEncoder.encode s) <= width) :
  Parser.readString (a ++ padded width (TextEncoder.encode s) ++ rest) (length a) width
  = trim s /\
  (Parser.readString (a ++ padded width (TextEncoder.encode s) ++ rest) (length a) width = s
   <-> trim s = s).
Proof.
  assert (E : Parser.readString (a ++ padded width (TextEncoder.encode s) ++ rest)
                                (length a) width = trim s).
  { unfold Parser.readString.
    rewrite slice_prefix; [now apply cleanString_padded|reflexivity|].
    now rewrite padded_length. }
  split; [exact E|]. now rewrite E.
Qed.

(* ===================================================================== *)
(** ** Encoding and decoding together                                      *)
(* ===================================================================== *)

Lemma plainAscii_cons (c : Z) (r : jsstring) :
  plainAscii (c :: r) = true <-> (0 < c < 128)%Z /\ plainAscii r = true.
Proof.
  unfold plainAscii. simpl. rewrite !andb_true_iff, Z.ltb_lt, Z.ltb_lt. tauto.
Qed.

Lemma plainAscii_take (n : nat) (s : jsstring) :
  plainAscii s = true -> plainAscii (take n s) = true.
Proof.
  revert n. induction s as [|c r IH]; intros [|n] H; try reflexivity.
  apply plainAscii_cons in H. destruct H as [Hc Hr].
  change (take (S n) (c :: r)) with (c :: take n r).
  apply plainAscii_cons. split; [assumption|now apply IH].
Qed.

Lemma plainAscii_drop (n : nat) (s : jsstring) :
  plainAscii s = true -> plainAscii (drop n s) = true.
Proof.
  revert n. induction s as [|c r IH]; intros [|n] H; try reflexivity; try assumption.
  apply plainAscii_cons in H. destruct H as [Hc Hr].
  change (drop (S n) (c :: r)) with (drop n r). now apply IH.
Qed.

Lemma surrogates_above_ascii (c : Z) :
  (0 < c < 128)%Z ->
  TextEncoder.isLeadSurrogate c = false /\ TextEncoder.isTrailSurrogate c = false.
Proof.
  intros Hc. unfold TextEncoder.isLeadSurrogate, TextEncoder.isTrailSurrogate.
  split; apply andb_false_iff; left; apply Z.leb_gt; lia.
Qed.

Lemma encode_ascii (s : jsstring) : plainAscii s = true -> TextEncoder.encode s = s.
Proof.
  unfold TextEncoder.encode. induction s as [|c r IH]; intros H; [reflexivity|].
  apply plainAscii_cons in H. destruct H as [Hc Hr].
  destruct (surrogates_above_ascii c Hc) as [Hlead Htrail].
  cbn [TextEncoder.scalars]. rewrite Hlead, Htrail. cbn [flat_map].
  rewrite encodeScalar_1 by lia. now rewrite IH.
Qed.

Lemma plainAscii_units (s : jsstring) :
  plainAscii s = true ->
  Forall (fun c => (0 < c <= 0xFFFF)%Z) s /\ isWellFormed s = true /\
  forall r, s <> 0xFEFF%Z :: r.
Proof.
  intros H. split; [|split].
  - induction s as [|c r IH]; [constructor|].
    apply plainAscii_cons in H. destruct H as [Hc Hr]. constructor; [lia|now apply IH].
  - induction s as [|c r IH]; [reflexivity|].
    apply plainAscii_cons in H. destruct H as [Hc Hr].
    destruct (surrogates_above_ascii c Hc) as [Hlead Htrail].
    cbn [isWellFormed]. rewrite Hlead, Htrail. now apply IH.
  - intros r ->. apply plainAscii_cons in H. lia.
Qed.

Lemma cleanString_ascii_padded (width : nat) (s : jsstring) :
  plainAscii s = true -> Utils.cleanString (padded width s) = trim s.
Proof.
  intros H. destruct (plainAscii_units s H) as (Hs & Hwf & Hbom).
  rewrite <- (encode_ascii s H) at 1. now apply cleanString_padded.
Qed.

Lemma padded_split (width p m : nat) (bytes : list Z) :
  p + m <= width -> length bytes <= p + m ->
  padded width bytes =
  padded p (take p bytes) ++ padded m (drop p bytes) ++ Uint8Array.zeros (width - p - m).
Proof.
  intros Hw Hb. unfold padded, Uint8Array.zeros.
  destruct (Nat.le_gt_cases (length bytes) p) as [Hle|Hgt].
  - rewrite take_ge, drop_ge by lia. simpl length.
    rewrite <- !app_assoc. f_equal. cbn [app]. rewrite <- !replicate_add. f_equal. lia.
  - rewrite length_take, length_drop.
    replace (p - p `min` length bytes) with 0 by lia. cbn [replicate].
    rewrite app_nil_r, <- (app_assoc (drop p bytes)), <- replicate_add, app_assoc, take_drop.
    f_equal. f_equal. lia.
Qed.

Lemma slice_inside (a e rest : list Z) (from to x w : nat) :
  from = length a + x -> to = from + w -> x + w <= length e ->
  Uint8Array.slice (a ++ e ++ rest) from to = Uint8Array.slice e x (x + w).
Proof.
  intros -> -> H. unfold Uint8Array.slice.
  replace (length a + x + w - (length a + x)) with w by lia.
  replace (x + w - x) with w by lia.
  rewrite drop_app_add', drop_app_le by lia.
  rewrite take_app_le; [reflexivity|]. rewrite length_drop. lia.
Qed.

(** A record is read from its own stride, whatever lies around it. *)
Lemma recordAtOffset_local (pesConfig : PESConfig) (player : CommentaryRecord.t)
    (a rest : list Z) :
  layoutOk pesConfig ->
  recordAtOffset pesConfig (a ++ encodedRecord pesConfig player ++ rest) (length a) =
  recordAtOffset pesConfig (encodedRecord pesConfig player) 0.
Proof.
  intros Hok. pose proof (encodedRecord_length pesConfig player Hok) as L.
  destruct Hok as [_ Hfit].
  unfold recordAtOffset, Utils.readString. f_equal; f_equal.
  - apply slice_inside; lia.
  - apply slice_inside; lia.
Qed.

Lemma records_reread (pesConfig : PESConfig) (l : list CommentaryRecord.t) (a : list Z) :
  layoutOk pesConfig ->
  map (fun i => recordAtOffset pesConfig (a ++ concat (map (encodedRecord pesConfig) l))
                               (length a + i * RECORD_SIZE pesConfig))
      (seq 0 (length l))
  = map (fun player => recordAtOffset pesConfig (encodedRecord pesConfig player) 0) l.
Proof.
  intros Hok. revert a.
  induction l as [|x r IH]; intros a; [reflexivity|].
  rewrite !map_cons, concat_cons. simpl length. simpl seq. rewrite map_cons.
  f_equal.
  - rewrite Nat.add_0_r. now apply recordAtOffset_local.
  - rewrite <- seq_shift, map_map.
    rewrite <- (IH (a ++ encodedRecord pesConfig x)).
    apply map_ext. intros i. rewrite <- app_assoc. f_equal.
    rewrite length_app, encodedRecord_length by assumption. simpl. lia.
Qed.

(** Decoding what [save] returns, on any layout that keeps the records
    apart: each record is the one read from its own stride. *)
Lemma parse_encodedFile_strides (localeCompare : jsstring -> jsstring -> Z)
    (pesConfig : PESConfig) (firstBytes secondBytes : list Z)
    (players : list CommentaryRecord.t) (h : Heap) (fuel : nat) :
  acceptedMetadata firstBytes secondBytes ->
  layoutOk pesConfig -> 0 < RECORD_SIZE pesConfig ->
  length players < fuel ->
  Parser.parse fuel (encodedFile localeCompare pesConfig firstBytes secondBytes players)
               pesConfig h =
    Some (Return (mkParser pesConfig
                    (mkMetadata (length (byteArrays h)) (S (length (byteArrays h))))
                    (length (recordArrays h))),
          mkHeap (recordArrays h
                  ++ [map (fun player =>
                             recordAtOffset pesConfig (encodedRecord pesConfig player) 0)
                          (sort (Utils.comparePlayers localeCompare) players)])
                 (byteArrays h ++ [firstBytes; secondBytes])).
Proof.
  intros Hmeta Hok Hsize Hfuel.
  pose proof Hmeta as (L1 & Hmagic & L2 & Hzero).
  set (file := encodedFile localeCompare pesConfig firstBytes secondBytes players).
  set (sorted := sort (Utils.comparePlayers localeCompare) players).
  assert (Hperm : Permutation sorted players) by apply sort_perm.
  assert (Hlen : length file
                 = COMMENTARY_START_OFFSET pesConfig + length players * RECORD_SIZE pesConfig)
    by now apply encodedFile_length.
  assert (Hcount : (length file - COMMENTARY_START_OFFSET pesConfig) / RECORD_SIZE pesConfig
                   = length sorted).
  { rewrite Hlen, (Permutation_length Hperm).
    replace (COMMENTARY_START_OFFSET pesConfig + length players * RECORD_SIZE pesConfig
             - COMMENTARY_START_OFFSET pesConfig)
      with (length players * RECORD_SIZE pesConfig) by lia.
    apply Nat.div_mul. lia. }
  set (total := Utils.decimalToBytes (Z.of_nat (length players))).
  set (index := concat (map (fun i => Utils.decimalToBytes
                                        (Z.of_nat (cumulativeCount players i)))
                            (seq 0 25))).
  assert (Hindex : length index = 100) by (unfold index; now rewrite concat_u32_length).
  set (header := firstBytes ++ total ++ secondBytes ++ index ++ total ++ total
                 ++ Uint8Array.zeros (COMMENTARY_START_OFFSET pesConfig - 144)).
  assert (Hfile : file = header ++ concat (map (encodedRecord pesConfig) sorted))
    by (unfold file, encodedFile, header; fold total index sorted; reassoc).
  assert (Hheader : length header = COMMENTARY_START_OFFSET pesConfig).
  { destruct Hok as [Hstart _]. unfold header, Uint8Array.zeros.
    rewrite !length_app, L1, L2, Hindex, length_replicate.
    change (length total) with 4. lia. }
  rewrite parse_accepts; try assumption.
  2:{ rewrite Hcount, (Permutation_length Hperm). assumption. }
  2:{ lia. }
  2:{ now apply encodedFile_valid. }
  rewrite Hcount. f_equal. f_equal. f_equal.
  - f_equal. f_equal.
    unfold recordAt. rewrite Hfile, <- Hheader.
    now apply records_reread.
  - f_equal. f_equal; [|f_equal].
    + apply (slice_at _ [] firstBytes
               (total ++ secondBytes ++ index ++ total ++ total
                ++ Uint8Array.zeros (COMMENTARY_START_OFFSET pesConfig - 144)
                ++ concat (map (encodedRecord pesConfig) sorted)));
        [reflexivity|reflexivity|now rewrite L1].
    + apply (slice_at _ (firstBytes ++ total) secondBytes
               (index ++ total ++ total
                ++ Uint8Array.zeros (COMMENTARY_START_OFFSET pesConfig - 144)
                ++ concat (map (encodedRecord pesConfig) sorted)));
        [unfold file, encodedFile; fold total index sorted; reassoc| |];
        rewrite length_app, L1, ?L2; reflexivity.
Qed.

(** What is read from the stride of a record of plain ASCII texts. *)
Lemma recordAtOffset_ascii (pesConfig : PESConfig) (player : CommentaryRecord.t) :
  layoutOk pesConfig -> recordAscii player = true ->
  recordAtOffset pesConfig (encodedRecord pesConfig player) 0 =
  CommentaryRecord.mk
    (trim (take (COMMENTARY_NAME_LENGTH pesConfig) (CommentaryRecord.commentaryName player)))
    (trim (drop (PLAYER_NAME_OFFSET pesConfig)
                (take (PLAYER_NAME_OFFSET pesConfig + PLAYER_NAME_LENGTH pesConfig)
                      (CommentaryRecord.playerName player)))).
Proof.
  intros [_ Hfit] Hascii. apply andb_true_iff in Hascii. destruct Hascii as [Hkey Hname].
  destruct player as [key name]. cbn [CommentaryRecord.commentaryName CommentaryRecord.playerName] in *.
  unfold recordAtOffset, Utils.readString, encodedRecord.
  cbn [CommentaryRecord.commentaryName CommentaryRecord.playerName].
  rewrite !encode_ascii by assumption.
  set (K := COMMENTARY_NAME_LENGTH pesConfig) in *.
  set (p := PLAYER_NAME_OFFSET pesConfig) in *.
  set (N := PLAYER_NAME_LENGTH pesConfig) in *.
  set (k' := take K key). set (n' := take (p + N) name).
  assert (Lk : length k' <= K) by (unfold k'; rewrite length_take; lia).
  assert (Ln : length n' <= p + N) by (unfold n'; rewrite length_take; lia).
  assert (LK : length (padded K k') = K) by now apply padded_length.
  rewrite (padded_split (RECORD_SIZE pesConfig - K) p N n') by lia.
  f_equal.
  - rewrite (slice_at _ [] (padded K k') (padded p (take p n') ++ padded N (drop p n') ++
               Uint8Array.zeros (RECORD_SIZE pesConfig - K - p - N)));
      [|reflexivity|reflexivity|simpl; lia].
    apply cleanString_ascii_padded. now apply plainAscii_take.
  - assert (Lp : length (padded p (take p n')) = p)
      by (apply padded_length; rewrite length_take; lia).
    assert (LN : length (padded N (drop p n')) = N)
      by (apply padded_length; rewrite length_drop; lia).
    rewrite (slice_at _ (padded K k' ++ padded p (take p n')) (padded N (drop p n'))
               (Uint8Array.zeros (RECORD_SIZE pesConfig - K - p - N)));
      [|reassoc|rewrite length_app; lia|rewrite length_app; lia].
    apply cleanString_ascii_padded. apply plainAscii_drop. now apply plainAscii_take.
Qed.

(** X16. Saving and decoding again, for records of plain ASCII texts, on
    every layout that keeps the records apart.  The key comes back cut to
    [COMMENTARY_NAME_LENGTH] characters and trimmed.  The display name comes
    back without its first [PLAYER_NAME_OFFSET] characters, cut to
    [PLAYER_NAME_LENGTH] characters and trimmed: [save] writes the name right
    after the key and [parse] reads it [PLAYER_NAME_OFFSET] bytes later. *)
Theorem save_then_parse_ascii
    (localeCompare : jsstring -> jsstring -> Z) (this : PESCommentaryListParser)
    (h : Heap) (players : list CommentaryRecord.t) (firstBytes secondBytes : list Z)
    (fuel : nat)
    (Hplayers : recordArrays h !! playerList this = Some players)
    (Hfirst : byteArrays h !! first (metadata this) = Some firstBytes)
    (Hsecond : byteArrays h !! second (metadata this) = Some secondBytes)
    (Hmeta : acceptedMetadata firstBytes secondBytes)
    (Hok : layoutOk (pesConfig this))
    (Hsize : 0 < RECORD_SIZE (pesConfig this))
    (Hascii : forallb recordAscii players = true)
    (Hfuel : length players < fuel) :
  exists buffer h1 that h2,
    Parser.save localeCompare this h = (Return buffer, h1) /\
    Parser.parse fuel buffer (pesConfig this) h1 = Some (Return that, h2) /\
    recordArrays h2 !! playerList that =
      Some (map (fun player =>
                   CommentaryRecord.mk
                     (trim (take (COMMENTARY_NAME_LENGTH (pesConfig this))
                                 (CommentaryRecord.commentaryName player)))
                     (trim (drop (PLAYER_NAME_OFFSET (pesConfig this))
                                 (take (PLAYER_NAME_OFFSET (pesConfig this)
                                        + PLAYER_NAME_LENGTH (pesConfig this))
                                       (CommentaryRecord.playerName player)))))
                (sort (Utils.comparePlayers localeCompare) players)).
Proof.
  pose proof Hmeta as (L1 & _ & L2 & _).
  do 4 eexists. split; [|split].
  - exact (save_run localeCompare _ _ _ _ _ Hplayers Hfirst Hsecond L1 L2 Hok).
  - now apply parse_encodedFile_strides.
  - cbn [playerList recordArrays]. rewrite list_lookup_middle by reflexivity. f_equal.
    apply map_ext_in. intros player Hin. apply recordAtOffset_ascii; [assumption|].
    apply (proj1 (forallb_forall _ _) Hascii).
    exact (Permutation_in player (sort_perm (Utils.comparePlayers localeCompare) players) Hin).
Qed.

Lemma headerOk_metadata (fileBuffer : list Z) :
  36 <= length fileBuffer -> headerOk fileBuffer ->
  acceptedMetadata (Uint8Array.slice fileBuffer 0 16) (Uint8Array.slice fileBuffer 20 36).
Proof.
  intros Hlen [Hmagic Hzero].
  assert (L2 : length (Uint8Array.slice fileBuffer 20 36) = 16)
    by (rewrite slice_length by lia; reflexivity).
  split; [rewrite slice_length by lia; reflexivity|].
  split; [|split; [exact L2|]].
  - unfold Uint8Array.slice. rewrite drop_0. change (16 - 0) with 16.
    rewrite take_take. exact Hmagic.
  - rewrite (all_zero_replicate (drop 4 (Uint8Array.slice fileBuffer 20 36))).
    + rewrite length_drop, L2. reflexivity.
    + intros j b. rewrite lookup_drop, slice_lookup.
      destruct (4 + j <? 36 - 20) eqn:E; [|discriminate].
      apply Nat.ltb_lt in E. change (36 - 20) with 16 in E. apply Hzero. lia.
Qed.

(** X17. A file that [parse] accepts can be saved again, and what [save]
    returns is a file that [parse] accepts: on a layout that keeps the
    records apart, the new file has the bytes [0, 16) and [20, 36) of the old
    one, one stride for each whole record of the old one and nothing after
    them, so it is never longer than the old file. *)
Theorem parse_then_save_is_accepted
    (localeCompare : jsstring -> jsstring -> Z) (fileBuffer : list Z)
    (pesConfig : PESConfig) (h : Heap) (fuel : nat)
    (Hok : layoutOk pesConfig)
    (Hsize : 0 < RECORD_SIZE pesConfig)
    (Hfuel : (length fileBuffer - COMMENTARY_START_OFFSET pesConfig)
               / RECORD_SIZE pesConfig < fuel)
    (Hlength : COMMENTARY_START_OFFSET pesConfig <= length fileBuffer)
    (Hheader : headerOk fileBuffer) :
  exists that h1 buffer h2,
    Parser.parse fuel fileBuffer pesConfig h = Some (Return that, h1) /\
    Parser.save localeCompare that h1 = (Return buffer, h2) /\
    length buffer = COMMENTARY_START_OFFSET pesConfig
                    + (length fileBuffer - COMMENTARY_START_OFFSET pesConfig)
                        / RECORD_SIZE pesConfig * RECORD_SIZE pesConfig /\
    length buffer <= length fileBuffer /\
    Uint8Array.slice buffer 0 16 = Uint8Array.slice fileBuffer 0 16 /\
    Uint8Array.slice buffer 20 36 = Uint8Array.slice fileBuffer 20 36 /\
    exists that' h3,
      Parser.parse fuel buffer pesConfig h2 = Some (Return that', h3).
Proof.
  pose proof Hok as [Hstart _].
  set (count := (length fileBuffer - COMMENTARY_START_OFFSET pesConfig)
                  / RECORD_SIZE pesConfig) in *.
  set (records := map (recordAt pesConfig fileBuffer) (seq 0 count)).
  set (F := Uint8Array.slice fileBuffer 0 16).
  set (S2 := Uint8Array.slice fileBuffer 20 36).
  assert (Hmeta : acceptedMetadata F S2) by (apply headerOk_metadata; [lia|assumption]).
  pose proof Hmeta as (L1 & _ & L2 & _).
  assert (Hrecords : length records = count)
    by (unfold records; now rewrite length_map, length_seq).
  set (that := mkParser pesConfig
                 (mkMetadata (length (byteArrays h)) (S (length (byteArrays h))))
                 (length (recordArrays h))).
  set (h1 := mkHeap (recordArrays h ++ [records]) (byteArrays h ++ [F; S2])).
  set (buffer := encodedFile localeCompare pesConfig F S2 records).
  assert (Hbuffer : length buffer
                    = COMMENTARY_START_OFFSET pesConfig + count * RECORD_SIZE pesConfig).
  { unfold buffer. rewrite encodedFile_length by assumption. now rewrite Hrecords. }
  exists that, h1, buffer.
  eexists. split; [|split; [|split; [|split; [|split; [|split]]]]].
  - apply parse_accepts; try assumption. now apply isBinaryValid_spec.
  - apply (save_run localeCompare that h1 records F S2); try assumption.
    + apply list_lookup_middle. reflexivity.
    + apply list_lookup_middle. reflexivity.
    + cbn [that h1 metadata second byteArrays].
      rewrite (cons_middle F), app_assoc.
      apply list_lookup_middle. rewrite length_app. simpl. lia.
  - exact Hbuffer.
  - rewrite Hbuffer. unfold count.
    pose proof (Nat.Div0.mul_div_le (length fileBuffer - COMMENTARY_START_OFFSET pesConfig)
                  (RECORD_SIZE pesConfig)).
    lia.
  - unfold buffer, encodedFile.
    eapply (slice_at _ [] F); [reflexivity|reflexivity|now rewrite L1].
  - unfold buffer, encodedFile.
    eapply (slice_at _ (F ++ Utils.decimalToBytes (Z.of_nat (length records))) S2);
      [reassoc| |]; rewrite length_app, L1, ?L2; reflexivity.
  - do 2 eexists. apply parse_accepts; try assumption.
    + rewrite Hbuffer.
      replace (COMMENTARY_START_OFFSET pesConfig + count * RECORD_SIZE pesConfig
               - COMMENTARY_START_OFFSET pesConfig)
        with (count * RECORD_SIZE pesConfig) by lia.
      rewrite Nat.div_mul by lia. exact Hfuel.
    + lia.
    + now apply encodedFile_valid.
Qed.

(* ===================================================================== *)
(** ** Sorting and counting                                                *)
(* ===================================================================== *)

Lemma insertSorted_sorted {A} (cmp : A -> A -> Z) (x : A) (l : list A) :
  (forall a b, cmp a b <= 0 \/ cmp b a <= 0)%Z ->
  (forall a b c, cmp a b <= 0 -> cmp b c <= 0 -> cmp a c <= 0)%Z ->
  StronglySorted (fun a b => (cmp a b <= 0)%Z) l ->
  StronglySorted (fun a b => (cmp a b <= 0)%Z) (insertSorted cmp x l).
Proof.
  intros Htotal Htrans. induction l as [|y r IH]; intros Hs; simpl.
  - constructor; constructor.
  - apply StronglySorted_inv in Hs. destruct Hs as [Hr Hy].
    destruct (cmp x y <=? 0)%Z eqn:E.
    + apply Z.leb_le in E. constructor; [now constructor|].
      constructor; [assumption|].
      eapply Forall_impl; [exact Hy|]. intros z Hz. simpl in Hz. now apply (Htrans x y z).
    + apply Z.leb_gt in E. constructor; [now apply IH|].
      apply (Permutation_Forall (Permutation_sym (insertSorted_perm cmp x r))).
      constructor; [|assumption]. destruct (Htotal x y); [lia|assumption].
Qed.

Lemma sort_sorted {A} (cmp : A -> A -> Z) (l : list A) :
  (forall a b, cmp a b <= 0 \/ cmp b a <= 0)%Z ->
  (forall a b c, cmp a b <= 0 -> cmp b c <= 0 -> cmp a c <= 0)%Z ->
  StronglySorted (fun a b => (cmp a b <= 0)%Z) (sort cmp l).
Proof.
  intros Htotal Htrans. induction l as [|x r IH]; [constructor|].
  change (sort cmp (x :: r)) with (insertSorted cmp x (sort cmp r)).
  now apply insertSorted_sorted.
Qed.

(** X18. [sortAndCountPlayers] with a collation that is a total preorder:
    it returns a new array that holds the records of the collection, each as
    often as the collection does, in non-decreasing order of display name; the
    collection itself is left as it was.  The counts are an object of 26
    properties, [A] to [Z] in this order, each with the number of records
    whose display name starts with that letter in either case. *)
Theorem sortAndCountPlayers_sorted_copy_and_counts
    (localeCompare : jsstring -> jsstring -> Z) (h : Heap) (players : loc)
    (elements : list CommentaryRecord.t)
    (Hplayers : recordArrays h !! players = Some elements)
    (Htotal : forall a b, (localeCompare a b <= 0 \/ localeCompare b a <= 0)%Z)
    (Htrans : forall a b c, (localeCompare a b <= 0 -> localeCompare b c <= 0 ->
                             localeCompare a c <= 0)%Z) :
  exists sorted sortedElements counts h',
    Utils.sortAndCountPlayers localeCompare players h = (Return (sorted, counts), h') /\
    sorted = length (recordArrays h) /\
    recordArrays h' !! sorted = Some sortedElements /\
    recordArrays h' !! players = Some elements /\
    Permutation sortedElements elements /\
    StronglySorted (fun a b => (Utils.comparePlayers localeCompare a b <= 0)%Z)
                   sortedElements /\
    counts = map (fun i => (fromCharCode (65 + Z.of_nat i), letterCount elements i))
                 (seq 0 26).
Proof.
  do 4 eexists. split; [exact (sortAndCountPlayers_run _ _ _ _ Hplayers)|].
  split; [reflexivity|]. split; [apply list_lookup_middle; reflexivity|].
  split; [now apply lookup_app_l_Some|]. split; [apply sort_perm|]. split.
  - apply sort_sorted.
    + intros a b. apply Htotal.
    + intros a b c. apply Htrans.
  - rewrite countPlayers_fold by apply initialCounts_NoDup.
    rewrite initialCounts_eq, map_map. apply map_ext. intros i. cbn [fst snd]. f_equal.
    apply (letterCount_perm _ elements i), sort_perm.
Qed.

Lemma example_layout_2021 : layoutOk (pesConfig parser2021).
Proof. split; simpl; lia. Qed.

Lemma example_metadata :
  acceptedMetadata (lit "SEPD" ++ replicate 12 7%Z) (replicate 16 0%Z).
Proof. repeat split. Qed.

Lemma save_exact_size_or_range_error_witness :
  (exists buffer,
     fst (Parser.save unitCompare parser2021 exampleHeap) = Return buffer /\
     length buffer = 144 + 2 * 96 /\
     144 <= length buffer /\
     16 <= length buffer /\
     20 + 16 <= length buffer) \/
  fst (Parser.save unitCompare parser2021 exampleHeap) = Throw RangeError.
Proof.
  exact (save_exact_size_or_range_error unitCompare parser2021 exampleHeap [bob; ana]
           (lit "SEPD" ++ replicate 12 7%Z) (replicate 16 0%Z) eq_refl eq_refl eq_refl).
Defined.

Lemma save_index_slots_witness :
  exists buffer,
    fst (Parser.save unitCompare parser2021 exampleHeap) = Return buffer /\
    (forall i, i < 25 ->
       readUint32LE buffer (36 + 4 * i) = Z.of_nat (cumulativeCount [bob; ana] i)) /\
    readUint32LE buffer (36 + 4 * 25) = 2%Z.
Proof.
  assert (Hcount : (Z.of_nat (length [bob; ana]) < 2 ^ 32)%Z) by (simpl; lia).
  destruct (save_index_slots unitCompare parser2021 exampleHeap [bob; ana]
              (lit "SEPD" ++ replicate 12 7%Z) (replicate 16 0%Z)
              eq_refl eq_refl eq_refl eq_refl eq_refl example_layout_2021 Hcount)
    as (buffer & Hrun & Hslots & Hlast & _).
  exists buffer. split; [exact Hrun|]. split; [exact Hslots|exact Hlast].
Defined.

Lemma save_twice_same_bytes_witness :
  exists buffer,
    bind (Parser.save unitCompare parser2021)
         (fun b1 => bind (Parser.save unitCompare parser2021) (fun b2 => ret (b1, b2)))
         exampleHeap
    = (Return (buffer, buffer),
       mkHeap (recordArrays exampleHeap
               ++ [sort (Utils.comparePlayers unitCompare) [bob; ana];
                   sort (Utils.comparePlayers unitCompare) [bob; ana]])
              (byteArrays exampleHeap)).
Proof.
  exact (save_twice_same_bytes unitCompare parser2021 exampleHeap [bob; ana]
           (lit "SEPD" ++ replicate 12 7%Z) (replicate 16 0%Z)
           eq_refl eq_refl eq_refl eq_refl eq_refl example_layout_2021).
Defined.

Lemma parse_ignores_count_and_index_witness :
  Parser.parse 1 (<[16 := 5%Z]> (lit "SEPD" ++ replicate 140 0%Z)) PES2017Config exampleHeap
  = Parser.parse 1 (lit "SEPD" ++ replicate 140 0%Z) PES2017Config exampleHeap.
Proof.
  apply parse_ignores_count_and_index.
  - reflexivity.
  - intros i Hi. apply list_lookup_insert_ne. simpl in Hi. lia.
Defined.

Lemma readString_trimmed_and_empty_on_zeros_witness :
  Parser.readString (replicate 8 0%Z) 2 4 = [].
Proof.
  apply (readString_trimmed_and_empty_on_zeros (replicate 8 0%Z) 2 4).
  intros i b _ Hb. apply lookup_replicate in Hb. tauto.
Defined.

Lemma readString_reads_written_field_witness :
  Parser.readString ([1; 2]%Z ++ padded 8 (TextEncoder.encode (lit " Ana")) ++ [9%Z]) 2 8
  = lit "Ana".
Proof.
  apply (readString_reads_written_field [1; 2]%Z [9%Z] 8 (lit " Ana")).
  - change (lit " Ana") with [32; 65; 110; 97]%Z. repeat (constructor; [lia|]). constructor.
  - reflexivity.
  - intros r E. discriminate E.
  - simpl. lia.
Defined.

Lemma save_then_parse_ascii_witness :
  exists buffer h1 that h2,
    Parser.save unitCompare parser2021 exampleHeap = (Return buffer, h1) /\
    Parser.parse 3 buffer PES2021Config h1 = Some (Return that, h2) /\
    recordArrays h2 !! playerList that =
      Some (map (fun player =>
                   CommentaryRecord.mk
                     (trim (take 16 (CommentaryRecord.commentaryName player)))
                     (trim (drop 16 (take (16 + 64) (CommentaryRecord.playerName player)))))
                (sort (Utils.comparePlayers unitCompare) [bob; ana])).
Proof.
  apply (save_then_parse_ascii unitCompare parser2021 exampleHeap [bob; ana]
           (lit "SEPD" ++ replicate 12 7%Z) (replicate 16 0%Z) 3 eq_refl eq_refl eq_refl
           example_metadata example_layout_2021).
  - simpl; lia.
  - reflexivity.
  - simpl; lia.
Defined.

Lemma example_file_header : headerOk (lit "SEPD" ++ replicate 220 0%Z).
Proof. apply isBinaryValid_spec. reflexivity. Qed.

Lemma parse_then_save_is_accepted_witness :
  exists that h1 buffer h2,
    Parser.parse 3 (lit "SEPD" ++ replicate 220 0%Z) PES2017Config exampleHeap
      = Some (Return that, h1) /\
    Parser.save unitCompare that h1 = (Return buffer, h2) /\
    length buffer = 144 + 1 * 80 /\
    exists that' h3,
      Parser.parse 3 buffer PES2017Config h2 = Some (Return that', h3).
Proof.
  assert (Hok : layoutOk PES2017Config) by (split; simpl; lia).
  assert (Hsize : 0 < RECORD_SIZE PES2017Config) by (simpl; lia).
  assert (Hfuel : (length (lit "SEPD" ++ replicate 220 0%Z)
                   - COMMENTARY_START_OFFSET PES2017Config) / RECORD_SIZE PES2017Config < 3)
    by (vm_compute; lia).
  assert (Hlength : COMMENTARY_START_OFFSET PES2017Config
                    <= length (lit "SEPD" ++ replicate 220 0%Z)) by (vm_compute; lia).
  destruct (parse_then_save_is_accepted unitCompare (lit "SEPD" ++ replicate 220 0%Z)
              PES2017Config exampleHeap 3 Hok Hsize Hfuel Hlength example_file_header)
    as (that & h1 & buffer & h2 & Hparse & Hsave & Hlen & _ & _ & _ & Hagain).
  exists that, h1, buffer, h2. repeat split; assumption.
Defined.

Lemma sortAndCountPlayers_sorted_copy_and_counts_witness :
  exists sorted sortedElements counts h',
    Utils.sortAndCountPlayers
      (fun a b => (Z.of_nat (length a) - Z.of_nat (length b))%Z) 0 exampleHeap
      = (Return (sorted, counts), h') /\
    recordArrays h' !! sorted = Some sortedElements /\
    Permutation sortedElements [bob; ana].
Proof.
  assert (Htotal : forall a b : jsstring,
             (Z.of_nat (length a) - Z.of_nat (length b) <= 0
              \/ Z.of_nat (length b) - Z.of_nat (length a) <= 0)%Z) by (intros a b; lia).
  assert (Htrans : forall a b c : jsstring,
             (Z.of_nat (length a) - Z.of_nat (length b) <= 0 ->
              Z.of_nat (length b) - Z.of_nat (length c) <= 0 ->
              Z.of_nat (length a) - Z.of_nat (length c) <= 0)%Z) by (intros a b c; lia).
  destruct (sortAndCountPlayers_sorted_copy_and_counts
              (fun a b => (Z.of_nat (length a) - Z.of_nat (length b))%Z)
              exampleHeap 0 [bob; ana] eq_refl Htotal Htrans)
    as (sorted & sortedElements & counts & h' & Hrun & _ & Hsorted & _ & Hperm & _).
  exists sorted, sortedElements, counts, h'. repeat split; assumption.
Defined.

(** X19. The two versions of [createPlayer] agree where the compiled one
    accepts its argument: for a display name that is not blank, an id in
    0..999999 and a key that no record has, the compiled [createPlayer] does
    what the TypeScript [createPlayer] does with the id written as six
    digits. *)
Theorem createPlayer_versions_agree
    (this : PESCommentaryListParser) (h : Heap) (players : list CommentaryRecord.t)
    (data : CommentaryUpsert.t)
    (Hplayers : recordArrays h !! playerList this = Some players)
    (Hname : forallb isWhiteSpace (CommentaryUpsert.playerName data) = false)
    (Hid : (0 <= CommentaryUpsert.commentaryId data <= 999999)%Z)
    (Hfresh : ~ In (ParserDist.buildCommentaryName this (CommentaryUpsert.commentaryId data))
                   (keysOf players)) :
  ParserDist.createPlayer this data h =
  Parser.createPlayer this (Utils.formatTo6String (CommentaryUpsert.commentaryId data))
                      (CommentaryUpsert.playerName data) h.
Proof.
  rewrite (ParserDist_createPlayer_run _ _ _ _ Hplayers), Hname.
  assert (((CommentaryUpsert.commentaryId data <? 0)
           || (999999 <? CommentaryUpsert.commentaryId data))%Z = false) as ->
    by (apply orb_false_iff; split; apply Z.ltb_ge; lia).
  cbv zeta. rewrite (proj2 (findIndex_key_None _ _) Hfresh).
  now rewrite (Parser_createPlayer_appends _ _ _ _ _ Hplayers).
Qed.

Lemma createPlayer_versions_agree_witness :
  ParserDist.createPlayer parser2021 (CommentaryUpsert.mk 57123 (lit "Mohamed Salah"))
                          exampleHeap
  = Parser.createPlayer parser2021 (Utils.formatTo6String 57123) (lit "Mohamed Salah")
                        exampleHeap.
Proof.
  apply (createPlayer_versions_agree parser2021 exampleHeap [bob; ana]
           (CommentaryUpsert.mk 57123 (lit "Mohamed Salah")) eq_refl).
  - reflexivity.
  - simpl; lia.
  - exact example_key_fresh.
Defined.
